(** * rsa-gen: textbook RSA built on Miller-Rabin prime generation

    A shallow embedding of [rsa-gen.py] and the properties its specification
    states about it.  Python integers are [Z]; [bytes] objects are lists of
    [Byte.byte]; a [str] is the list of its code points.  The program draws
    random numbers, raises exceptions and contains two unbounded [while]
    loops, so every function lives in one small monad: a state (the stream
    of raw random draws still to come and the number of modular
    exponentiations performed so far) threaded through a computation that
    returns, raises, or runs out of loop fuel. *)

From Stdlib Require Import ZArith List Lia Bool String Ascii Znumtheory Zcong.
From Stdlib Require Import Strings.Byte.
From Stdlib Require Import Zmod.ZmodInv.
From Stdlib Require DecimalString HexadecimalString.
Import ListNotations.
Local Open Scope Z_scope.

(* ================================================================== *)
(** ** Exceptions, outcomes and the effect monad *)

(** The exception classes the program can meet, each with its message
    ([str(e)] in the source).  The messages the program writes itself are
    given in full; of the messages of the built-ins, which the program only
    passes on, the part that does not depend on the operands is kept. *)
Inductive exn : Type :=
| ValueError (msg : string)
| OverflowError (msg : string)
| UnicodeEncodeError (msg : string).

Definition str_exn (e : exn) : string :=
  match e with
  | ValueError m => m
  | OverflowError m => m
  | UnicodeEncodeError m => m
  end.

(** What running a piece of the program can lead to.  [Diverge] stands for
    a [while] loop that was still running when its fuel ran out. *)
Inductive outcome (A : Type) : Type :=
| Ret (a : A)
| Raise (e : exn)
| Diverge.
Arguments Ret {A} a.
Arguments Raise {A} e.
Arguments Diverge {A}.

(** The state of the outside world: [entropy] is the sequence of raw values
    the [random] module will hand out next, [pow_calls] counts the calls of
    the three-argument [pow] made so far. *)
Record world : Type := mkWorld {
  entropy : nat -> Z;
  pow_calls : nat
}.

Definition M (A : Type) : Type := world -> outcome A * world.

Definition ret {A} (a : A) : M A := fun w => (Ret a, w).

Definition bind {A B} (m : M A) (k : A -> M B) : M B :=
  fun w =>
    match m w with
    | (Ret a, w') => k a w'
    | (Raise e, w') => (Raise e, w')
    | (Diverge, w') => (Diverge, w')
    end.

Definition raise {A} (e : exn) : M A := fun w => (Raise e, w).

Definition diverge {A} : M A := fun w => (Diverge, w).

(** [try: body except Exception as e: handler(e)] *)
Definition try_except {A} (body : M A) (handler : exn -> M A) : M A :=
  fun w =>
    match body w with
    | (Raise e, w') => handler e w'
    | r => r
    end.

Definition lift {A} (o : outcome A) : M A := fun w => (o, w).

Declare Scope monad_scope.
Delimit Scope monad_scope with monad.
Notation "x <- m ;; k" := (bind m (fun x => k))
  (at level 61, m at next level, right associativity) : monad_scope.
Notation "' pat <- m ;; k" := (bind m (fun x => match x with pat => k end))
  (at level 61, pat pattern, m at next level, right associativity) : monad_scope.
Local Open Scope monad_scope.

(* ================================================================== *)
(** ** The Python built-ins the program calls *)

(** [int.bit_length()]: the number of bits of the absolute value. *)
Definition bit_length (n : Z) : Z :=
  if n =? 0 then 0 else Z.log2 (Z.abs n) + 1.

(** Modular exponentiation by repeated squaring, most significant bit of
    the exponent first; the modulus [c] is positive here. *)
Fixpoint modpow_pos (a : Z) (e : positive) (c : Z) : Z :=
  match e with
  | xH => a mod c
  | xO e' => let h := modpow_pos a e' c in (h * h) mod c
  | xI e' => let h := modpow_pos a e' c in ((h * h) mod c * a) mod c
  end.

Definition modpow (a b c : Z) : Z :=
  match b with
  | Z0 => 1 mod c
  | Zpos e => modpow_pos a e c
  | Zneg _ => 0
  end.

(** The inverse that [pow] computes for a negative exponent. *)
Definition long_invmod (a n : Z) : outcome Z :=
  if Z.gcd a n =? 1 then Ret (Z.invmod a n)
  else Raise (ValueError "base is not invertible for the given modulus").

(** [pow(a, b, c)] on integers, as CPython's [long_pow] goes through it. *)
Definition long_pow (a b c : Z) : outcome Z :=
  if c =? 0 then Raise (ValueError "pow() 3rd argument cannot be 0")
  else
    let negativeOutput := c <? 0 in
    let c := Z.abs c in
    if c =? 1 then Ret 0
    else
      match (if b <? 0 then long_invmod a c else Ret a) with
      | Ret a' =>
          let z := modpow a' (Z.abs b) c in
          Ret (if negativeOutput && negb (z =? 0) then z - c else z)
      | Raise e => Raise e
      | Diverge => Diverge
      end.

(** The call as the program performs it: it is counted, then evaluated. *)
Definition pow3 (a b c : Z) : M Z :=
  fun w => (long_pow a b c,
            {| entropy := entropy w; pow_calls := S (pow_calls w) |}).

(** One raw draw from the random source. *)
Definition draw : M Z :=
  fun w => (Ret (entropy w 0%nat),
            {| entropy := fun i => entropy w (S i); pow_calls := pow_calls w |}).

(** [random.randint(a, b)]: uniform on the closed range, [ValueError] when
    the range is empty. *)
Definition randint (a b : Z) : M Z :=
  if b <? a then raise (ValueError "empty range for randrange()")
  else r <- draw ;; ret (a + r mod (b - a + 1)).

(** [random.getrandbits(k)] *)
Definition getrandbits (k : Z) : M Z :=
  if k <? 0 then raise (ValueError "number of bits must be non-negative")
  else if k =? 0 then ret 0
  else r <- draw ;; ret (r mod 2 ^ k).

(** [a << n] *)
Definition lshift (a n : Z) : M Z :=
  if n <? 0 then raise (ValueError "negative shift count")
  else ret (Z.shiftl a n).

(** [range(start, stop, step)] as the list of its elements. *)
Definition py_range (start stop step : Z) : M (list Z) :=
  if step =? 0 then raise (ValueError "range() arg 3 must not be zero")
  else
    let count :=
      if 0 <? step then (stop - start + step - 1) / step
      else (start - stop - step - 1) / (- step) in
    ret (map (fun k => start + Z.of_nat k * step) (seq 0 (Z.to_nat count))).

(** *** Bytes *)

Definition bytes : Type := list byte.

Definition Z_of_byte (b : byte) : Z := Z.of_N (Byte.to_N b).

Definition byte_of_Z (z : Z) : byte :=
  match Byte.of_N (Z.to_N (z mod 256)) with
  | Some b => b
  | None => x00
  end.

Definition len {A} (l : list A) : Z := Z.of_nat (List.length l).

(** A slice index clamped the way Python clamps it. *)
Definition clamp_index (n i : Z) : Z :=
  if i <? 0 then Z.max (i + n) 0 else Z.min i n.

(** [b[i:j]] *)
Definition slice {A} (l : list A) (i j : Z) : list A :=
  let lo := clamp_index (len l) i in
  let hi := clamp_index (len l) j in
  firstn (Z.to_nat (hi - lo)) (skipn (Z.to_nat lo) l).

(** [int.from_bytes(b, 'big')] *)
Definition int_from_bytes (b : bytes) : Z :=
  fold_left (fun acc x => acc * 256 + Z_of_byte x) b 0.

(** The [size] low-order base-256 digits of [m], most significant first. *)
Fixpoint be_digits (size : nat) (m : Z) : bytes :=
  match size with
  | O => []
  | S l => be_digits l (m / 256) ++ [byte_of_Z (m mod 256)]
  end.

(** [m.to_bytes(length, 'big')] *)
Definition int_to_bytes (m size : Z) : outcome bytes :=
  if size <? 0 then Raise (ValueError "length argument must be non-negative")
  else if m <? 0 then Raise (OverflowError "can't convert negative int to unsigned")
  else if 256 ^ size <=? m then Raise (OverflowError "int too big to convert")
  else Ret (be_digits (Z.to_nat size) m).

(** *** Text *)

(** A [str] is the sequence of its code points. *)
Definition pystr : Type := list Z.

Definition between (lo hi x : Z) : bool := (lo <=? x) && (x <=? hi).

(** The UTF-8 form of one code point.  A surrogate cannot be encoded
    ([str.encode] raises); no [str] holds a value outside [0 .. 0x10FFFF]. *)
Definition utf8_encode_char (c : Z) : outcome bytes :=
  if (c <? 0) || (0x10FFFF <? c) then
    Raise (UnicodeEncodeError "'utf-8' codec can't encode character: not a code point")
  else if c <? 0x80 then Ret [byte_of_Z c]
  else if c <? 0x800 then
    Ret [byte_of_Z (0xC0 + c / 64); byte_of_Z (0x80 + c mod 64)]
  else if between 0xD800 0xDFFF c then
    Raise (UnicodeEncodeError "'utf-8' codec can't encode character: surrogates not allowed")
  else if c <? 0x10000 then
    Ret [byte_of_Z (0xE0 + c / 4096); byte_of_Z (0x80 + (c / 64) mod 64);
         byte_of_Z (0x80 + c mod 64)]
  else
    Ret [byte_of_Z (0xF0 + c / 262144); byte_of_Z (0x80 + (c / 4096) mod 64);
         byte_of_Z (0x80 + (c / 64) mod 64); byte_of_Z (0x80 + c mod 64)].

(** [s.encode('utf-8')] *)
Fixpoint str_encode_utf8 (s : pystr) : outcome bytes :=
  match s with
  | [] => Ret []
  | c :: rest =>
      match utf8_encode_char c with
      | Ret bc =>
          match str_encode_utf8 rest with
          | Ret br => Ret (bc ++ br)
          | other => other
          end
      | other => other
      end
  end.

(** The values the second byte of a sequence may take after lead byte [x0]. *)
Definition second_lo (x0 : Z) : Z :=
  if x0 =? 0xE0 then 0xA0 else if x0 =? 0xF0 then 0x90 else 0x80.
Definition second_hi (x0 : Z) : Z :=
  if x0 =? 0xED then 0x9F else if x0 =? 0xF4 then 0x8F else 0xBF.

(** [b.decode('utf-8', errors='replace')]: every ill-formed byte run
    (an invalid lead byte, or the longest prefix of a sequence that is cut
    short) becomes one U+FFFD, and decoding goes on after it. *)
Fixpoint bytes_decode_utf8_replace (bs : bytes) : pystr :=
  match bs with
  | [] => []
  | b0 :: r0 =>
    let x0 := Z_of_byte b0 in
    if x0 <? 0x80 then x0 :: bytes_decode_utf8_replace r0
    else if (x0 <? 0xC2) || (0xF4 <? x0) then 0xFFFD :: bytes_decode_utf8_replace r0
    else
      match r0 with
      | [] => [0xFFFD]
      | b1 :: r1 =>
        let x1 := Z_of_byte b1 in
        if negb (between (second_lo x0) (second_hi x0) x1) then
          0xFFFD :: bytes_decode_utf8_replace r0
        else if x0 <? 0xE0 then
          ((x0 - 0xC0) * 64 + (x1 - 0x80)) :: bytes_decode_utf8_replace r1
        else
          match r1 with
          | [] => [0xFFFD]
          | b2 :: r2 =>
            let x2 := Z_of_byte b2 in
            if negb (between 0x80 0xBF x2) then
              0xFFFD :: bytes_decode_utf8_replace r1
            else if x0 <? 0xF0 then
              ((x0 - 0xE0) * 4096 + (x1 - 0x80) * 64 + (x2 - 0x80))
                :: bytes_decode_utf8_replace r2
            else
              match r2 with
              | [] => [0xFFFD]
              | b3 :: r3 =>
                let x3 := Z_of_byte b3 in
                if negb (between 0x80 0xBF x3) then
                  0xFFFD :: bytes_decode_utf8_replace r2
                else
                  ((x0 - 0xF0) * 262144 + (x1 - 0x80) * 4096
                   + (x2 - 0x80) * 64 + (x3 - 0x80))
                    :: bytes_decode_utf8_replace r3
              end
          end
      end
  end.

(** [str.isspace] on one code point: the characters [str.strip()] removes. *)
Definition isspace (c : Z) : bool :=
  between 0x09 0x0D c || between 0x1C 0x20 c || (c =? 0x85) || (c =? 0xA0)
  || (c =? 0x1680) || between 0x2000 0x200A c || (c =? 0x2028) || (c =? 0x2029)
  || (c =? 0x202F) || (c =? 0x205F) || (c =? 0x3000).

Fixpoint lstrip (s : pystr) : pystr :=
  match s with
  | [] => []
  | c :: rest => if isspace c then lstrip rest else s
  end.

(** [s.strip()] *)
Definition strip (s : pystr) : pystr := rev (lstrip (rev (lstrip s))).

(** Truth value of a [str]: the empty string is false. *)
Definition truthy (s : pystr) : bool :=
  match s with [] => false | _ :: _ => true end.

(** The code points of an ASCII literal, to write messages down. *)
Fixpoint pystr_of_string (s : string) : pystr :=
  match s with
  | EmptyString => []
  | String a rest => Z.of_N (N_of_ascii a) :: pystr_of_string rest
  end.

(* ================================================================== *)
(** ** The program *)

(** *** [es_primo]: the Miller-Rabin test *)

(** [while d % 2 == 0: d //= 2; s += 1] *)
Fixpoint es_primo_halve (fuel : nat) (d s : Z) : M (Z * Z) :=
  match fuel with
  | O => diverge
  | S fuel' =>
      if d mod 2 =? 0 then es_primo_halve fuel' (d / 2) (s + 1)
      else ret (d, s)
  end.

(** [for __ in range(s - 1): x = pow(x, 2, n); if x == n - 1: break],
    [count] iterations to go.  The result tells whether the loop was left by
    [break]; when it was not, the [else] clause of the loop runs. *)
Fixpoint es_primo_squarings (count : nat) (x n : Z) : M bool :=
  match count with
  | O => ret false
  | S count' =>
      x <- pow3 x 2 n ;;
      if x =? n - 1 then ret true
      else es_primo_squarings count' x n
  end.

(** [for _ in range(k): ...], [count] rounds to go. *)
Fixpoint es_primo_rounds (count : nat) (n d s : Z) : M bool :=
  match count with
  | O => ret true
  | S count' =>
      a <- randint 2 (n - 2) ;;
      x <- pow3 a d n ;;
      if (x =? 1) || (x =? n - 1) then es_primo_rounds count' n d s
      else
        broke <- es_primo_squarings (Z.to_nat (s - 1)) x n ;;
        if broke then es_primo_rounds count' n d s
        else ret false
  end.

(** [def es_primo(n, k=5)].  The halving loop gets as much fuel as [n - 1]
    has bits, which [es_primo_total] shows is always enough. *)
Definition es_primo (n : Z) (k : option Z) : M bool :=
  let k := match k with Some k => k | None => 5 end in
  if n <=? 1 then ret false
  else if n <=? 3 then ret true
  else
    '(d, s) <- es_primo_halve (S (Z.to_nat (Z.log2 (n - 1)))) (n - 1) 0 ;;
    es_primo_rounds (Z.to_nat k) n d s.

(** *** [generar_primo] *)

(** [while True: ...] with [fuel] iterations allowed. *)
Fixpoint generar_primo_loop (fuel : nat) (bits : Z) : M Z :=
  match fuel with
  | O => diverge
  | S fuel' =>
      p <- getrandbits bits ;;
      hi <- lshift 1 (bits - 1) ;;
      let p := Z.lor p (Z.lor hi 1) in
      ok <- es_primo p None ;;
      if ok then ret p
      else generar_primo_loop fuel' bits
  end.

(** [def generar_primo(bits=1024)] *)
Definition generar_primo (fuel : nat) (bits : option Z) : M Z :=
  let bits := match bits with Some b => b | None => 1024 end in
  generar_primo_loop fuel bits.

(** *** [generar_claves] *)

Definition clave : Type := (Z * Z)%type.

(** [while gcd(e, phi) != 1: e = random.randint(2, phi - 1)] *)
Fixpoint generar_claves_e (fuel : nat) (phi e : Z) : M Z :=
  match fuel with
  | O => diverge
  | S fuel' =>
      if negb (Z.gcd e phi =? 1) then
        e <- randint 2 (phi - 1) ;;
        generar_claves_e fuel' phi e
      else ret e
  end.

(** [def generar_claves(bits=1024)]; each of its loops may run [fuel]
    times. *)
Definition generar_claves (fuel : nat) (bits : option Z) : M (clave * clave) :=
  let bits := match bits with Some b => b | None => 1024 end in
  p <- generar_primo fuel (Some (bits / 2)) ;;
  q <- generar_primo fuel (Some (bits / 2)) ;;
  let n := p * q in
  let phi := (p - 1) * (q - 1) in
  let e := 65537 in
  e <- generar_claves_e fuel phi e ;;
  d <- pow3 e (-1) phi ;;
  ret ((e, n), (d, n)).

(** *** [cifrar_mensaje] *)

(** [bloque_max = (n.bit_length() // 8) - 1] *)
Definition bloque_max (n : Z) : Z := bit_length n / 8 - 1.

(** [[bytes_msg[i:i+bloque_max] for i in range(0, len(bytes_msg), bloque_max)]] *)
Definition bloques_de (bytes_msg : bytes) (bloque_max : Z) : M (list bytes) :=
  idx <- py_range 0 (len bytes_msg) bloque_max ;;
  ret (map (fun i => slice bytes_msg i (i + bloque_max)) idx).

(** [for bloque in bloques: ...], appending to [cifrados]. *)
Fixpoint cifrar_bloques (bloques : list bytes) (e n : Z) (cifrados : list Z)
  : M (list Z) :=
  match bloques with
  | [] => ret cifrados
  | bloque :: rest =>
      let m := int_from_bytes bloque in
      if n <=? m then raise (ValueError "Mensaje demasiado grande para la clave")
      else
        c <- pow3 m e n ;;
        cifrar_bloques rest e n (cifrados ++ [c])
  end.

Definition cifrar_mensaje (mensaje : pystr) (clave_publica : clave) : M (list Z) :=
  let '(e, n) := clave_publica in
  let bloque_max := bloque_max n in
  try_except
    (bytes_msg <- lift (str_encode_utf8 mensaje) ;;
     bloques <- bloques_de bytes_msg bloque_max ;;
     cifrar_bloques bloques e n [])
    (fun ex => raise (ValueError ("Error al cifrar: " ++ str_exn ex))).

(** *** [descifrar_mensaje] *)

(** [m.to_bytes((m.bit_length() + 7) // 8, 'big')] *)
Definition bloque_de_entero (m : Z) : outcome bytes :=
  int_to_bytes m ((bit_length m + 7) / 8).

(** [for c in cifrados: ...], appending to [bloques]. *)
Fixpoint descifrar_bloques (cifrados : list Z) (d n : Z) (bloques : list bytes)
  : M (list bytes) :=
  match cifrados with
  | [] => ret bloques
  | c :: rest =>
      m <- pow3 c d n ;;
      bloque <- lift (bloque_de_entero m) ;;
      descifrar_bloques rest d n (bloques ++ [bloque])
  end.

Definition descifrar_mensaje (cifrados : list Z) (clave_privada : clave)
    (clave_publica_original : option clave) : M pystr :=
  let '(d, n) := clave_privada in
  _ <- match clave_publica_original with
       | Some (e_original, n_original) =>
           if negb (n =? n_original) then
             raise (ValueError "¡Las llaves no coinciden! El módulo 'n' es diferente")
           else ret tt
       | None => ret tt
       end ;;
  try_except
    (bloques <- descifrar_bloques cifrados d n [] ;;
     let mensaje := bytes_decode_utf8_replace (List.concat bloques) in
     if negb (truthy (strip mensaje)) then
       raise (ValueError "Resultado vacío - probablemente las llaves son incorrectas")
     else ret mensaje)
    (fun ex => raise (ValueError ("Error al descifrar: " ++ str_exn ex
                                  ++ " - ¿Las llaves no coinciden?"))).

(** *** The error kinds of the specification *)

Definition KeyMismatch : exn :=
  ValueError "¡Las llaves no coinciden! El módulo 'n' es diferente".

Definition BlockTooLarge : exn :=
  ValueError "Error al cifrar: Mensaje demasiado grande para la clave".

Definition EmptyResult : exn :=
  ValueError "Error al descifrar: Resultado vacío - probablemente las llaves son incorrectas - ¿Las llaves no coinciden?".

(* ================================================================== *)
(** ** Notions the specification speaks of *)

(** A byte string without its leading zero bytes. *)
Fixpoint sin_ceros (b : bytes) : bytes :=
  match b with
  | [] => []
  | x :: rest => if Z_of_byte x =? 0 then sin_ceros rest else b
  end.

(** A text: a [str] all of whose code points are Unicode scalar values,
    that is, code points that are not surrogates. *)
Definition escalar (c : Z) : Prop :=
  0 <= c <= 0x10FFFF /\ ~ (0xD800 <= c <= 0xDFFF).

Definition es_texto (s : pystr) : Prop := Forall escalar s.

(** *** One round of the test, as a function of the witness *)

(** The odd part [d] and the exponent [s] with [n - 1 = d * 2 ^ s], as the
    halving loop of [es_primo] finds them. *)
Definition descomponer (n : Z) : Z * Z :=
  match fst (es_primo_halve (S (Z.to_nat (Z.log2 (n - 1)))) (n - 1) 0
               {| entropy := fun _ => 0; pow_calls := 0 |}) with
  | Ret r => r
  | _ => (n - 1, 0)
  end.

(** Whether one of the next [count] squarings of [x] gives [n - 1]. *)
Fixpoint cuadrados (count : nat) (x n : Z) : bool :=
  match count with
  | O => false
  | S count' =>
      let x := modpow x 2 n in
      (x =? n - 1) || cuadrados count' x n
  end.

(** Whether the round that draws witness [a] lets [n] pass. *)
Definition ronda (n d s a : Z) : bool :=
  let x := modpow a d n in
  if (x =? 1) || (x =? n - 1) then true
  else cuadrados (Z.to_nat (s - 1)) x n.

(** The witness that round [i] (counting from 0) of [es_primo n] draws in
    world [w]. *)
Definition testigo (n : Z) (w : world) (i : nat) : Z :=
  2 + entropy w i mod (n - 3).

(** Whether witness 2 or witness 3 makes a round fail for [n]. *)
Definition delatado (n : Z) : bool :=
  let '(d, s) := descomponer n in
  if ronda n d s 2 then negb (ronda n d s 3) else true.

(** The integers [lo, lo + 1, ...], [count] of them. *)
Definition desde (lo : Z) (count : nat) : list Z :=
  map (fun i => lo + Z.of_nat i) (seq 0 count).

(** Trial division by 2 .. 99, enough to find a factor of a composite
    below 10000. *)
Definition tiene_divisor (n : Z) : bool :=
  existsb (fun a => if a * a <=? n then n mod a =? 0 else false) (desde 2 98).

(** What is checked of one number: 2 or 3 exposes it, or trial division
    finds no factor of it. *)
Definition comprobado (n : Z) : bool :=
  if delatado n then true else negb (tiene_divisor n).

(** The odd numbers 5, 7, ..., 9999. *)
Definition impares : list Z :=
  map (fun i => 5 + 2 * Z.of_nat i) (seq 0 (Z.to_nat 4998)).

(** The precondition of the round trip: the message bytes re-encode
    losslessly, that is, every plaintext block cut for modulus [n] is what
    line 148 makes of the integer it spells (by
    [bloque_de_entero_int_from_bytes], no block starts with a zero byte). *)
Definition sin_perdida (mensaje : pystr) (n : Z) : Prop :=
  forall bytes_msg bloques w,
    str_encode_utf8 mensaje = Ret bytes_msg ->
    bloques_de bytes_msg (bloque_max n) w = (Ret bloques, w) ->
    Forall (fun b => bloque_de_entero (int_from_bytes b) = Ret b) bloques.

(** [n] passes the Miller-Rabin round of base [a]: writing
    [n - 1 = d * 2 ^ s] with [d] odd, [a ^ d] is 1 modulo [n], or one of
    [a ^ (d * 2 ^ r)] for [r < s] (for [r = 0] when [s = 0]) is -1
    modulo [n]. *)
Definition pasa (n a : Z) : Prop :=
  exists d s,
    0 <= s /\ Z.odd d = true /\ n - 1 = d * 2 ^ s /\
    (a ^ d mod n = 1 \/
     exists r, 0 <= r < Z.max s 1 /\ a ^ (d * 2 ^ r) mod n = n - 1).

(** [descifrar_mensaje] past its key check. *)
Definition descifrar_cuerpo (cifrados : list Z) (d n : Z) : M pystr :=
  try_except
    (bloques <- descifrar_bloques cifrados d n [] ;;
     let mensaje := bytes_decode_utf8_replace (List.concat bloques) in
     if negb (truthy (strip mensaje)) then
       raise (ValueError "Resultado vacío - probablemente las llaves son incorrectas")
     else ret mensaje)
    (fun ex => raise (ValueError ("Error al descifrar: " ++ str_exn ex
                                  ++ " - ¿Las llaves no coinciden?"))).

(** The values [e] takes in the loop of [generar_claves]: the one it starts
    with, then one draw of [random.randint(2, phi - 1)] per iteration. *)
Definition candidato_e (phi e : Z) (w : world) (i : nat) : Z :=
  match i with
  | O => e
  | S i' => 2 + entropy w i' mod (phi - 2)
  end.

(* ================================================================== *)
(** ** Worlds to run the program in *)

(** The world whose random source hands out the values of [draws] and then
    zeros, with no exponentiation performed yet. *)
Definition mundo (draws : list Z) : world :=
  {| entropy := fun i => nth i draws 0; pow_calls := 0 |}.

(* ================================================================== *)
(** ** The interactive shell: [mostrar_menu] and [main] *)

(** *** Strings and their built-ins *)

(** A string literal of the source: the code points that the UTF-8 bytes
    of the literal spell. *)
Definition lit (s : string) : pystr :=
  bytes_decode_utf8_replace (list_byte_of_string s).

(** ["\n"] *)
Definition nl : pystr := [10].

(** [str(z)] of an integer, also what an f-string makes of it.  The limit
    that recent interpreters put on the number of digits of such a
    conversion (4300 by default) is not modelled. *)
Definition str_int (z : Z) : pystr :=
  pystr_of_string (DecimalString.NilZero.string_of_int (Z.to_int z)).

(** [hex(z)] *)
Definition hex_int (z : Z) : pystr :=
  pystr_of_string
    ((if z <? 0 then "-0x" else "0x")
     ++ HexadecimalString.NilZero.string_of_int (Z.to_hex_int (Z.abs z))).

(** [s[i:]] *)
Definition desde_indice {A} (l : list A) (i : Z) : list A := slice l i (len l).

(** [sep.join(l)] *)
Fixpoint join (sep : pystr) (l : list pystr) : pystr :=
  match l with
  | [] => []
  | x :: rest =>
      match rest with
      | [] => x
      | _ :: _ => x ++ sep ++ join sep rest
      end
  end.

(** [s.split(sep)] for a separator of one character. *)
Fixpoint split_char (sep : Z) (s : pystr) : list pystr :=
  match s with
  | [] => [[]]
  | c :: rest =>
      if c =? sep then [] :: split_char sep rest
      else
        match split_char sep rest with
        | h :: t => (c :: h) :: t
        | [] => [[c]]
        end
  end.

(** [a == b] on strings. *)
Definition str_eqb (a b : pystr) : bool :=
  if list_eq_dec Z.eq_dec a b then true else false.

(** Whether [except ValueError] catches the exception: [UnicodeEncodeError]
    is a subclass of [ValueError], [OverflowError] is not. *)
Definition es_ValueError (ex : exn) : bool :=
  match ex with
  | ValueError _ => true
  | UnicodeEncodeError _ => true
  | OverflowError _ => false
  end.

(** *** The console *)

(** The world of the shell: the world of the core, the lines still to be
    typed on standard input, and what has been written to standard output,
    one entry per write. *)
Record consola : Type := mkConsola {
  mundo_de : world;
  entrada : list pystr;
  salida : list pystr
}.

(** What can stop the shell: an exception of the core or of a conversion,
    or the end of standard input. *)
Inductive fallo : Type :=
| Excepcion (ex : exn)
| EOFError.

Inductive resultado (A : Type) : Type :=
| Hecho (a : A)
| Falla (f : fallo)
| SinFin.
Arguments Hecho {A} a.
Arguments Falla {A} f.
Arguments SinFin {A}.

Definition C (A : Type) : Type := consola -> resultado A * consola.

Definition retc {A} (a : A) : C A := fun c => (Hecho a, c).

Definition bindc {A B} (m : C A) (k : A -> C B) : C B :=
  fun c =>
    match m c with
    | (Hecho a, c') => k a c'
    | (Falla f, c') => (Falla f, c')
    | (SinFin, c') => (SinFin, c')
    end.

Notation "x <-- m ;; k" := (bindc m (fun x => k))
  (at level 61, m at next level, right associativity) : monad_scope.
Notation "' pat <-- m ;; k" := (bindc m (fun x => match x with pat => k end))
  (at level 61, pat pattern, m at next level, right associativity) : monad_scope.

(** A call into the core. *)
Definition nucleo {A} (m : M A) : C A :=
  fun c =>
    let '(o, w) := m (mundo_de c) in
    let c' := {| mundo_de := w; entrada := entrada c; salida := salida c |} in
    match o with
    | Ret a => (Hecho a, c')
    | Raise ex => (Falla (Excepcion ex), c')
    | Diverge => (SinFin, c')
    end.

(** [print(s)]; standard output is taken to accept every string (where
    its encoding lacks a character, [print] would raise instead). *)
Definition print (s : pystr) : C unit :=
  fun c => (Hecho tt,
            {| mundo_de := mundo_de c; entrada := entrada c;
               salida := salida c ++ [s ++ nl] |}).

(** [input(prompt)]: the prompt is written, then a line is read;
    [EOFError] when there is none. *)
Definition input_ (prompt : pystr) : C pystr :=
  fun c =>
    match entrada c with
    | [] => (Falla EOFError,
             {| mundo_de := mundo_de c; entrada := [];
                salida := salida c ++ [prompt] |})
    | linea :: resto =>
        (Hecho linea,
         {| mundo_de := mundo_de c; entrada := resto;
            salida := salida c ++ [prompt] |})
    end.

(** [try: body except ValueError as e: handler(e)] *)
Definition except_ValueError {A} (body : C A) (handler : exn -> C A) : C A :=
  fun c =>
    match body c with
    | (Falla (Excepcion ex), c') =>
        if es_ValueError ex then handler ex c'
        else (Falla (Excepcion ex), c')
    | r => r
    end.

(** [[f(x) for x in l]] *)
Fixpoint mapa_c {A B} (f : A -> C B) (l : list A) : C (list B) :=
  match l with
  | [] => retc []
  | x :: rest =>
      y <-- f x ;;
      ys <-- mapa_c f rest ;;
      retc (y :: ys)
  end.

(** *** The program *)

(** [def mostrar_menu()] *)
Definition mostrar_menu : C unit :=
  _ <-- print (nl ++ repeat 61 50) ;;
  _ <-- print (lit " RSA INTERACTIVO - VALIDACIÓN DE LLAVES") ;;
  _ <-- print (repeat 61 50) ;;
  _ <-- print (lit "1. Generar nuevas claves") ;;
  _ <-- print (lit "2. Cifrar mensaje (usar claves actuales)") ;;
  _ <-- print (lit "3. Descifrar mensaje (usar claves actuales)") ;;
  _ <-- print (lit "4. Probar descifrado con OTRAS llaves") ;;
  _ <-- print (lit "5. Ver claves actuales") ;;
  _ <-- print (lit "6. Probar primalidad") ;;
  _ <-- print (lit "7. Salir") ;;
  print (repeat 61 50).

(** The two variables of [main]: [clave_publica] and [clave_privada]. *)
Definition sesion : Type := (option clave * option clave)%type.

(** How an iteration of the loop of [main] ends: it runs to its last
    statement, or leaves by [continue], or by [break]. *)
Inductive control : Type := Sigue | Continue | Break.

Section Shell.

(** [int(s)] on a string: the integer, or the message of the [ValueError]
    it raises. *)
Variable int_ : pystr -> Z + string.

Definition int_c (s : pystr) : C Z :=
  match int_ s with
  | inl z => retc z
  | inr m => fun c => (Falla (Excepcion (ValueError m)), c)
  end.

(** [[int(b.strip()) for b in entrada.split(",")]] *)
Definition leer_bloques (linea : pystr) : C (list Z) :=
  mapa_c (fun b => int_c (strip b)) (split_char 44 linea).

(** [opcion == "1"] *)
Definition opcion_1 (fuel : nat) : C (control * sesion) :=
  t <-- input_ (lit "Tamaño de clave (bits, recomendado 1024-2048): ") ;;
  bits <-- int_c t ;;
  claves <-- nucleo (generar_claves fuel (Some bits)) ;;
  let clave_publica := fst claves in
  let clave_privada := snd claves in
  _ <-- print (nl ++ lit "[✓] Claves generadas!") ;;
  _ <-- print (lit "Clave pública (e, n):" ++ nl
               ++ lit "e = " ++ str_int (fst clave_publica) ++ nl
               ++ lit "n = " ++ str_int (snd clave_publica)) ;;
  _ <-- print (nl ++ lit "Clave privada (d, n):" ++ nl
               ++ lit "d = " ++ str_int (fst clave_privada) ++ nl
               ++ lit "n = " ++ str_int (snd clave_privada)) ;;
  retc (Sigue, (Some clave_publica, Some clave_privada)).

(** [opcion == "2"] *)
Definition opcion_2 (s : sesion) : C (control * sesion) :=
  match fst s with
  | None =>
      _ <-- print (lit "[!] Genere claves primero (opción 1)") ;;
      retc (Continue, s)
  | Some clave_publica =>
      mensaje <-- input_ (lit "Mensaje a cifrar: ") ;;
      _ <-- except_ValueError
              (cifrado <-- nucleo (cifrar_mensaje mensaje clave_publica) ;;
               _ <-- print (nl ++ lit "[✓] Mensaje cifrado (bloques):") ;;
               _ <-- print (join (lit ", ") (map str_int cifrado)) ;;
               print (lit "Hexadecimal:" ++ lit " "
                      ++ join (lit "|")
                           (map (fun b => desde_indice (hex_int b) 2) cifrado)))
              (fun e => print (lit "[!] " ++ lit (str_exn e))) ;;
      retc (Sigue, s)
  end.

(** [opcion == "3"] *)
Definition opcion_3 (s : sesion) : C (control * sesion) :=
  match snd s with
  | None =>
      _ <-- print (lit "[!] Genere claves primero (opción 1)") ;;
      retc (Continue, s)
  | Some clave_privada =>
      _ <-- except_ValueError
              (linea <-- input_ (lit "Ingrese bloques cifrados (separados por comas): ") ;;
               bloques <-- leer_bloques linea ;;
               descifrado <-- nucleo (descifrar_mensaje bloques clave_privada (fst s)) ;;
               _ <-- print (nl ++ lit "[✓] Mensaje descifrado:") ;;
               print descifrado)
              (fun e =>
                 _ <-- print (nl ++ lit "[✗] Falla de descifrado: " ++ lit (str_exn e)) ;;
                 _ <-- print (lit "Posibles causas:") ;;
                 _ <-- print (lit "- Las llaves no corresponden entre sí") ;;
                 _ <-- print (lit "- El mensaje fue cifrado con otras llaves") ;;
                 print (lit "- Error en el formato de entrada")) ;;
      retc (Sigue, s)
  end.

(** [opcion == "4"] *)
Definition opcion_4 (s : sesion) : C (control * sesion) :=
  _ <-- print (nl ++ lit "=== PRUEBA CON LLAVES DIFERENTES ===") ;;
  _ <-- except_ValueError
          (e <-- (t <-- input_ (lit "Ingrese e (clave pública): ") ;; int_c t) ;;
           n_publico <-- (t <-- input_ (lit "Ingrese n (clave pública): ") ;; int_c t) ;;
           d <-- (t <-- input_ (lit "Ingrese d (clave privada): ") ;; int_c t) ;;
           n_privado <-- (t <-- input_ (lit "Ingrese n (clave privada): ") ;; int_c t) ;;
           let otra_publica := (e, n_publico) in
           let otra_privada := (d, n_privado) in
           linea <-- input_ (lit "Bloques cifrados (separados por comas): ") ;;
           bloques <-- leer_bloques linea ;;
           _ <-- print (nl ++ lit "[?] Probando descifrado...") ;;
           descifrado <-- nucleo (descifrar_mensaje bloques otra_privada
                                    (Some otra_publica)) ;;
           _ <-- print (nl ++ lit "[✓] Descifrado exitoso con las nuevas llaves:") ;;
           _ <-- print descifrado ;;
           match s with
           | (Some clave_publica, Some clave_privada) =>
               if negb (n_publico =? snd clave_publica)
                  || negb (n_privado =? snd clave_privada)
               then
                 _ <-- print (nl ++ lit "[!] Advertencia: Estas llaves son diferentes a las actuales") ;;
                 print (lit "El sistema muestra cómo con llaves incorrectas el descifrado falla")
               else retc tt
           | _ =>
               print (nl ++ lit "[!] Nota: No se han generado claves en esta sesión, por lo tanto no se puede comparar.")
           end)
          (fun e =>
             _ <-- print (nl ++ lit "[✗] Falla de descifrado: " ++ lit (str_exn e)) ;;
             print (lit "Esto demuestra que las llaves deben ser parejas válidas")) ;;
  retc (Sigue, s).

(** [opcion == "5"] *)
Definition opcion_5 (s : sesion) : C (control * sesion) :=
  _ <-- match s with
        | (Some clave_publica, Some clave_privada) =>
            _ <-- print (nl ++ lit "Clave pública actual (e, n):") ;;
            _ <-- print (lit "e = " ++ str_int (fst clave_publica)) ;;
            _ <-- print (lit "n = " ++ str_int (snd clave_publica)) ;;
            _ <-- print (lit "n (hex):" ++ lit " "
                         ++ desde_indice (hex_int (snd clave_publica)) 2) ;;
            _ <-- print (nl ++ lit "Clave privada actual (d, n):") ;;
            _ <-- print (lit "d = " ++ str_int (fst clave_privada)) ;;
            print (lit "n = " ++ str_int (snd clave_privada))
        | _ => print (lit "[!] No hay claves generadas")
        end ;;
  retc (Sigue, s).

(** [opcion == "6"] *)
Definition opcion_6 (s : sesion) : C (control * sesion) :=
  t <-- input_ (lit "Número a probar primalidad: ") ;;
  num <-- int_c t ;;
  primo <-- nucleo (es_primo num None) ;;
  _ <-- (if primo then
           print (nl ++ lit "[✓] " ++ str_int num
                  ++ lit " ES primo (probabilísticamente)")
         else
           print (nl ++ lit "[✗] " ++ str_int num ++ lit " NO es primo")) ;;
  retc (Sigue, s).

(** One iteration of [while True] in [main]. *)
Definition main_iteracion (fuel : nat) (s : sesion) : C (control * sesion) :=
  _ <-- mostrar_menu ;;
  opcion <-- input_ (lit "Seleccione una opción (1-7): ") ;;
  r <-- (if str_eqb opcion (lit "1") then opcion_1 fuel
         else if str_eqb opcion (lit "2") then opcion_2 s
         else if str_eqb opcion (lit "3") then opcion_3 s
         else if str_eqb opcion (lit "4") then opcion_4 s
         else if str_eqb opcion (lit "5") then opcion_5 s
         else if str_eqb opcion (lit "6") then opcion_6 s
         else if str_eqb opcion (lit "7") then
           _ <-- print (nl ++ lit "¡Hasta luego!") ;;
           retc (Break, s)
         else
           _ <-- print (lit "[!] Opción inválida") ;;
           retc (Sigue, s)) ;;
  match fst r with
  | Sigue =>
      _ <-- input_ (nl ++ lit "Presione Enter para continuar...") ;;
      retc r
  | _ => retc r
  end.

(** [while True: ...], [vueltas] iterations allowed; [fuel] is the fuel of
    the loops of the core. *)
Fixpoint main_bucle (vueltas fuel : nat) (s : sesion) : C unit :=
  match vueltas with
  | O => fun c => (SinFin, c)
  | S vueltas' =>
      r <-- main_iteracion fuel s ;;
      match fst r with
      | Break => retc tt
      | _ => main_bucle vueltas' fuel (snd r)
      end
  end.

(** [def main()] *)
Definition main (vueltas fuel : nat) : C unit :=
  main_bucle vueltas fuel (None, None).

(** The state of the loop of [main] after [n] whole iterations, when it gets
    that far: the session and the console at the top of the next
    iteration.  There is none once the loop was left by [break] or by an
    exception. *)
Fixpoint main_tras (n fuel : nat) (s : sesion) (c : consola)
    : option (sesion * consola) :=
  match n with
  | O => Some (s, c)
  | S n' =>
      match main_iteracion fuel s c with
      | (Hecho (Break, _), _) => None
      | (Hecho (_, s'), c') => main_tras n' fuel s' c'
      | _ => None
      end
  end.

End Shell.

(** A reading of decimal numerals, to run the shell with: an optional
    minus sign and ASCII digits; anything else is refused. *)
Fixpoint digitos (s : pystr) (acc : Z) : option Z :=
  match s with
  | [] => Some acc
  | c :: rest =>
      if between 48 57 c then digitos rest (acc * 10 + (c - 48)) else None
  end.

Definition int_decimal (s : pystr) : Z + string :=
  match s with
  | [] => inr "invalid literal for int() with base 10"%string
  | c :: rest =>
      match (if c =? 45 then
               match rest with
               | [] => None
               | _ :: _ => option_map Z.opp (digitos rest 0)
               end
             else digitos s 0) with
      | Some z => inl z
      | None => inr "invalid literal for int() with base 10"%string
      end
  end.

(** A console with the given lines waiting on standard input. *)
Definition consola_con (w : world) (lineas : list pystr) : consola :=
  {| mundo_de := w; entrada := lineas; salida := [] |}.

(** The keys of a session belong together: none yet, or a public and a
    private key with one modulus. *)
Definition sesion_ok (s : sesion) : Prop :=
  match s with
  | (None, None) => True
  | (Some clave_publica, Some clave_privada) =>
      snd clave_publica = snd clave_privada
  | _ => False
  end.

(** *** What can end an iteration *)

(** A computation of the shell that ends well or at the end of the input:
    no exception leaves it and it does not hang. *)
Definition seguro {A} (m : C A) : Prop :=
  forall c, match fst (m c) with
            | Hecho _ => True
            | Falla EOFError => True
            | Falla (Excepcion _) => False
            | SinFin => False
            end.

(** A computation that may also raise what [except ValueError] catches. *)
Definition manso {A} (m : C A) : Prop :=
  forall c, match fst (m c) with
            | Hecho _ => True
            | Falla EOFError => True
            | Falla (Excepcion ex) => es_ValueError ex = true
            | SinFin => False
            end.

(** A computation that only takes lines off the front of standard input:
    what is left afterwards is a tail of what was there. *)
Definition solo_lee {A} (m : C A) : Prop :=
  forall c, exists pre, entrada c = pre ++ entrada (snd (m c)).

(* ================================================================== *)
(** ** Facts about the built-ins *)

Lemma modpow_pos_spec (a : Z) (e : positive) (c : Z) :
  0 < c -> modpow_pos a e c = a ^ Zpos e mod c.
Proof.
  intros Hc. induction e as [e IH | e IH | ]; simpl modpow_pos.
  - rewrite IH, Pos2Z.inj_xI.
    replace (2 * Z.pos e + 1) with (Z.pos e + Z.pos e + 1) by lia.
    rewrite !Z.pow_add_r, Z.pow_1_r by lia.
    rewrite <- (Z.mul_mod_idemp_l (a ^ Z.pos e * a ^ Z.pos e)) by lia.
    rewrite (Z.mul_mod (a ^ Z.pos e) (a ^ Z.pos e)) by lia. reflexivity.
  - rewrite IH, Pos2Z.inj_xO.
    replace (2 * Z.pos e) with (Z.pos e + Z.pos e) by lia.
    rewrite Z.pow_add_r by lia.
    rewrite <- Z.mul_mod by lia. reflexivity.
  - now rewrite Z.pow_1_r.
Qed.

Lemma modpow_spec (a b c : Z) :
  0 <= b -> 0 < c -> modpow a b c = a ^ b mod c.
Proof.
  intros Hb Hc. destruct b as [| e | e]; simpl modpow.
  - reflexivity.
  - now apply modpow_pos_spec.
  - lia.
Qed.

(** With a non-negative exponent and a positive modulus the built-in is
    exponentiation followed by reduction. *)
Lemma long_pow_spec (a b c : Z) :
  0 <= b -> 0 < c -> long_pow a b c = Ret (a ^ b mod c).
Proof.
  intros Hb Hc. unfold long_pow.
  destruct (Z.eqb_spec c 0) as [-> | _]; [lia |].
  destruct (Z.ltb_spec c 0) as [? | _]; [lia |].
  rewrite (Z.abs_eq c) by lia.
  destruct (Z.eqb_spec c 1) as [-> | _].
  - now rewrite Z.mod_1_r.
  - destruct (Z.ltb_spec b 0) as [? | _]; [lia |].
    rewrite (Z.abs_eq b) by lia. simpl andb.
    now rewrite modpow_spec.
Qed.

Lemma pow3_spec (a b c : Z) (w : world) :
  0 <= b -> 0 < c ->
  pow3 a b c w = (Ret (a ^ b mod c),
                  {| entropy := entropy w; pow_calls := S (pow_calls w) |}).
Proof. intros. unfold pow3. now rewrite long_pow_spec. Qed.

Lemma randint_spec (a b : Z) (w : world) :
  a <= b ->
  randint a b w = (Ret (a + entropy w 0%nat mod (b - a + 1)),
                   {| entropy := fun i => entropy w (S i);
                      pow_calls := pow_calls w |}).
Proof.
  intros H. unfold randint.
  destruct (Z.ltb_spec b a); [lia | reflexivity].
Qed.

Lemma bit_length_nonneg (n : Z) : 0 <= bit_length n.
Proof.
  unfold bit_length. destruct (n =? 0); [lia |].
  pose proof (Z.log2_nonneg (Z.abs n)). lia.
Qed.

(** [n] has [bit_length n] bits: it lies between the two powers of two. *)
Lemma bit_length_bounds (n : Z) :
  0 < n -> 2 ^ (bit_length n - 1) <= n < 2 ^ bit_length n.
Proof.
  intros Hn. unfold bit_length.
  destruct (Z.eqb_spec n 0); [lia |].
  rewrite Z.abs_eq by lia.
  replace (Z.log2 n + 1 - 1) with (Z.log2 n) by lia.
  pose proof (Z.log2_spec n Hn). unfold Z.succ in *. lia.
Qed.

Lemma bit_length_unique (n k : Z) :
  0 < k -> 2 ^ (k - 1) <= n < 2 ^ k -> bit_length n = k.
Proof.
  intros Hk H. unfold bit_length.
  assert (0 < 2 ^ (k - 1)) by (apply Z.pow_pos_nonneg; lia).
  destruct (Z.eqb_spec n 0); [lia |].
  rewrite Z.abs_eq by lia.
  rewrite (Z.log2_unique n (k - 1)); try lia.
  replace (Z.succ (k - 1)) with k by lia. lia.
Qed.

(** *** Bytes and the integers they spell *)

Lemma Z_of_byte_range (b : byte) : 0 <= Z_of_byte b < 256.
Proof.
  unfold Z_of_byte. pose proof (Byte.to_N_bounded b). lia.
Qed.

Lemma Z_of_byte_of_Z (z : Z) : Z_of_byte (byte_of_Z z) = z mod 256.
Proof.
  unfold Z_of_byte, byte_of_Z.
  pose proof (Z.mod_pos_bound z 256 ltac:(lia)) as Hr.
  destruct (Byte.of_N (Z.to_N (z mod 256))) as [b |] eqn:E.
  - apply Byte.to_of_N in E. rewrite E. lia.
  - apply Byte.of_N_None_iff in E. lia.
Qed.

Lemma byte_of_Z_of_byte (b : byte) : byte_of_Z (Z_of_byte b) = b.
Proof.
  unfold byte_of_Z, Z_of_byte.
  pose proof (Byte.to_N_bounded b).
  rewrite Z.mod_small by lia.
  rewrite N2Z.id, Byte.of_to_N. reflexivity.
Qed.

Lemma len_nonneg {A} (l : list A) : 0 <= len l.
Proof. unfold len. lia. Qed.

Lemma len_app {A} (l1 l2 : list A) : len (l1 ++ l2) = len l1 + len l2.
Proof. unfold len. rewrite length_app. lia. Qed.

Lemma len_cons {A} (x : A) (l : list A) : len (x :: l) = len l + 1.
Proof. unfold len. simpl List.length. lia. Qed.

Lemma int_from_bytes_snoc (b : bytes) (x : byte) :
  int_from_bytes (b ++ [x]) = int_from_bytes b * 256 + Z_of_byte x.
Proof. unfold int_from_bytes. now rewrite fold_left_app. Qed.

Lemma fold_from_bytes (b : bytes) :
  forall acc,
    fold_left (fun acc x => acc * 256 + Z_of_byte x) b acc
    = acc * 256 ^ len b + int_from_bytes b.
Proof.
  unfold int_from_bytes.
  induction b as [| x b IH]; intros acc.
  - simpl. unfold len. simpl. lia.
  - simpl fold_left. rewrite (IH (acc * 256 + Z_of_byte x)).
    first [rewrite (IH (0 * 256 + Z_of_byte x)) | rewrite (IH (Z_of_byte x))].
    rewrite len_cons, Z.pow_add_r by (try apply len_nonneg; lia).
    lia.
Qed.

Lemma int_from_bytes_cons (x : byte) (b : bytes) :
  int_from_bytes (x :: b) = Z_of_byte x * 256 ^ len b + int_from_bytes b.
Proof.
  unfold int_from_bytes at 1. simpl fold_left.
  rewrite fold_from_bytes. lia.
Qed.

Lemma int_from_bytes_range (b : bytes) :
  0 <= int_from_bytes b < 256 ^ len b.
Proof.
  induction b as [| x b IH] using rev_ind.
  - unfold int_from_bytes, len. simpl. lia.
  - rewrite int_from_bytes_snoc, len_app.
    rewrite Z.pow_add_r by (try apply len_nonneg; unfold len; simpl; lia).
    pose proof (Z_of_byte_range x).
    change (len [x]) with 1. rewrite Z.pow_1_r. lia.
Qed.

Lemma length_be_digits (size : nat) :
  forall m, List.length (be_digits size m) = size.
Proof.
  induction size as [| size IH]; intros m; simpl.
  - reflexivity.
  - rewrite length_app, IH. simpl. lia.
Qed.

(** Writing [m] on enough digits and reading it back gives [m]. *)
Lemma int_from_bytes_be_digits (size : nat) :
  forall m, 0 <= m < 256 ^ Z.of_nat size ->
            int_from_bytes (be_digits size m) = m.
Proof.
  induction size as [| size IH]; intros m Hm.
  - simpl in *. unfold int_from_bytes. simpl. lia.
  - simpl be_digits. rewrite int_from_bytes_snoc, Z_of_byte_of_Z.
    rewrite IH.
    + rewrite Zmod_mod. pose proof (Z.div_mod m 256). lia.
    + rewrite Nat2Z.inj_succ, Z.pow_succ_r in Hm by lia.
      split; [apply Z.div_pos; lia |].
      apply Z.div_lt_upper_bound; lia.
Qed.

(** Reading a byte string and writing the value on as many digits gives
    the byte string back. *)
Lemma be_digits_int_from_bytes (b : bytes) :
  be_digits (List.length b) (int_from_bytes b) = b.
Proof.
  induction b as [| x b IH] using rev_ind.
  - reflexivity.
  - rewrite length_app. simpl List.length.
    replace (List.length b + 1)%nat with (S (List.length b)) by lia.
    simpl be_digits. rewrite int_from_bytes_snoc.
    pose proof (Z_of_byte_range x) as Hx.
    replace ((int_from_bytes b * 256 + Z_of_byte x) / 256)
      with (int_from_bytes b).
    2:{ symmetry. rewrite Z.add_comm, Z.div_add by lia.
        rewrite Z.div_small by lia. lia. }
    replace ((int_from_bytes b * 256 + Z_of_byte x) mod 256)
      with (Z_of_byte x).
    2:{ symmetry. rewrite Z.add_comm, Z.mod_add by lia.
        apply Z.mod_small; lia. }
    now rewrite IH, byte_of_Z_of_byte.
Qed.

Lemma int_from_bytes_sin_ceros (b : bytes) :
  int_from_bytes (sin_ceros b) = int_from_bytes b.
Proof.
  induction b as [| x b IH]; [reflexivity |].
  simpl sin_ceros. destruct (Z.eqb_spec (Z_of_byte x) 0) as [E | _].
  - rewrite IH, int_from_bytes_cons, E. lia.
  - reflexivity.
Qed.

(** The number of bytes [to_bytes] is asked for is the length of the byte
    string once its leading zeros are gone. *)
Lemma size_of_sin_ceros (b : bytes) :
  (bit_length (int_from_bytes b) + 7) / 8 = len (sin_ceros b).
Proof.
  rewrite <- int_from_bytes_sin_ceros.
  induction b as [| x b IH]; [reflexivity |].
  simpl sin_ceros. destruct (Z.eqb_spec (Z_of_byte x) 0) as [_ | Hx];
    [exact IH | clear IH].
  rewrite int_from_bytes_cons, len_cons.
  pose proof (Z_of_byte_range x) as Rx.
  pose proof (int_from_bytes_range b) as Rb.
  pose proof (len_nonneg b) as Hl.
  set (v := Z_of_byte x * 256 ^ len b + int_from_bytes b).
  assert (H256 : 256 ^ len b = 2 ^ (8 * len b)).
  { change 256 with (2 ^ 8). now rewrite <- Z.pow_mul_r by lia. }
  assert (Hpos : 0 < 2 ^ (8 * len b)) by (apply Z.pow_pos_nonneg; lia).
  assert (Hv : 2 ^ (8 * len b) <= v < 2 ^ (8 * len b + 8)).
  { rewrite Z.pow_add_r by lia. change (2 ^ 8) with 256. subst v. nia. }
  assert (Hvp : 0 < v) by lia.
  pose proof (bit_length_bounds v Hvp) as Hb.
  pose proof (bit_length_nonneg v) as Hbn.
  assert (8 * len b < bit_length v).
  { apply (Z.pow_lt_mono_r_iff 2); lia. }
  assert (bit_length v - 1 < 8 * len b + 8).
  { apply (Z.pow_lt_mono_r_iff 2); lia. }
  symmetry.
  apply Z.div_unique with (r := bit_length v + 7 - 8 * (len b + 1)); lia.
Qed.

(* ================================================================== *)
(** ** [es_primo] always answers *)

(** The halving loop, given fuel beyond the binary logarithm of [d], stops
    at the odd part of [d] without touching the world. *)
Lemma es_primo_halve_spec (fuel : nat) :
  forall d s w,
    0 < d -> Z.log2 d < Z.of_nat fuel ->
    exists d' s',
      es_primo_halve fuel d s w = (Ret (d', s'), w) /\
      0 < d' /\ Z.odd d' = true /\ s <= s' /\ d = d' * 2 ^ (s' - s).
Proof.
  induction fuel as [| fuel IH]; intros d s w Hd Hf.
  - pose proof (Z.log2_nonneg d). lia.
  - simpl es_primo_halve.
    destruct (Z.eqb_spec (d mod 2) 0) as [He | Ho].
    + assert (Hd2 : d = 2 * (d / 2)).
      { pose proof (Z.div_mod d 2). lia. }
      assert (0 < d / 2) by lia.
      assert (Hl : Z.log2 d = Z.succ (Z.log2 (d / 2))).
      { rewrite Hd2 at 1. apply Z.log2_double. lia. }
      destruct (IH (d / 2) (s + 1) w) as (d' & s' & E & Hp & Hodd & Hs & Hm);
        [lia | lia |].
      exists d', s'. rewrite E. repeat split; try lia; try assumption.
      replace (s' - s) with (Z.succ (s' - (s + 1))) by lia.
      rewrite Z.pow_succ_r by lia. lia.
    + exists d, s. repeat split; try lia.
      * rewrite Zodd_mod. pose proof (Z.mod_pos_bound d 2).
        destruct (Z.eqb_spec (d mod 2) 1); [reflexivity | lia].
      * rewrite Z.sub_diag. simpl. lia.
Qed.

Lemma es_primo_squarings_total (count : nat) :
  forall x n w, 0 < n ->
    exists b w', es_primo_squarings count x n w = (Ret b, w') /\
                 entropy w' = entropy w.
Proof.
  induction count as [| count IH]; intros x n w Hn; simpl.
  - exists false, w. split; reflexivity.
  - unfold bind. rewrite pow3_spec by lia.
    destruct (x ^ 2 mod n =? n - 1).
    + eexists _, _. split; reflexivity.
    + destruct (IH (x ^ 2 mod n) n
                  {| entropy := entropy w; pow_calls := S (pow_calls w) |} Hn)
        as (b & w' & E & Hw).
      exists b, w'. split; assumption.
Qed.

Lemma es_primo_rounds_total (count : nat) :
  forall n d s w, 3 < n -> 0 <= d ->
    exists b w', es_primo_rounds count n d s w = (Ret b, w').
Proof.
  induction count as [| count IH]; intros n d s w Hn Hd; simpl.
  - eexists _, _. reflexivity.
  - unfold bind. rewrite randint_spec by lia.
    rewrite pow3_spec by lia.
    match goal with |- context [if ?c then _ else _] => destruct c end.
    + apply IH; assumption.
    + match goal with |- context [es_primo_squarings ?c ?x ?m ?v] =>
        destruct (es_primo_squarings_total c x m v) as (b & w' & E & _);
          [lia | rewrite E]
      end.
      destruct b.
      * apply IH; assumption.
      * eexists _, _. reflexivity.
Qed.

(** C9.  [es_primo] is total and never fails: whatever [n], the number of
    rounds and the random draws, it returns a boolean (it neither raises nor
    loops).  It answers [False] for every [n <= 1] and [True] for [n] equal
    to 2 or 3, both without drawing a witness, and a call that leaves the
    number of rounds out runs with 5 rounds. *)
Theorem es_primo_total (n : Z) (k : option Z) (w : world) :
  (exists b w', es_primo n k w = (Ret b, w')) /\
  (n <= 1 -> es_primo n k w = (Ret false, w)) /\
  (2 <= n <= 3 -> es_primo n k w = (Ret true, w)) /\
  es_primo n None w = es_primo n (Some 5) w.
Proof.
  repeat split.
  - unfold es_primo.
    destruct (Z.leb_spec n 1); [eexists _, _; reflexivity |].
    destruct (Z.leb_spec n 3); [eexists _, _; reflexivity |].
    unfold bind.
    destruct (es_primo_halve_spec (S (Z.to_nat (Z.log2 (n - 1)))) (n - 1) 0 w)
      as (d & s & E & Hd & _); [lia | |].
    { pose proof (Z.log2_nonneg (n - 1)). lia. }
    rewrite E. apply es_primo_rounds_total; lia.
  - intros H. unfold es_primo.
    destruct (Z.leb_spec n 1); [reflexivity | lia].
  - intros H. unfold es_primo.
    destruct (Z.leb_spec n 1); [lia |].
    destruct (Z.leb_spec n 3); [reflexivity | lia].
Qed.

Lemma es_primo_total_witness :
  es_primo 1 (Some 7) (mundo []) = (Ret false, mundo []) /\
  es_primo 3 (Some 7) (mundo []) = (Ret true, mundo []).
Proof.
  split.
  - apply (proj1 (proj2 (es_primo_total 1 (Some 7) (mundo [])))). lia.
  - apply (proj1 (proj2 (proj2 (es_primo_total 3 (Some 7) (mundo []))))). lia.
Defined.

(* ================================================================== *)
(** ** Decrypting with keys that do not belong together *)

(** C4.  When a public key is supplied whose modulus differs from the
    private key's, [descifrar_mensaje] raises the key-mismatch error for
    every list of cipher blocks, and it has performed no modular
    exponentiation by then: the world it leaves is the one it was given, so
    the count of [pow] calls has not moved. *)
Theorem descifrar_llaves_distintas
    (cifrados : list Z) (d n e_pub n_pub : Z) (w : world) :
  n_pub <> n ->
  descifrar_mensaje cifrados (d, n) (Some (e_pub, n_pub)) w
    = (Raise KeyMismatch, w) /\
  pow_calls (snd (descifrar_mensaje cifrados (d, n) (Some (e_pub, n_pub)) w))
    = pow_calls w.
Proof.
  intros H.
  assert (E : descifrar_mensaje cifrados (d, n) (Some (e_pub, n_pub)) w
              = (Raise KeyMismatch, w)).
  { unfold descifrar_mensaje, bind.
    destruct (Z.eqb_spec n n_pub) as [-> | _]; [congruence | reflexivity]. }
  rewrite E. split; reflexivity.
Qed.

Lemma descifrar_llaves_distintas_witness :
  descifrar_mensaje [17383; 8982] (9473, 48443) (Some (65537, 48444)) (mundo [])
    = (Raise KeyMismatch, mundo []).
Proof.
  apply (proj1 (descifrar_llaves_distintas
                  [17383; 8982] 9473 48443 65537 48444 (mundo []) ltac:(lia))).
Defined.

(* ================================================================== *)
(** ** Turning a decrypted integer back into bytes *)

Lemma len_sin_ceros (b : bytes) : len (sin_ceros b) <= len b.
Proof.
  induction b as [| x b IH]; simpl sin_ceros; [lia |].
  destruct (Z_of_byte x =? 0); [rewrite len_cons |]; lia.
Qed.

(** What line 148 makes of the integer a byte string spells: the byte
    string without its leading zeros. *)
Lemma bloque_de_entero_int_from_bytes (b : bytes) :
  bloque_de_entero (int_from_bytes b) = Ret (sin_ceros b).
Proof.
  unfold bloque_de_entero, int_to_bytes.
  rewrite size_of_sin_ceros.
  pose proof (len_nonneg (sin_ceros b)) as Hl.
  pose proof (int_from_bytes_range (sin_ceros b)) as Hr.
  rewrite int_from_bytes_sin_ceros in Hr.
  destruct (Z.ltb_spec (len (sin_ceros b)) 0); [lia |].
  destruct (Z.ltb_spec (int_from_bytes b) 0); [lia |].
  destruct (Z.leb_spec (256 ^ len (sin_ceros b)) (int_from_bytes b)); [lia |].
  unfold len. rewrite Nat2Z.id, <- int_from_bytes_sin_ceros.
  now rewrite be_digits_int_from_bytes.
Qed.

Lemma int_from_bytes_onto (m : Z) :
  0 <= m -> exists b, int_from_bytes b = m.
Proof.
  intros Hm. exists (be_digits (Z.to_nat m) m).
  apply int_from_bytes_be_digits. split; [lia |].
  rewrite Z2Nat.id by lia.
  apply Z.pow_gt_lin_r; lia.
Qed.

(** C7.  For every non-negative integer [m], line 148 of
    [descifrar_mensaje] produces the minimal big-endian unsigned byte string
    of [m]: it spells [m], has [ceil(bit_length m / 8)] bytes, and no byte
    string that spells [m] is shorter; for [m = 0] it is empty.  Hence
    decoding the integer of a block [b] gives [b] without its leading zero
    bytes, which are not reconstructed. *)
Theorem bloque_de_entero_minimal :
  (forall m, 0 <= m ->
     exists b, bloque_de_entero m = Ret b /\
               len b = (bit_length m + 7) / 8 /\
               int_from_bytes b = m /\
               (forall b', int_from_bytes b' = m -> len b <= len b')) /\
  bloque_de_entero 0 = Ret [] /\
  (forall b, bloque_de_entero (int_from_bytes b) = Ret (sin_ceros b)).
Proof.
  split; [| split].
  - intros m Hm. destruct (int_from_bytes_onto m Hm) as [b0 E].
    exists (sin_ceros b0). subst m. repeat split.
    + apply bloque_de_entero_int_from_bytes.
    + symmetry. apply size_of_sin_ceros.
    + apply int_from_bytes_sin_ceros.
    + intros b' E'.
      rewrite <- size_of_sin_ceros, <- E', size_of_sin_ceros.
      apply len_sin_ceros.
  - reflexivity.
  - apply bloque_de_entero_int_from_bytes.
Qed.

Lemma bloque_de_entero_minimal_witness :
  exists b, bloque_de_entero 1841 = Ret b /\
            len b = (bit_length 1841 + 7) / 8 /\
            int_from_bytes b = 1841 /\
            (forall b', int_from_bytes b' = 1841 -> len b <= len b').
Proof.
  apply (proj1 bloque_de_entero_minimal 1841). lia.
Defined.

(* ================================================================== *)
(** ** Cutting the message into blocks *)

Lemma firstn_add {A} (a b : nat) :
  forall l : list A, firstn (a + b) l = firstn a l ++ firstn b (skipn a l).
Proof.
  induction a as [| a IH]; intros l; [reflexivity |].
  destruct l as [| x l]; simpl.
  - now rewrite firstn_nil.
  - now rewrite IH.
Qed.

(** A slice that starts at a non-negative index. *)
Lemma slice_nat {A} (l : list A) (i L : nat) :
  slice l (Z.of_nat i) (Z.of_nat i + Z.of_nat L) = firstn L (skipn i l).
Proof.
  unfold slice, clamp_index, len.
  destruct (Z.ltb_spec (Z.of_nat i) 0); [lia |].
  destruct (Z.ltb_spec (Z.of_nat i + Z.of_nat L) 0); [lia |].
  destruct (Nat.le_gt_cases i (List.length l)) as [Hi | Hi].
  - rewrite (Z.min_l (Z.of_nat i)) by lia. rewrite Nat2Z.id.
    destruct (Nat.le_gt_cases (i + L) (List.length l)) as [Hj | Hj].
    + rewrite Z.min_l by lia. f_equal. lia.
    + rewrite Z.min_r by lia.
      rewrite !firstn_all2; try reflexivity; rewrite length_skipn; lia.
  - rewrite !Z.min_r by lia. rewrite Z.sub_diag. simpl firstn.
    rewrite skipn_all2 by lia. now rewrite firstn_nil.
Qed.

Lemma concat_trozos {A} (l : list A) (L : nat) (count : nat) :
  List.concat (map (fun k => firstn L (skipn (k * L) l)) (seq 0 count))
  = firstn (count * L) l.
Proof.
  induction count as [| count IH]; [reflexivity |].
  rewrite seq_S, map_app, concat_app, IH. simpl map. simpl List.concat.
  rewrite app_nil_r.
  replace (S count * L)%nat with (count * L + L)%nat by lia.
  now rewrite firstn_add.
Qed.

(** With a positive block size the blocks are cut without error; put end to
    end they are the message bytes again, and none is longer than the block
    size. *)
Lemma bloques_de_pos (bytes_msg : bytes) (L : Z) (w : world) :
  0 < L ->
  exists bloques,
    bloques_de bytes_msg L w = (Ret bloques, w) /\
    List.concat bloques = bytes_msg /\
    Forall (fun b => len b <= L) bloques.
Proof.
  intros HL. unfold bloques_de, bind, py_range.
  destruct (Z.eqb_spec L 0); [lia |].
  destruct (Z.ltb_spec 0 L); [| lia].
  unfold ret. eexists. split; [reflexivity |].
  rewrite map_map.
  set (count := Z.to_nat ((len bytes_msg - 0 + L - 1) / L)).
  set (L' := Z.to_nat L).
  assert (EL : L = Z.of_nat L') by (subst L'; lia).
  assert (Hmap :
    map (fun k => slice bytes_msg (0 + Z.of_nat k * L) (0 + Z.of_nat k * L + L))
        (seq 0 count)
    = map (fun k => firstn L' (skipn (k * L') bytes_msg)) (seq 0 count)).
  { apply map_ext. intros k. rewrite EL.
    replace (0 + Z.of_nat k * Z.of_nat L') with (Z.of_nat (k * L')) by lia.
    apply slice_nat. }
  rewrite Hmap. split.
  - rewrite concat_trozos. apply firstn_all2.
    assert (len bytes_msg <= Z.of_nat count * L).
    { subst count. pose proof (len_nonneg bytes_msg).
      rewrite Z2Nat.id by (apply Z.div_pos; lia).
      pose proof (Z.div_mod (len bytes_msg - 0 + L - 1) L).
      pose proof (Z.mod_pos_bound (len bytes_msg - 0 + L - 1) L).
      nia. }
    unfold len in *. nia.
  - apply Forall_forall. intros b Hb.
    apply in_map_iff in Hb. destruct Hb as (k & <- & _).
    unfold len. rewrite length_firstn. lia.
Qed.

(** With a negative block size no block is produced at all. *)
Lemma bloques_de_neg (bytes_msg : bytes) (L : Z) (w : world) :
  L < 0 -> bloques_de bytes_msg L w = (Ret [], w).
Proof.
  intros HL. unfold bloques_de, bind, py_range.
  destruct (Z.eqb_spec L 0); [lia |].
  destruct (Z.ltb_spec 0 L); [lia |].
  pose proof (len_nonneg bytes_msg).
  assert (E : (0 - len bytes_msg - L - 1) / - L <= 0).
  { apply Z.lt_succ_r. apply Z.div_lt_upper_bound; lia. }
  destruct ((0 - len bytes_msg - L - 1) / - L) eqn:Eq; try lia; reflexivity.
Qed.

(* ================================================================== *)
(** ** Encrypting *)

Lemma utf8_encode_char_escalar (c : Z) :
  escalar c -> exists b, utf8_encode_char c = Ret b.
Proof.
  intros [Hr Hs]. unfold utf8_encode_char, between.
  destruct (Z.ltb_spec c 0); [lia |].
  destruct (Z.ltb_spec 0x10FFFF c); [lia |]. simpl orb.
  destruct (c <? 0x80); [eexists; reflexivity |].
  destruct (c <? 0x800); [eexists; reflexivity |].
  destruct (Z.leb_spec 0xD800 c); destruct (Z.leb_spec c 0xDFFF);
    simpl andb; try lia;
    (destruct (c <? 0x10000); eexists; reflexivity).
Qed.

(** Every text has a UTF-8 form. *)
Lemma str_encode_utf8_texto (s : pystr) :
  es_texto s -> exists b, str_encode_utf8 s = Ret b.
Proof.
  induction 1 as [| c s Hc _ IH]; simpl.
  - eexists; reflexivity.
  - destruct (utf8_encode_char_escalar c Hc) as [bc ->].
    destruct IH as [br ->]. eexists; reflexivity.
Qed.

(** What [pow] can do when the modulus is positive: return, or refuse a
    negative exponent because the base has no inverse. *)
Lemma long_pow_cases (a b c : Z) :
  0 < c ->
  (exists z, long_pow a b c = Ret z) \/
  long_pow a b c
    = Raise (ValueError "base is not invertible for the given modulus").
Proof.
  intros Hc. unfold long_pow, long_invmod.
  destruct (Z.eqb_spec c 0); [lia |].
  destruct (Z.abs c =? 1); [left; eexists; reflexivity |].
  destruct (b <? 0).
  - destruct (Z.gcd a (Z.abs c) =? 1).
    + left; eexists; reflexivity.
    + right; reflexivity.
  - left; eexists; reflexivity.
Qed.

(** When every block spells an integer below the modulus, the loop over the
    blocks can only fail inside [pow]. *)
Lemma cifrar_bloques_raise (bloques : list bytes) (e n : Z) :
  0 < n ->
  Forall (fun b => int_from_bytes b < n) bloques ->
  forall cifrados w ex w',
    cifrar_bloques bloques e n cifrados w = (Raise ex, w') ->
    ex = ValueError "base is not invertible for the given modulus".
Proof.
  intros Hn. induction 1 as [| b bloques Hb _ IH]; intros cifrados w ex w' E.
  - discriminate E.
  - simpl in E. destruct (Z.leb_spec n (int_from_bytes b)); [lia |].
    unfold bind, pow3 in E.
    destruct (long_pow_cases (int_from_bytes b) e n Hn) as [[z Ez] | Er].
    + rewrite Ez in E. eapply IH; eassumption.
    + rewrite Er in E. now inversion E.
Qed.

(** A block no longer than the block limit spells an integer below the
    modulus. *)
Lemma bloque_bajo_modulo (n : Z) (b : bytes) :
  0 <= n -> len b <= bloque_max n -> int_from_bytes b < n.
Proof.
  intros Hn Hb. unfold bloque_max in Hb.
  pose proof (len_nonneg b) as Hl.
  pose proof (int_from_bytes_range b) as Hr.
  assert (n <> 0).
  { intros ->. change (bit_length 0) with 0 in Hb. simpl in Hb. lia. }
  pose proof (bit_length_bounds n ltac:(lia)) as Hbl.
  assert (Hle : 8 * len b <= bit_length n - 1).
  { pose proof (Z.div_mod (bit_length n) 8).
    pose proof (Z.mod_pos_bound (bit_length n) 8). lia. }
  assert (256 ^ len b <= 2 ^ (bit_length n - 1)).
  { change 256 with (2 ^ 8). rewrite <- Z.pow_mul_r by lia.
    apply Z.pow_le_mono_r; lia. }
  lia.
Qed.

(** C3.  The block limit is [bit_length n // 8 - 1], which is 127 for a
    1024-bit modulus.  For a modulus [n] of at least 16 bits, every byte
    string of at most that many bytes spells an integer strictly below [n],
    so [cifrar_mensaje] never ends in the block-too-large error, whatever
    the message and the exponent. *)
Theorem tamano_de_bloque :
  (forall n, bloque_max n = bit_length n / 8 - 1) /\
  (forall n, bit_length n = 1024 -> bloque_max n = 127) /\
  (forall n b, 0 <= n -> 16 <= bit_length n ->
               len b <= bloque_max n -> int_from_bytes b < n) /\
  (forall mensaje e n w, 0 <= n -> 16 <= bit_length n ->
     fst (cifrar_mensaje mensaje (e, n) w) <> Raise BlockTooLarge).
Proof.
  split; [| split; [| split]].
  - reflexivity.
  - intros n H. unfold bloque_max. rewrite H. reflexivity.
  - intros n b Hn _ Hb. now apply bloque_bajo_modulo.
  - intros mensaje e n w Hn Hbits.
    assert (Hpos : 0 < n).
    { destruct (Z.eq_dec n 0) as [-> |]; [| lia].
      change (bit_length 0) with 0 in Hbits. lia. }
    assert (HL : 0 < bloque_max n).
    { unfold bloque_max.
      pose proof (Z.div_mod (bit_length n) 8).
      pose proof (Z.mod_pos_bound (bit_length n) 8). lia. }
    unfold cifrar_mensaje, try_except, bind, lift.
    destruct (str_encode_utf8 mensaje) as [bytes_msg | ex |] eqn:Eenc.
    + destruct (bloques_de_pos bytes_msg (bloque_max n) w HL)
        as (bloques & -> & _ & Hlen).
      assert (Hlt : Forall (fun b => int_from_bytes b < n) bloques).
      { eapply Forall_impl; [| exact Hlen].
        intros b Hb. apply bloque_bajo_modulo; [lia | exact Hb]. }
      destruct (cifrar_bloques bloques e n [] w) as [[cs | ex |] w'] eqn:Ec.
      * discriminate.
      * apply (cifrar_bloques_raise _ _ _ Hpos Hlt) in Ec. subst ex.
        unfold BlockTooLarge. simpl. discriminate.
      * discriminate.
    + unfold raise, BlockTooLarge. simpl fst.
      assert (Hex : exists m, ex = UnicodeEncodeError m /\
                              (m = "'utf-8' codec can't encode character: not a code point"
                               \/ m = "'utf-8' codec can't encode character: surrogates not allowed")%string).
      { clear - Eenc. revert ex Eenc.
        induction mensaje as [| c s IH]; intros ex E; simpl in E.
        - discriminate.
        - unfold utf8_encode_char in E.
          repeat match type of E with
                 | context [if ?c then _ else _] => destruct c
                 end;
            try (inversion E; subst; eexists; split; [reflexivity | tauto]);
            (destruct (str_encode_utf8 s) as [br | ex' |];
             [discriminate | inversion E; subst; apply IH; reflexivity
             | discriminate]). }
      destruct Hex as (m & -> & [-> | ->]); simpl; discriminate.
    + discriminate.
Qed.

Lemma tamano_de_bloque_witness :
  bloque_max (2 ^ 1023) = 127 /\
  int_from_bytes [xff; xff] < 16777216 /\
  fst (cifrar_mensaje [104; 111; 108; 97] (65537, 48443) (mundo []))
    <> Raise BlockTooLarge.
Proof.
  split; [| split].
  - apply (proj1 (proj2 tamano_de_bloque) (2 ^ 1023)). reflexivity.
  - apply (proj1 (proj2 (proj2 tamano_de_bloque)) 16777216 [xff; xff]).
    + lia.
    + vm_compute. discriminate.
    + vm_compute. discriminate.
  - apply (proj2 (proj2 (proj2 tamano_de_bloque))
             [104; 111; 108; 97] 65537 48443 (mundo [])).
    + lia.
    + vm_compute. discriminate.
Defined.

(** The error does exist: a negative modulus, which no key generation
    produces, reaches it. *)
Example cifrar_bloque_grande :
  cifrar_mensaje [65] (3, -70000) (mundo []) = (Raise BlockTooLarge, mundo []).
Proof. reflexivity. Qed.

(** C10.  A modulus of fewer than 8 bits loses the message silently: the
    block limit is negative, no block is cut from any byte string, and
    [cifrar_mensaje] returns the empty list of cipher blocks for every text,
    empty or not, without raising and without a single exponentiation. *)
Theorem cifrar_modulo_diminuto (mensaje : pystr) (e n : Z) (w : world) :
  bit_length n < 8 -> es_texto mensaje ->
  bloque_max n < 0 /\
  (forall bytes_msg, bloques_de bytes_msg (bloque_max n) w = (Ret [], w)) /\
  cifrar_mensaje mensaje (e, n) w = (Ret [], w).
Proof.
  intros Hbits Htxt.
  assert (HL : bloque_max n < 0).
  { unfold bloque_max. pose proof (bit_length_nonneg n).
    rewrite Z.div_small by lia. lia. }
  split; [exact HL | split].
  - intros bytes_msg. now apply bloques_de_neg.
  - destruct (str_encode_utf8_texto mensaje Htxt) as [bytes_msg E].
    unfold cifrar_mensaje, try_except, bind, lift. rewrite E.
    now rewrite bloques_de_neg.
Qed.

Lemma cifrar_modulo_diminuto_witness :
  cifrar_mensaje [104; 111; 108; 97] (65537, 9) (mundo []) = (Ret [], mundo []).
Proof.
  apply (cifrar_modulo_diminuto [104; 111; 108; 97] 65537 9 (mundo [])).
  - vm_compute. reflexivity.
  - repeat constructor; unfold escalar; lia.
Defined.

(* ================================================================== *)
(** ** Decrypting: the empty-result check *)

Lemma forallb_isspace_lstrip (s : pystr) :
  forallb isspace (lstrip s) = forallb isspace s.
Proof.
  induction s as [| c s IH]; [reflexivity |].
  simpl. destruct (isspace c) eqn:E; [exact IH |].
  simpl. now rewrite E.
Qed.

Lemma lstrip_nil (s : pystr) :
  truthy (lstrip s) = negb (forallb isspace s).
Proof.
  induction s as [| c s IH]; [reflexivity |].
  simpl. destruct (isspace c); [exact IH | reflexivity].
Qed.

Lemma forallb_rev {A} (f : A -> bool) (l : list A) :
  forallb f (rev l) = forallb f l.
Proof.
  induction l as [| x l IH]; [reflexivity |].
  simpl. rewrite forallb_app, IH. simpl. rewrite andb_true_r.
  apply andb_comm.
Qed.

Lemma truthy_rev {A} (l : list A) :
  match rev l with [] => false | _ :: _ => true end
  = match l with [] => false | _ :: _ => true end.
Proof.
  destruct l as [| x l]; [reflexivity |].
  simpl. destruct (rev l); reflexivity.
Qed.

(** [not s.strip()] holds exactly when [s] is empty or all whitespace. *)
Lemma truthy_strip (s : pystr) :
  truthy (strip s) = negb (forallb isspace s).
Proof.
  unfold strip, truthy. rewrite truthy_rev.
  change (truthy (lstrip (rev (lstrip s))) = negb (forallb isspace s)).
  now rewrite lstrip_nil, forallb_rev, forallb_isspace_lstrip.
Qed.

(** With a positive modulus and a non-negative exponent every list of
    cipher blocks decrypts to byte blocks. *)
Lemma descifrar_bloques_total (cifrados : list Z) (d n : Z) :
  0 <= d -> 0 < n ->
  forall bloques w,
    exists bloques' w',
      descifrar_bloques cifrados d n bloques w = (Ret bloques', w').
Proof.
  intros Hd Hn. induction cifrados as [| c cifrados IH]; intros bloques w.
  - eexists _, _. reflexivity.
  - simpl. unfold bind, lift. rewrite pow3_spec by assumption.
    pose proof (Z.mod_pos_bound (c ^ d) n Hn) as Hm.
    destruct (int_from_bytes_onto (c ^ d mod n) ltac:(lia)) as [b <-].
    rewrite bloque_de_entero_int_from_bytes. apply IH.
Qed.

(** What [descifrar_mensaje] does with the byte blocks once the key check
    has passed. *)
Lemma descifrar_mensaje_bloques
    (cifrados : list Z) (d n : Z) (publica : option clave)
    (w w1 : world) (bloques : list bytes) :
  match publica with Some (_, n_pub) => n_pub = n | None => True end ->
  descifrar_bloques cifrados d n [] w = (Ret bloques, w1) ->
  descifrar_mensaje cifrados (d, n) publica w
  = (if forallb isspace (bytes_decode_utf8_replace (List.concat bloques))
     then Raise EmptyResult
     else Ret (bytes_decode_utf8_replace (List.concat bloques)), w1).
Proof.
  intros Hkey Hb.
  assert (E : descifrar_mensaje cifrados (d, n) publica w
              = try_except
                  (bloques <- descifrar_bloques cifrados d n [] ;;
                   let mensaje := bytes_decode_utf8_replace (List.concat bloques) in
                   if negb (truthy (strip mensaje)) then
                     raise (ValueError "Resultado vacío - probablemente las llaves son incorrectas")
                   else ret mensaje)
                  (fun ex => raise (ValueError ("Error al descifrar: " ++ str_exn ex
                                                ++ " - ¿Las llaves no coinciden?"))) w).
  { unfold descifrar_mensaje. destruct publica as [[e_pub n_pub] |].
    - subst n_pub. unfold bind at 1. rewrite Z.eqb_refl. reflexivity.
    - reflexivity. }
  rewrite E. unfold try_except, bind. rewrite Hb. cbv zeta.
  rewrite truthy_strip, negb_involutive.
  destruct (forallb isspace (bytes_decode_utf8_replace (List.concat bloques)));
    reflexivity.
Qed.

(** C6.  Once the key check has passed and the cipher blocks have been
    turned into byte blocks, [descifrar_mensaje] decodes their concatenation
    as UTF-8 with replacement; it fails with the empty-result error exactly
    when that text is empty or all whitespace, and returns the text in
    every other case. *)
Theorem descifrar_resultado_vacio
    (cifrados : list Z) (d n : Z) (publica : option clave)
    (w w1 : world) (bloques : list bytes) :
  match publica with Some (_, n_pub) => n_pub = n | None => True end ->
  descifrar_bloques cifrados d n [] w = (Ret bloques, w1) ->
  descifrar_mensaje cifrados (d, n) publica w
  = (if forallb isspace (bytes_decode_utf8_replace (List.concat bloques))
     then Raise EmptyResult
     else Ret (bytes_decode_utf8_replace (List.concat bloques)), w1).
Proof. exact (descifrar_mensaje_bloques cifrados d n publica w w1 bloques). Qed.

Lemma descifrar_resultado_vacio_witness :
  descifrar_mensaje [5000] (9473, 48443) (Some (65537, 48443)) (mundo [])
    = (Raise EmptyResult, {| entropy := entropy (mundo []); pow_calls := 1 |}) /\
  descifrar_mensaje [17667] (9473, 48443) None (mundo [])
    = (Ret [104], {| entropy := entropy (mundo []); pow_calls := 1 |}).
Proof.
  split.
  - apply (descifrar_resultado_vacio [5000] 9473 48443 (Some (65537, 48443))
             (mundo []) {| entropy := entropy (mundo []); pow_calls := 1 |}
             [[x20]]); reflexivity.
  - apply (descifrar_resultado_vacio [17667] 9473 48443 None
             (mundo []) {| entropy := entropy (mundo []); pow_calls := 1 |}
             [[x68]]); [exact I | reflexivity].
Defined.

(* ================================================================== *)
(** ** Generating primes *)

(** The candidate built from a raw draw: its top and bottom bits are set. *)
Lemma candidato_forma (bits r : Z) :
  1 <= bits ->
  let p := Z.lor (r mod 2 ^ bits) (Z.lor (2 ^ (bits - 1)) 1) in
  Z.odd p = true /\ bit_length p = bits /\ Z.testbit p (bits - 1) = true.
Proof.
  intros Hb p.
  assert (Hpow : 0 < 2 ^ bits) by (apply Z.pow_pos_nonneg; lia).
  pose proof (Z.mod_pos_bound r (2 ^ bits) Hpow) as Hr.
  assert (Hhi : 0 < 2 ^ (bits - 1)) by (apply Z.pow_pos_nonneg; lia).
  assert (Hodd : Z.odd p = true).
  { subst p. rewrite <- !Z.bit0_odd, !Z.lor_spec.
    change (Z.testbit 1 0) with true. now rewrite !orb_true_r. }
  assert (Hnn : 0 <= p).
  { subst p. apply Z.lor_nonneg. split; [lia |].
    apply Z.lor_nonneg. lia. }
  assert (Hlog : Z.log2 p = bits - 1).
  { subst p. rewrite !Z.log2_lor; try lia.
    2:{ apply Z.lor_nonneg. lia. }
    rewrite Z.log2_pow2 by lia. change (Z.log2 1) with 0.
    assert (Z.log2 (r mod 2 ^ bits) < bits).
    { destruct (Z.eq_dec (r mod 2 ^ bits) 0) as [-> | Hnz].
      - change (Z.log2 0) with 0. lia.
      - apply Z.log2_lt_pow2; lia. }
    lia. }
  repeat split.
  - exact Hodd.
  - unfold bit_length.
    destruct (Z.eqb_spec p 0) as [E | _].
    + rewrite E in Hodd. discriminate.
    + rewrite Z.abs_eq by lia. lia.
  - subst p. rewrite !Z.lor_spec, Z.pow2_bits_true by lia.
    now rewrite orb_true_r.
Qed.

(** Whatever the loop returns was built that way and passed the test. *)
Lemma generar_primo_loop_inv (fuel : nat) :
  forall bits w p w',
    generar_primo_loop fuel bits w = (Ret p, w') ->
    1 <= bits /\ Z.odd p = true /\ bit_length p = bits /\
    Z.testbit p (bits - 1) = true /\
    exists w1, es_primo p None w1 = (Ret true, w').
Proof.
  induction fuel as [| fuel IH]; intros bits w p w' E; [discriminate E |].
  simpl in E. unfold bind, getrandbits, lshift in E.
  destruct (Z.ltb_spec bits 0); [discriminate E |].
  destruct (Z.eqb_spec bits 0) as [-> | Hnz]; [discriminate E |].
  unfold bind, draw, ret in E.
  destruct (Z.ltb_spec (bits - 1) 0); [lia |].
  rewrite Z.shiftl_1_l in E.
  match type of E with
  | context [es_primo ?c None ?v] =>
      destruct (es_primo c None v) as [[[] | ex |] w2] eqn:Ep; try discriminate E
  end.
  - inversion E; subst p w'.
    destruct (candidato_forma bits (entropy w 0%nat) ltac:(lia))
      as (Ho & Hl & Ht).
    repeat split; try assumption; try lia.
    eexists. exact Ep.
  - eapply IH. exact E.
Qed.

(** C8.  For every bit length of at least 1, whatever [generar_primo]
    returns is odd, has exactly that many bits with the top bit set, and is
    a number that [es_primo] (with its default 5 rounds) accepted just
    before the return. *)
Theorem generar_primo_forma (fuel : nat) (bits : Z) (w w' : world) (p : Z) :
  1 <= bits ->
  generar_primo fuel (Some bits) w = (Ret p, w') ->
  Z.odd p = true /\ bit_length p = bits /\ Z.testbit p (bits - 1) = true /\
  exists w1, es_primo p None w1 = (Ret true, w').
Proof.
  intros _ E. unfold generar_primo in E.
  apply generar_primo_loop_inv in E. tauto.
Qed.

(** With a bit length of 1 the only candidate is 1, which [es_primo]
    rejects: the loop never returns, whatever the fuel. *)
Lemma generar_primo_un_bit (fuel : nat) :
  forall w, fst (generar_primo fuel (Some 1) w) = Diverge.
Proof.
  unfold generar_primo.
  induction fuel as [| fuel IH]; intros w; [reflexivity |].
  cbn [generar_primo_loop]. unfold bind, getrandbits, lshift.
  change (1 <? 0) with false. change (1 =? 0) with false.
  change (1 - 1 <? 0) with false. cbv iota.
  unfold bind, draw, ret.
  assert (E : Z.lor (entropy w 0%nat mod 2 ^ 1) (Z.lor (Z.shiftl 1 (1 - 1)) 1) = 1).
  { pose proof (Z.mod_pos_bound (entropy w 0%nat) (2 ^ 1) ltac:(lia)) as Hr.
    change (2 ^ 1) with 2 in *.
    assert (Hc : entropy w 0%nat mod 2 = 0 \/ entropy w 0%nat mod 2 = 1) by lia.
    destruct Hc as [-> | ->]; reflexivity. }
  rewrite E. apply IH.
Qed.

Lemma generar_primo_forma_witness :
  Z.odd 193 = true /\ bit_length 193 = 8 /\ Z.testbit 193 (8 - 1) = true /\
  exists w1, es_primo 193 None w1
             = (Ret true, snd (generar_primo 3 (Some 8) (mundo [64]))).
Proof.
  apply (generar_primo_forma 3 8 (mundo [64])
           (snd (generar_primo 3 (Some 8) (mundo [64]))) 193).
  - lia.
  - vm_compute. reflexivity.
Defined.

(* ================================================================== *)
(** ** Generating keys *)

Lemma generar_claves_e_inv (fuel : nat) (phi : Z) :
  forall e0 w e w',
    generar_claves_e fuel phi e0 w = (Ret e, w') ->
    Z.gcd e phi = 1 /\
    (Z.gcd e0 phi = 1 -> e = e0) /\
    (e = e0 \/ 2 <= e <= phi - 1).
Proof.
  induction fuel as [| fuel IH]; intros e0 w e w' E; [discriminate E |].
  simpl in E. destruct (Z.eqb_spec (Z.gcd e0 phi) 1) as [Hg | Hg]; simpl in E.
  - inversion E; subst. tauto.
  - unfold bind, randint in E.
    destruct (Z.ltb_spec (phi - 1) 2); [discriminate E |].
    unfold bind, draw, ret in E.
    apply IH in E. destruct E as (H1 & _ & H3).
    split; [exact H1 | split; [tauto |]].
    right. destruct H3 as [-> | H3]; [| exact H3].
    pose proof (Z.mod_pos_bound (entropy w 0%nat) (phi - 1 - 2 + 1)). lia.
Qed.

(** What accepting a number tells about it. *)
Lemma es_primo_true_gt_1 (p : Z) (k : option Z) (w w' : world) :
  es_primo p k w = (Ret true, w') -> 1 < p.
Proof.
  unfold es_primo. destruct (Z.leb_spec p 1); [discriminate | lia].
Qed.

(** The inverse [pow(e, -1, phi)] returns. *)
Lemma pow3_inverse (e phi : Z) (w : world) :
  2 <= phi -> Z.gcd e phi = 1 ->
  pow3 e (-1) phi w
  = (Ret (Z.invmod e phi),
     {| entropy := entropy w; pow_calls := S (pow_calls w) |}).
Proof.
  intros Hphi Hg. unfold pow3, long_pow, long_invmod.
  destruct (Z.eqb_spec phi 0); [lia |].
  destruct (Z.ltb_spec phi 0); [lia |].
  rewrite Z.abs_eq by lia.
  destruct (Z.eqb_spec phi 1); [lia |].
  change (-1 <? 0) with true. cbv iota.
  rewrite Hg. change (1 =? 1) with true. cbv iota.
  change (Z.abs (-1)) with 1. simpl modpow.
  now rewrite Z.mod_invmod.
Qed.

(** Everything [generar_claves] has done by the time it returns. *)
Lemma generar_claves_inv (fuel : nat) (bits : option Z) (w w' : world)
    (publica privada : clave) :
  generar_claves fuel bits w = (Ret (publica, privada), w') ->
  let b := match bits with Some b => b | None => 1024 end in
  exists p q e w1 w2,
    generar_primo fuel (Some (b / 2)) w = (Ret p, w1) /\
    generar_primo fuel (Some (b / 2)) w1 = (Ret q, w2) /\
    3 <= p /\ 3 <= q /\
    publica = (e, p * q) /\
    privada = (Z.invmod e ((p - 1) * (q - 1)), p * q) /\
    Z.gcd e ((p - 1) * (q - 1)) = 1 /\
    (Z.gcd 65537 ((p - 1) * (q - 1)) = 1 -> e = 65537) /\
    2 <= e.
Proof.
  intros E b. unfold generar_claves in E. fold b in E.
  unfold bind at 1 in E.
  destruct (generar_primo fuel (Some (b / 2)) w) as [[p | ex |] w1] eqn:Ep;
    try discriminate E.
  unfold bind at 1 in E.
  destruct (generar_primo fuel (Some (b / 2)) w1) as [[q | ex |] w2] eqn:Eq;
    try discriminate E.
  cbv zeta in E. unfold bind at 1 in E.
  destruct (generar_claves_e fuel ((p - 1) * (q - 1)) 65537 w2)
    as [[e | ex |] w3] eqn:Ee; try discriminate E.
  pose proof Ep as Hp. pose proof Eq as Hq.
  apply generar_primo_loop_inv in Hp. apply generar_primo_loop_inv in Hq.
  destruct Hp as (_ & Hpo & _ & _ & wp & Hpa).
  destruct Hq as (_ & Hqo & _ & _ & wq & Hqa).
  apply es_primo_true_gt_1 in Hpa. apply es_primo_true_gt_1 in Hqa.
  assert (3 <= p).
  { destruct (Z.eq_dec p 2) as [-> |]; [discriminate Hpo | lia]. }
  assert (3 <= q).
  { destruct (Z.eq_dec q 2) as [-> |]; [discriminate Hqo | lia]. }
  apply generar_claves_e_inv in Ee. destruct Ee as (Hg & Hdef & Hrange).
  unfold bind in E. rewrite pow3_inverse in E by (try assumption; nia).
  inversion E; subst publica privada w'.
  exists p, q, e, w1, w2. repeat split; try assumption; try reflexivity.
  destruct Hrange as [-> | ?]; lia.
Qed.

(** Two returns are equal only for equal values. *)
Lemma Ret_inj {A} (a b : A) : Ret a = Ret b -> a = b.
Proof. now intros [= ->]. Qed.

(** The loop that looks for [e] returns the first candidate coprime with
    [phi], if one comes while the loop may still run. *)
Lemma generar_claves_e_cuando (fuel : nat) (phi : Z) :
  forall e0 w e w',
    generar_claves_e fuel phi e0 w = (Ret e, w') <->
    exists j,
      (j < fuel)%nat /\
      (forall i, (i < j)%nat -> Z.gcd (candidato_e phi e0 w i) phi <> 1) /\
      Z.gcd (candidato_e phi e0 w j) phi = 1 /\
      (j = 0%nat \/ 3 <= phi) /\
      e = candidato_e phi e0 w j /\
      w' = {| entropy := fun i => entropy w (j + i)%nat;
              pow_calls := pow_calls w |}.
Proof.
  induction fuel as [| fuel IH]; intros e0 w e w'.
  { split; [discriminate | intros (j & Hj & _); lia]. }
  cbn [generar_claves_e].
  destruct (Z.eqb_spec (Z.gcd e0 phi) 1) as [Hg | Hg]; cbn [negb].
  - split.
    + unfold ret. intros E. apply pair_equal_spec in E. destruct E as [E <-].
      apply Ret_inj in E. subst e.
      exists 0%nat.
      split; [lia |]. split; [intros; lia |]. split; [exact Hg |].
      split; [left; reflexivity |]. split; [reflexivity |].
      destruct w; reflexivity.
    + intros (j & _ & Hantes & _ & _ & -> & ->).
      destruct j as [| j].
      * destruct w; reflexivity.
      * exfalso. apply (Hantes 0%nat); [lia | exact Hg].
  - unfold bind at 1. unfold randint.
    destruct (Z.ltb_spec (phi - 1) 2) as [Hphi | Hphi].
    + split; [discriminate |].
      intros (j & _ & _ & Hgj & Hp & _).
      destruct j as [| j]; [contradiction | destruct Hp; [discriminate | lia]].
    + unfold bind, draw, ret.
      replace (phi - 1 - 2 + 1) with (phi - 2) by lia.
      rewrite IH. clear IH.
      set (w1 := {| entropy := fun i => entropy w (S i);
                    pow_calls := pow_calls w |}).
      assert (Hc : forall i,
                 candidato_e phi (2 + entropy w 0%nat mod (phi - 2)) w1 i
                 = candidato_e phi e0 w (S i)).
      { intros [| i]; reflexivity. }
      split.
      * intros (j & Hj & Hantes & Hgj & _ & -> & ->).
        exists (S j).
        split; [lia |]. split.
        { intros [| i] Hi; [exact Hg |].
          rewrite <- Hc. apply Hantes. lia. }
        split; [rewrite <- Hc; exact Hgj |].
        split; [right; lia |].
        split; [apply Hc | reflexivity].
      * intros (j & Hj & Hantes & Hgj & _ & -> & ->).
        destruct j as [| j]; [contradiction |].
        exists j.
        split; [lia |]. split.
        { intros i Hi. rewrite Hc. apply Hantes. lia. }
        split; [rewrite Hc; exact Hgj |].
        split; [right; lia |].
        split; [symmetry; apply Hc | reflexivity].
Qed.

(** C2.  What [generar_claves] does, both ways.  When it returns, the two
    keys carry the same modulus [n = p * q], where [p] and [q] are the
    numbers the two calls of [generar_primo] returned, each accepted by
    [es_primo]; with [phi = (p - 1) * (q - 1)], the public exponent [e] is
    the first of 65537 and the values drawn from [2 .. phi - 1] that is
    coprime with [phi], and the private exponent [d] is the inverse of [e]
    modulo [phi]: [0 < d < phi] and [e * d] is 1 modulo [phi].  Conversely,
    once both calls of [generar_primo] return and a candidate coprime with
    [phi] comes while the loop may still run, [generar_claves] returns
    exactly that key pair. *)
Theorem generar_claves_correcto (fuel : nat) (bits : option Z) (w : world) :
  let b := match bits with Some b => b | None => 1024 end in
  (forall publica privada w',
   generar_claves fuel bits w = (Ret (publica, privada), w') ->
   exists p q w1 w2 j e d,
     generar_primo fuel (Some (b / 2)) w = (Ret p, w1) /\
     generar_primo fuel (Some (b / 2)) w1 = (Ret q, w2) /\
     (exists v, es_primo p None v = (Ret true, w1)) /\
     (exists v, es_primo q None v = (Ret true, w2)) /\
     (j < fuel)%nat /\
     (forall i, (i < j)%nat ->
        Z.gcd (candidato_e ((p - 1) * (q - 1)) 65537 w2 i)
              ((p - 1) * (q - 1)) <> 1) /\
     e = candidato_e ((p - 1) * (q - 1)) 65537 w2 j /\
     Z.gcd e ((p - 1) * (q - 1)) = 1 /\
     0 < d < (p - 1) * (q - 1) /\
     (e * d) mod ((p - 1) * (q - 1)) = 1 /\
     publica = (e, p * q) /\ privada = (d, p * q)) /\
  (forall p q w1 w2 j,
     generar_primo fuel (Some (b / 2)) w = (Ret p, w1) ->
     generar_primo fuel (Some (b / 2)) w1 = (Ret q, w2) ->
     (j < fuel)%nat ->
     (forall i, (i < j)%nat ->
        Z.gcd (candidato_e ((p - 1) * (q - 1)) 65537 w2 i)
              ((p - 1) * (q - 1)) <> 1) ->
     Z.gcd (candidato_e ((p - 1) * (q - 1)) 65537 w2 j)
           ((p - 1) * (q - 1)) = 1 ->
     exists d,
       generar_claves fuel bits w
       = (Ret ((candidato_e ((p - 1) * (q - 1)) 65537 w2 j, p * q),
               (d, p * q)),
          {| entropy := fun i => entropy w2 (j + i)%nat;
             pow_calls := S (pow_calls w2) |}) /\
       0 < d < (p - 1) * (q - 1) /\
       (candidato_e ((p - 1) * (q - 1)) 65537 w2 j * d)
         mod ((p - 1) * (q - 1)) = 1).
Proof.
  intros b.
  assert (Hinv : forall e phi, 2 <= phi -> Z.gcd e phi = 1 ->
                   0 < Z.invmod e phi < phi /\ (e * Z.invmod e phi) mod phi = 1).
  { intros e phi Hphi Hg.
    pose proof (Z.invmod_coprime e phi Hphi Hg) as Hi.
    pose proof (Z.mod_pos_bound (Z.invmod e phi) phi ltac:(lia)) as Hb.
    rewrite Z.mod_invmod in Hb.
    split; [| rewrite Z.mul_comm; exact Hi].
    destruct (Z.eq_dec (Z.invmod e phi) 0) as [E0 |]; [| lia].
    rewrite E0, Z.mul_0_l, Z.mod_0_l in Hi by lia. discriminate Hi. }
  assert (Hprimo : forall x v v', generar_primo fuel (Some (b / 2)) v = (Ret x, v') ->
                     3 <= x /\ exists v0, es_primo x None v0 = (Ret true, v')).
  { intros x v v' E. unfold generar_primo in E.
    apply generar_primo_loop_inv in E.
    destruct E as (_ & Ho & _ & _ & v0 & Ev).
    split; [| exists v0; exact Ev].
    pose proof (es_primo_true_gt_1 x None v0 v' Ev).
    destruct (Z.eq_dec x 2) as [-> |]; [discriminate Ho | lia]. }
  split.
  - intros publica privada w' E. unfold generar_claves in E. fold b in E.
    unfold bind at 1 in E.
    destruct (generar_primo fuel (Some (b / 2)) w) as [[p | ex |] w1] eqn:Ep;
      try discriminate E.
    unfold bind at 1 in E.
    destruct (generar_primo fuel (Some (b / 2)) w1) as [[q | ex |] w2] eqn:Eq;
      try discriminate E.
    cbv zeta in E. unfold bind at 1 in E.
    destruct (generar_claves_e fuel ((p - 1) * (q - 1)) 65537 w2)
      as [[e | ex |] w3] eqn:Ee; try discriminate E.
    destruct (Hprimo p w w1 Ep) as [Hp3 Hpa].
    destruct (Hprimo q w1 w2 Eq) as [Hq3 Hqa].
    apply generar_claves_e_cuando in Ee.
    destruct Ee as (j & Hj & Hantes & Hgj & _ & He & Hw3).
    assert (Hphi : 2 <= (p - 1) * (q - 1)) by nia.
    rewrite <- He in Hgj.
    unfold bind in E. rewrite pow3_inverse in E by assumption.
    unfold ret in E. apply pair_equal_spec in E. destruct E as [E _].
    apply Ret_inj in E. apply pair_equal_spec in E. destruct E as [<- <-].
    destruct (Hinv e _ Hphi Hgj) as [Hd Hed].
    exists p, q, w1, w2, j, e, (Z.invmod e ((p - 1) * (q - 1))).
    repeat split; try assumption; try lia.
  - intros p q w1 w2 j Ep Eq Hj Hantes Hgj.
    destruct (Hprimo p w w1 Ep) as [Hp3 _].
    destruct (Hprimo q w1 w2 Eq) as [Hq3 _].
    assert (Hphi : 2 <= (p - 1) * (q - 1)) by nia.
    destruct (Hinv _ _ Hphi Hgj) as [Hd Hed].
    exists (Z.invmod (candidato_e ((p - 1) * (q - 1)) 65537 w2 j)
              ((p - 1) * (q - 1))).
    split; [| split; assumption].
    unfold generar_claves. fold b.
    unfold bind at 1. rewrite Ep. unfold bind at 1. rewrite Eq.
    cbv zeta. unfold bind at 1.
    rewrite (proj2 (generar_claves_e_cuando fuel ((p - 1) * (q - 1)) 65537 w2
                      (candidato_e ((p - 1) * (q - 1)) 65537 w2 j)
                      {| entropy := fun i => entropy w2 (j + i)%nat;
                         pow_calls := pow_calls w2 |})).
    + unfold bind. rewrite pow3_inverse by assumption. reflexivity.
    + exists j. repeat split; try assumption.
      right. nia.
Qed.

Lemma generar_claves_correcto_witness :
  exists d,
    fst (generar_claves 3 (Some 40)
           (mundo [917519; 0; 0; 0; 0; 0; 524309; 0; 0; 0; 0; 0; 0; 63]))
    = Ret ((65, 917519 * 524309), (d, 917519 * 524309)) /\
    0 < d < (917519 - 1) * (524309 - 1) /\
    (65 * d) mod ((917519 - 1) * (524309 - 1)) = 1.
Proof.
  pose (w := mundo [917519; 0; 0; 0; 0; 0; 524309; 0; 0; 0; 0; 0; 0; 63]).
  pose (w1 := snd (generar_primo 3 (Some (40 / 2)) w)).
  pose (w2 := snd (generar_primo 3 (Some (40 / 2)) w1)).
  destruct (proj2 (generar_claves_correcto 3 (Some 40) w)
              917519 524309 w1 w2 2%nat) as (d & E & Hd & He).
  - vm_compute. reflexivity.
  - vm_compute. reflexivity.
  - lia.
  - intros [| [| i]] Hi; [vm_compute; discriminate | vm_compute; discriminate | lia].
  - vm_compute. reflexivity.
  - exists d. split; [| split; assumption].
    fold w. rewrite E. reflexivity.
Defined.

(* ================================================================== *)
(** ** What the Miller-Rabin rounds decide *)

Lemma es_primo_halve_mundo (fuel : nat) :
  forall d s w w0,
    es_primo_halve fuel d s w = (fst (es_primo_halve fuel d s w0), w).
Proof.
  induction fuel as [| fuel IH]; intros d s w w0; simpl.
  - reflexivity.
  - destruct (d mod 2 =? 0); [apply IH | reflexivity].
Qed.

Lemma descomponer_spec (n : Z) (w : world) :
  3 < n ->
  exists d s,
    descomponer n = (d, s) /\
    es_primo_halve (S (Z.to_nat (Z.log2 (n - 1)))) (n - 1) 0 w = (Ret (d, s), w) /\
    0 < d /\ Z.odd d = true /\ 0 <= s /\ n - 1 = d * 2 ^ s.
Proof.
  intros Hn.
  assert (Hf : Z.log2 (n - 1) < Z.of_nat (S (Z.to_nat (Z.log2 (n - 1))))).
  { pose proof (Z.log2_nonneg (n - 1)). lia. }
  destruct (es_primo_halve_spec _ (n - 1) 0 w ltac:(lia) Hf)
    as (d & s & E & Hd & Ho & Hs & Hm).
  exists d, s. rewrite Z.sub_0_r in Hm.
  repeat split; try assumption.
  unfold descomponer.
  rewrite (es_primo_halve_mundo _ _ _ _ w). rewrite E. reflexivity.
Qed.

(** From 4 on, [es_primo] is its rounds run on the decomposition. *)
Lemma es_primo_rondas (n : Z) (k : option Z) (w : world) :
  3 < n ->
  es_primo n k w
  = es_primo_rounds (Z.to_nat (match k with Some k => k | None => 5 end))
      n (fst (descomponer n)) (snd (descomponer n)) w.
Proof.
  intros Hn. unfold es_primo.
  destruct (Z.leb_spec n 1); [lia |].
  destruct (Z.leb_spec n 3); [lia |].
  destruct (descomponer_spec n w Hn) as (d & s & -> & E & _).
  unfold bind. rewrite E. reflexivity.
Qed.

Lemma es_primo_squarings_spec (count : nat) :
  forall x n w, 0 < n ->
    exists w', es_primo_squarings count x n w = (Ret (cuadrados count x n), w') /\
               entropy w' = entropy w.
Proof.
  induction count as [| count IH]; intros x n w Hn;
    cbn [es_primo_squarings cuadrados].
  - exists w. split; reflexivity.
  - unfold bind. rewrite pow3_spec by lia.
    rewrite modpow_spec by lia.
    destruct (x ^ 2 mod n =? n - 1).
    + eexists. split; reflexivity.
    + destruct (IH (x ^ 2 mod n) n
                  {| entropy := entropy w; pow_calls := S (pow_calls w) |} Hn)
        as (w' & E & Hw).
      exists w'. split; assumption.
Qed.

(** One round: it draws [testigo n w 0]; the test goes on when the round
    passes and answers [False] at once when it does not. *)
Lemma es_primo_rounds_step (count : nat) (n d s : Z) (w : world) :
  3 < n -> 0 <= d ->
  exists w1,
    entropy w1 = (fun i => entropy w (S i)) /\
    es_primo_rounds (S count) n d s w
    = if ronda n d s (testigo n w 0)
      then es_primo_rounds count n d s w1
      else (Ret false, w1).
Proof.
  intros Hn Hd. simpl es_primo_rounds. unfold bind.
  rewrite randint_spec by lia. rewrite pow3_spec by lia.
  unfold ronda, testigo. rewrite modpow_spec by lia.
  replace (n - 2 - 2 + 1) with (n - 3) by lia.
  set (x := (2 + entropy w 0%nat mod (n - 3)) ^ d mod n).
  destruct ((x =? 1) || (x =? n - 1)).
  - eexists. split; [| reflexivity]. reflexivity.
  - match goal with |- context [es_primo_squarings ?c x n ?v] =>
      destruct (es_primo_squarings_spec c x n v ltac:(lia)) as (w' & E & Hw);
        rewrite E
    end.
    exists w'. split; [exact Hw |].
    destruct (cuadrados (Z.to_nat (s - 1)) x n); reflexivity.
Qed.

Lemma testigo_rango (n : Z) (w : world) (i : nat) :
  3 < n -> 2 <= testigo n w i <= n - 2.
Proof.
  intros Hn. unfold testigo.
  pose proof (Z.mod_pos_bound (entropy w i) (n - 3)). lia.
Qed.

(** When every possible witness passes, the answer is [True]. *)
Lemma es_primo_rounds_todos (n d s : Z) :
  3 < n -> 0 <= d ->
  (forall a, 2 <= a <= n - 2 -> ronda n d s a = true) ->
  forall count w, fst (es_primo_rounds count n d s w) = Ret true.
Proof.
  intros Hn Hd Hall. induction count as [| count IH]; intros w.
  - reflexivity.
  - destruct (es_primo_rounds_step count n d s w Hn Hd) as (w1 & _ & ->).
    rewrite Hall by (apply testigo_rango; exact Hn). apply IH.
Qed.

(** When the witness of one of the rounds fails, the answer is [False]. *)
Lemma es_primo_rounds_alguno (n d s : Z) :
  3 < n -> 0 <= d ->
  forall count w i,
    (i < count)%nat -> ronda n d s (testigo n w i) = false ->
    fst (es_primo_rounds count n d s w) = Ret false.
Proof.
  intros Hn Hd. induction count as [| count IH]; intros w i Hi Hr; [lia |].
  destruct (es_primo_rounds_step count n d s w Hn Hd) as (w1 & Hw1 & ->).
  destruct (ronda n d s (testigo n w 0)) eqn:E0; [| reflexivity].
  destruct i as [| i]; [congruence |].
  apply (IH w1 i); [lia |].
  unfold testigo in *. rewrite Hw1. exact Hr.
Qed.

(** *** Primes pass every round *)

(** Modulo a prime, 1 has the two square roots 1 and -1 only. *)
Lemma raiz_de_uno (n x : Z) :
  Z.prime n -> 0 <= x < n -> x ^ 2 mod n = 1 -> x = 1 \/ x = n - 1.
Proof.
  intros Hp Hx H.
  pose proof (Z.prime_ge_2 n Hp) as Hn.
  assert (Hd : (n | (x - 1) * (x + 1))).
  { exists (x ^ 2 / n). pose proof (Z.div_mod (x ^ 2) n). nia. }
  apply Z.divide_prime_mul in Hd; [| exact Hp].
  destruct Hd as [[q Hq] | [q Hq]].
  - left. assert (q = 0) by nia. lia.
  - right. assert (q = 1) by nia. lia.
Qed.

Lemma cuadrados_primo (n : Z) :
  Z.prime n -> 2 < n ->
  forall t x,
    0 <= x < n -> x ^ (2 ^ Z.of_nat (S t)) mod n = 1 ->
    x = 1 \/ x = n - 1 \/ cuadrados t x n = true.
Proof.
  intros Hp Hn. induction t as [| t IH]; intros x Hx H.
  - change (2 ^ Z.of_nat 1) with 2 in H.
    destruct (raiz_de_uno n x Hp Hx H); tauto.
  - cbn [cuadrados]. rewrite modpow_spec by lia.
    assert (Hy : 0 <= x ^ 2 mod n < n) by (apply Z.mod_pos_bound; lia).
    assert (H' : (x ^ 2 mod n) ^ (2 ^ Z.of_nat (S t)) mod n = 1).
    { rewrite Z.mod_pow_l, <- Z.pow_mul_r by lia.
      replace (2 * 2 ^ Z.of_nat (S t)) with (2 ^ Z.of_nat (S (S t))); [exact H |].
      rewrite (Nat2Z.inj_succ (S t)), Z.pow_succ_r by lia. reflexivity. }
    destruct (IH (x ^ 2 mod n) Hy H') as [E | [E | E]].
    + destruct (raiz_de_uno n x Hp Hx E); tauto.
    + right; right. rewrite E, Z.eqb_refl. reflexivity.
    + right; right. rewrite E. apply orb_true_r.
Qed.

(** A prime passes the round of every witness in [2 .. n - 2]. *)
Lemma ronda_primo (n a : Z) :
  Z.prime n -> 3 < n -> 2 <= a <= n - 2 ->
  ronda n (fst (descomponer n)) (snd (descomponer n)) a = true.
Proof.
  intros Hp Hn Ha.
  destruct (descomponer_spec n {| entropy := fun _ => 0; pow_calls := 0 |} Hn)
    as (d & s & -> & _ & Hd & Hodd & Hs & Hm).
  cbn [fst snd].
  assert (Hs1 : 1 <= s).
  { destruct (Z.eq_dec s 0) as [-> |]; [| lia].
    rewrite Z.pow_0_r, Z.mul_1_r in Hm.
    assert (Hdiv : (2 | n)).
    { exists ((d + 1) / 2). rewrite Zodd_mod in Hodd.
      apply Z.eqb_eq in Hodd.
      pose proof (Z.div_mod d 2). pose proof (Z.div_mod (d + 1) 2).
      assert ((d + 1) mod 2 = 0).
      { rewrite <- Zplus_mod_idemp_l, Hodd. reflexivity. }
      lia. }
    apply Z.divide_prime_r in Hdiv; [lia | exact Hp]. }
  unfold ronda. rewrite modpow_spec by lia.
  set (x := a ^ d mod n).
  assert (Hx : 0 <= x < n) by (apply Z.mod_pos_bound; lia).
  assert (Hf : x ^ (2 ^ Z.of_nat (S (Z.to_nat (s - 1)))) mod n = 1).
  { replace (Z.of_nat (S (Z.to_nat (s - 1)))) with s by lia.
    subst x. rewrite Z.mod_pow_l, <- Z.pow_mul_r, <- Hm
      by (try apply Z.pow_nonneg; lia).
    apply Z.fermat_nz; [exact Hp |].
    rewrite Z.mod_small by lia. lia. }
  destruct (cuadrados_primo n Hp ltac:(lia) _ x Hx Hf) as [E | [E | E]].
  - rewrite E. reflexivity.
  - rewrite E, Z.eqb_refl, orb_true_r. reflexivity.
  - rewrite E. destruct ((x =? 1) || (x =? n - 1)); reflexivity.
Qed.

(** [es_primo] accepts every prime, whatever the rounds and the draws. *)
Lemma es_primo_acepta_primos (n : Z) (k : option Z) (w : world) :
  Z.prime n -> fst (es_primo n k w) = Ret true.
Proof.
  intros Hp. pose proof (Z.prime_ge_2 n Hp) as Hn.
  destruct (Z_le_gt_dec n 3) as [Hs | Hb].
  - unfold es_primo.
    destruct (Z.leb_spec n 1); [lia |].
    destruct (Z.leb_spec n 3); [reflexivity | lia].
  - rewrite es_primo_rondas by lia.
    destruct (descomponer_spec n w ltac:(lia))
      as (d & s & E & _ & Hd & _).
    apply es_primo_rounds_todos; [lia | rewrite E; simpl; lia |].
    intros a Ha. apply ronda_primo; [exact Hp | lia | exact Ha].
Qed.

(** *** Composites below 10000 have a witness that exposes them *)

Lemma in_desde (lo x : Z) (count : nat) :
  lo <= x < lo + Z.of_nat count -> In x (desde lo count).
Proof.
  intros H. unfold desde. apply in_map_iff.
  exists (Z.to_nat (x - lo)). split; [lia |].
  apply in_seq. lia.
Qed.

(** A composite below 10000 has a factor that trial division finds. *)
Lemma tiene_divisor_compuesto (n : Z) :
  1 < n < 10000 -> ~ Z.prime n -> tiene_divisor n = true.
Proof.
  intros Hn Hc. rewrite prime_alt in Hc.
  destruct (not_prime_divide n ltac:(lia) Hc) as (a & Ha & (b & Hb)).
  assert (Hbr : 1 < b < n) by nia.
  assert (Hex : exists c, 2 <= c /\ c * c <= n /\ n mod c = 0).
  { destruct (Z_le_gt_dec a b).
    - exists a. repeat split; [lia | nia |].
      rewrite Hb. apply Z.mod_mul. lia.
    - exists b. repeat split; [lia | nia |].
      rewrite Hb, Z.mul_comm. apply Z.mod_mul. lia. }
  destruct Hex as (c & Hc2 & Hcc & Hmod).
  unfold tiene_divisor. apply existsb_exists. exists c. split.
  - apply in_desde. nia.
  - destruct (Z.leb_spec (c * c) n); [| lia].
    now apply Z.eqb_eq.
Qed.

(** Below 10000, a number that trial division leaves alone is prime. *)
Lemma primo_por_division (n : Z) :
  1 < n < 10000 -> tiene_divisor n = false -> Z.prime n.
Proof.
  intros Hn Hd. apply prime_alt.
  destruct (prime_dec n) as [Hp | Hc]; [exact Hp |].
  rewrite <- prime_alt in Hc.
  rewrite (tiene_divisor_compuesto n Hn Hc) in Hd. discriminate Hd.
Qed.

Lemma impares_comprobados : forallb comprobado impares = true.
Proof. vm_compute. reflexivity. Qed.

(** An even number from 4 on fails the round of witness 2. *)
Lemma ronda_par (n : Z) :
  3 < n -> n mod 2 = 0 ->
  ronda n (fst (descomponer n)) (snd (descomponer n)) 2 = false.
Proof.
  intros Hn He.
  assert (Hd : descomponer n = (n - 1, 0)).
  { unfold descomponer. cbn [es_primo_halve].
    assert (Ho : (n - 1) mod 2 = 1).
    { pose proof (Z.div_mod n 2). pose proof (Z.div_mod (n - 1) 2).
      pose proof (Z.mod_pos_bound (n - 1) 2). lia. }
    rewrite Ho. reflexivity. }
  rewrite Hd. cbn [fst snd]. unfold ronda.
  rewrite modpow_spec by lia. change (Z.to_nat (0 - 1)) with 0%nat.
  cbn [cuadrados].
  set (x := 2 ^ (n - 1) mod n).
  assert (Hx : x mod 2 = 0).
  { subst x.
    assert (E2 : 2 ^ (n - 1) = 2 * 2 ^ (n - 2)).
    { rewrite <- Z.pow_succ_r by lia. f_equal. lia. }
    pose proof (Z.div_mod (2 ^ (n - 1)) n ltac:(lia)) as Hdm.
    pose proof (Z.div_mod n 2 ltac:(lia)) as Hn2.
    assert (Hx : 2 ^ (n - 1) mod n
                 = 2 * (2 ^ (n - 2) - n / 2 * (2 ^ (n - 1) / n))) by nia.
    rewrite Hx, Z.mul_comm. apply Z.mod_mul. lia. }
  destruct (Z.eqb_spec x 1) as [E | _].
  { rewrite E in Hx. discriminate Hx. }
  destruct (Z.eqb_spec x (n - 1)) as [E | _]; [| reflexivity].
  rewrite E in Hx.
  pose proof (Z.div_mod n 2). pose proof (Z.div_mod (n - 1) 2).
  pose proof (Z.mod_pos_bound (n - 1) 2). lia.
Qed.

(** Every composite from 4 to 9999 fails the round of some witness in
    [2 .. n - 2]. *)
Lemma compuesto_delatado (n : Z) :
  3 < n < 10000 -> ~ Z.prime n ->
  exists a, 2 <= a <= n - 2 /\
            ronda n (fst (descomponer n)) (snd (descomponer n)) a = false.
Proof.
  intros Hn Hc.
  destruct (Z.eq_dec (n mod 2) 0) as [He | Ho].
  - exists 2. split; [lia |]. apply ronda_par; [lia | exact He].
  - assert (Hin : In n impares).
    { unfold impares. apply in_map_iff. exists (Z.to_nat ((n - 5) / 2)).
      pose proof (Z.div_mod n 2). pose proof (Z.mod_pos_bound n 2).
      pose proof (Z.div_mod (n - 5) 2). pose proof (Z.mod_pos_bound (n - 5) 2).
      assert ((n - 5) mod 2 = 0).
      { replace (n - 5) with (n + (-3) * 2 + 1) by lia.
        rewrite <- Zplus_mod_idemp_l, Z.mod_add by lia.
        replace (n mod 2) with 1 by lia. reflexivity. }
      split; [| apply in_seq]; lia. }
    pose proof (proj1 (forallb_forall comprobado impares)
                  impares_comprobados n Hin) as Hall.
    unfold comprobado in Hall.
    rewrite (tiene_divisor_compuesto n ltac:(lia) Hc) in Hall.
    unfold delatado in Hall.
    destruct (descomponer n) as [d s]. cbn [fst snd].
    destruct (ronda n d s 2) eqn:E2.
    + exists 3. split.
      * pose proof (Z.div_mod n 2). pose proof (Z.mod_pos_bound n 2). lia.
      * destruct (ronda n d s 3); [discriminate Hall | reflexivity].
    + exists 2. split; [lia | exact E2].
Qed.

(** The squarings reach [n - 1] exactly when some [x ^ (2 ^ j)] with
    [1 <= j <= count] is -1 modulo [n]. *)
Lemma cuadrados_spec (n : Z) :
  0 < n ->
  forall count x,
    cuadrados count x n = true <->
    exists j, 1 <= j <= Z.of_nat count /\ x ^ (2 ^ j) mod n = n - 1.
Proof.
  intros Hn. induction count as [| count IH]; intros x.
  - cbn [cuadrados]. split; [discriminate | intros (j & Hj & _); lia].
  - cbn [cuadrados]. rewrite modpow_spec by lia.
    rewrite orb_true_iff, Z.eqb_eq, IH. split.
    + intros [E | (j & Hj & E)].
      * exists 1. split; [lia | exact E].
      * exists (j + 1). split; [lia |].
        rewrite Z.pow_add_r, Z.pow_1_r, Z.mul_comm, Z.pow_mul_r by lia.
        rewrite <- Z.mod_pow_l. exact E.
    + intros (j & Hj & E).
      destruct (Z.eq_dec j 1) as [-> | Hne]; [left; exact E |].
      right. exists (j - 1). split; [lia |].
      rewrite Z.mod_pow_l, <- Z.pow_mul_r by (try apply Z.pow_nonneg; lia).
      replace (2 * 2 ^ (j - 1)) with (2 ^ j); [exact E |].
      rewrite <- Z.pow_succ_r by lia. f_equal. lia.
Qed.

(** An odd number times a power of two is that in one way only. *)
Lemma descomposicion_unica (d s d' s' : Z) :
  0 <= s -> 0 <= s' -> Z.odd d = true -> Z.odd d' = true ->
  d * 2 ^ s = d' * 2 ^ s' -> d = d' /\ s = s'.
Proof.
  assert (Haux : forall d s d' s',
             0 <= s -> s < s' -> Z.odd d = true ->
             d * 2 ^ s = d' * 2 ^ s' -> False).
  { intros a t a' t' Ht Hlt Ho E.
    assert (Hp : 0 < 2 ^ t) by (apply Z.pow_pos_nonneg; lia).
    replace t' with (t + 1 + (t' - t - 1)) in E by lia.
    rewrite !Z.pow_add_r, Z.pow_1_r in E by lia.
    assert (Ea : a = 2 * (a' * 2 ^ (t' - t - 1))) by nia.
    rewrite Ea, Z.odd_mul in Ho. discriminate Ho. }
  intros Hs Hs' Ho Ho' E.
  destruct (Z.lt_trichotomy s s') as [Hlt | [-> | Hgt]].
  - exfalso. exact (Haux d s d' s' Hs Hlt Ho E).
  - assert (Hp : 0 < 2 ^ s') by (apply Z.pow_pos_nonneg; lia).
    split; [nia | reflexivity].
  - exfalso. exact (Haux d' s' d s Hs' Hgt Ho' (eq_sym E)).
Qed.

(** The round the code runs decides [pasa]. *)
Lemma ronda_pasa (n a : Z) :
  3 < n ->
  ronda n (fst (descomponer n)) (snd (descomponer n)) a = true <-> pasa n a.
Proof.
  intros Hn.
  destruct (descomponer_spec n {| entropy := fun _ => 0; pow_calls := 0 |} Hn)
    as (d & s & -> & _ & Hd & Hodd & Hs & Hm).
  cbn [fst snd].
  assert (Hr : ronda n d s a = true <->
               (a ^ d mod n = 1 \/
                exists r, 0 <= r < Z.max s 1 /\ a ^ (d * 2 ^ r) mod n = n - 1)).
  { unfold ronda. rewrite modpow_spec by lia.
    set (x := a ^ d mod n).
    assert (Hx : forall j, 0 <= j -> x ^ (2 ^ j) mod n = a ^ (d * 2 ^ j) mod n).
    { intros j Hj. subst x.
      rewrite Z.mod_pow_l, <- Z.pow_mul_r by (try apply Z.pow_nonneg; lia).
      reflexivity. }
    assert (Hx0 : x = a ^ (d * 2 ^ 0) mod n).
    { subst x. now rewrite Z.pow_0_r, Z.mul_1_r. }
    destruct (Z.eqb_spec x 1) as [E1 | N1]; cbn [orb].
    { split; [left; exact E1 | reflexivity]. }
    destruct (Z.eqb_spec x (n - 1)) as [E2 | N2]; cbn [orb].
    { split; [| reflexivity]. intros _. right. exists 0.
      split; [lia | now rewrite <- Hx0]. }
    rewrite (cuadrados_spec n ltac:(lia)). split.
    - intros (j & Hj & E). right. exists j. split; [lia |].
      now rewrite <- Hx by lia.
    - intros [E | (r & Hr & E)]; [contradiction |].
      destruct (Z.eq_dec r 0) as [-> | Hr0].
      + rewrite <- Hx0 in E. contradiction.
      + exists r. split; [lia |]. now rewrite Hx by lia. }
  rewrite Hr. unfold pasa. split.
  - intros H. exists d, s. repeat split; assumption.
  - intros (d' & s' & Hs' & Hodd' & Hm' & H).
    destruct (descomposicion_unica d s d' s' Hs Hs' Hodd Hodd' ltac:(lia))
      as [-> ->].
    exact H.
Qed.

(** When each of the rounds draws a witness that passes, the answer is
    [True]. *)
Lemma es_primo_rounds_sorteados (n d s : Z) :
  3 < n -> 0 <= d ->
  forall count w,
    (forall i, (i < count)%nat -> ronda n d s (testigo n w i) = true) ->
    fst (es_primo_rounds count n d s w) = Ret true.
Proof.
  intros Hn Hd. induction count as [| count IH]; intros w Hall.
  - reflexivity.
  - destruct (es_primo_rounds_step count n d s w Hn Hd) as (w1 & Hw1 & ->).
    rewrite (Hall 0%nat) by lia. apply IH.
    intros i Hi. specialize (Hall (S i) ltac:(lia)).
    unfold testigo in *. rewrite Hw1. exact Hall.
Qed.

(** [es_primo] answers [True] exactly when the witness of every round
    passes its round. *)
Lemma es_primo_rondas_iff (n : Z) (k : option Z) (w : world) :
  3 < n ->
  fst (es_primo n k w) = Ret true <->
  forall i, (i < Z.to_nat (match k with Some k => k | None => 5 end))%nat ->
            ronda n (fst (descomponer n)) (snd (descomponer n))
                  (testigo n w i) = true.
Proof.
  intros Hn. rewrite es_primo_rondas by lia.
  destruct (descomponer_spec n w Hn) as (d & s & E & _ & Hd & _).
  rewrite E. cbn [fst snd]. split.
  - intros H i Hi.
    destruct (ronda n d s (testigo n w i)) eqn:Er; [reflexivity |].
    rewrite (es_primo_rounds_alguno n d s Hn ltac:(lia) _ w i Hi Er) in H.
    discriminate H.
  - apply es_primo_rounds_sorteados; lia.
Qed.

(** C5, as the code has it.  With 5 rounds or more, [es_primo] answers
    [True] for every prime below 10000, whatever witnesses are drawn.  For
    a composite [n] below 10000 it answers [False] unless every witness
    drawn in the rounds is a strong liar for [n] (a base whose round [n]
    passes), and then it answers [True]; not every value of [2 .. n - 2] is
    a strong liar, so no composite below 10000 is accepted on every
    draw. *)
Theorem es_primo_menores_10000 (n k : Z) (w : world) :
  5 <= k -> n < 10000 ->
  (Z.prime n -> fst (es_primo n (Some k) w) = Ret true) /\
  (1 < n -> ~ Z.prime n ->
   (exists b, fst (es_primo n (Some k) w) = Ret b /\
      (b = true <->
       forall i, (i < Z.to_nat k)%nat -> pasa n (testigo n w i))) /\
   (exists a, 2 <= a <= n - 2 /\ ~ pasa n a)).
Proof.
  intros Hk Hn. split.
  - apply es_primo_acepta_primos.
  - intros H1 Hc.
    assert (H3 : 3 < n).
    { destruct (Z.eq_dec n 2) as [-> |]; [elim Hc; apply Z.prime_2 |].
      destruct (Z.eq_dec n 3) as [-> |]; [elim Hc; apply Z.prime_3 | lia]. }
    split.
    + pose proof (es_primo_rondas_iff n (Some k) w H3) as Hiff.
      assert (Hp : (forall i, (i < Z.to_nat k)%nat ->
                      ronda n (fst (descomponer n)) (snd (descomponer n))
                            (testigo n w i) = true)
                   <-> (forall i, (i < Z.to_nat k)%nat ->
                          pasa n (testigo n w i))).
      { split; intros H i Hi; apply (ronda_pasa n _ H3); apply H; exact Hi. }
      rewrite Hp in Hiff. clear Hp.
      rewrite es_primo_rondas in * by exact H3.
      destruct (descomponer_spec n w H3) as (d & s & E & _ & Hd & _).
      rewrite E in *. cbn [fst snd] in *.
      destruct (es_primo_rounds_total (Z.to_nat k) n d s w H3 ltac:(lia))
        as (b & w' & Eb).
      rewrite Eb in *. cbn [fst] in *.
      exists b. split; [reflexivity |].
      rewrite <- Hiff. split; [intros ->; reflexivity | intros E'].
      apply Ret_inj in E'. exact E'.
    + destruct (compuesto_delatado n ltac:(lia) Hc) as (a & Ha & Hr).
      exists a. split; [exact Ha |].
      intros Hpasa. apply (ronda_pasa n a H3) in Hpasa.
      rewrite Hr in Hpasa. discriminate Hpasa.
Qed.

Lemma es_primo_menores_10000_witness :
  fst (es_primo 9973 (Some 5) (mundo [])) = Ret true /\
  (exists b, fst (es_primo 25 (Some 5) (mundo [5; 0; 5; 5; 5])) = Ret b /\
     (b = true <->
      forall i, (i < Z.to_nat 5)%nat ->
                pasa 25 (testigo 25 (mundo [5; 0; 5; 5; 5]) i))) /\
  (exists a, 2 <= a <= 25 - 2 /\ ~ pasa 25 a).
Proof.
  split.
  - apply (proj1 (es_primo_menores_10000 9973 5 (mundo [])
                    ltac:(lia) ltac:(lia))).
    apply primo_por_division; [lia | vm_compute; reflexivity].
  - apply (proj2 (es_primo_menores_10000 25 5 (mundo [5; 0; 5; 5; 5])
                    ltac:(lia) ltac:(lia))).
    + lia.
    + exact (Z.not_prime_square 5).
Defined.

(** As the specification words C5, every composite below 10000 would be
    rejected.  25 is accepted when each of the five rounds draws the
    witness 7. *)
Lemma es_primo_acepta_25 :
  5 <= 5 /\ 25 < 10000 /\ ~ Z.prime 25 /\
  fst (es_primo 25 (Some 5) (mundo [5; 5; 5; 5; 5])) = Ret true.
Proof.
  split; [lia | split; [lia | split]].
  - exact (Z.not_prime_square 5).
  - vm_compute. reflexivity.
Qed.

(** A [str] that holds a lone surrogate is not a text: it has no UTF-8
    form, and [cifrar_mensaje] reports the encoder's refusal. *)
Example cifrar_sustituto :
  cifrar_mensaje [0xD800] (65537, 48443) (mundo [])
  = (Raise (ValueError "Error al cifrar: 'utf-8' codec can't encode character: surrogates not allowed"),
     mundo []).
Proof. reflexivity. Qed.

(* ================================================================== *)
(** ** UTF-8: decoding what was encoded *)

Lemma between_true (lo hi x : Z) : lo <= x <= hi -> between lo hi x = true.
Proof.
  intros H. unfold between. apply andb_true_iff.
  split; apply Z.leb_le; lia.
Qed.

(** The second byte of a well-formed sequence is accepted. *)
Lemma segundo_ok (x0 x1 : Z) :
  0x80 <= x1 <= 0xBF ->
  (x0 = 0xE0 -> 0xA0 <= x1) -> (x0 = 0xF0 -> 0x90 <= x1) ->
  (x0 = 0xED -> x1 <= 0x9F) -> (x0 = 0xF4 -> x1 <= 0x8F) ->
  between (second_lo x0) (second_hi x0) x1 = true.
Proof.
  intros H HE0 HF0 HED HF4. apply between_true.
  unfold second_lo, second_hi.
  destruct (Z.eqb_spec x0 0xE0); destruct (Z.eqb_spec x0 0xF0);
    destruct (Z.eqb_spec x0 0xED); destruct (Z.eqb_spec x0 0xF4); lia.
Qed.

Lemma decode_1 (b0 : byte) (rest : bytes) :
  Z_of_byte b0 < 0x80 ->
  bytes_decode_utf8_replace (b0 :: rest)
  = Z_of_byte b0 :: bytes_decode_utf8_replace rest.
Proof.
  intros H. cbn [bytes_decode_utf8_replace].
  destruct (Z.ltb_spec (Z_of_byte b0) 0x80); [reflexivity | lia].
Qed.

Lemma decode_2 (b0 b1 : byte) (rest : bytes) :
  0xC2 <= Z_of_byte b0 < 0xE0 -> 0x80 <= Z_of_byte b1 <= 0xBF ->
  bytes_decode_utf8_replace (b0 :: b1 :: rest)
  = ((Z_of_byte b0 - 0xC0) * 64 + (Z_of_byte b1 - 0x80))
      :: bytes_decode_utf8_replace rest.
Proof.
  intros H0 H1. cbn [bytes_decode_utf8_replace].
  destruct (Z.ltb_spec (Z_of_byte b0) 0x80); [lia |].
  destruct (Z.ltb_spec (Z_of_byte b0) 0xC2); [lia |].
  destruct (Z.ltb_spec 0xF4 (Z_of_byte b0)); [lia |]. cbn [orb].
  rewrite segundo_ok by lia. cbn [negb].
  destruct (Z.ltb_spec (Z_of_byte b0) 0xE0); [reflexivity | lia].
Qed.

Lemma decode_3 (b0 b1 b2 : byte) (rest : bytes) :
  0xE0 <= Z_of_byte b0 < 0xF0 -> 0x80 <= Z_of_byte b1 <= 0xBF ->
  (Z_of_byte b0 = 0xE0 -> 0xA0 <= Z_of_byte b1) ->
  (Z_of_byte b0 = 0xED -> Z_of_byte b1 <= 0x9F) ->
  0x80 <= Z_of_byte b2 <= 0xBF ->
  bytes_decode_utf8_replace (b0 :: b1 :: b2 :: rest)
  = ((Z_of_byte b0 - 0xE0) * 4096 + (Z_of_byte b1 - 0x80) * 64
     + (Z_of_byte b2 - 0x80))
      :: bytes_decode_utf8_replace rest.
Proof.
  intros H0 H1 HE0 HED H2. cbn [bytes_decode_utf8_replace].
  destruct (Z.ltb_spec (Z_of_byte b0) 0x80); [lia |].
  destruct (Z.ltb_spec (Z_of_byte b0) 0xC2); [lia |].
  destruct (Z.ltb_spec 0xF4 (Z_of_byte b0)); [lia |]. cbn [orb].
  rewrite segundo_ok by lia. cbn [negb].
  destruct (Z.ltb_spec (Z_of_byte b0) 0xE0); [lia |].
  rewrite between_true by lia. cbn [negb].
  destruct (Z.ltb_spec (Z_of_byte b0) 0xF0); [reflexivity | lia].
Qed.

Lemma decode_4 (b0 b1 b2 b3 : byte) (rest : bytes) :
  0xF0 <= Z_of_byte b0 <= 0xF4 -> 0x80 <= Z_of_byte b1 <= 0xBF ->
  (Z_of_byte b0 = 0xF0 -> 0x90 <= Z_of_byte b1) ->
  (Z_of_byte b0 = 0xF4 -> Z_of_byte b1 <= 0x8F) ->
  0x80 <= Z_of_byte b2 <= 0xBF -> 0x80 <= Z_of_byte b3 <= 0xBF ->
  bytes_decode_utf8_replace (b0 :: b1 :: b2 :: b3 :: rest)
  = ((Z_of_byte b0 - 0xF0) * 262144 + (Z_of_byte b1 - 0x80) * 4096
     + (Z_of_byte b2 - 0x80) * 64 + (Z_of_byte b3 - 0x80))
      :: bytes_decode_utf8_replace rest.
Proof.
  intros H0 H1 HF0 HF4 H2 H3. cbn [bytes_decode_utf8_replace].
  destruct (Z.ltb_spec (Z_of_byte b0) 0x80); [lia |].
  destruct (Z.ltb_spec (Z_of_byte b0) 0xC2); [lia |].
  destruct (Z.ltb_spec 0xF4 (Z_of_byte b0)); [lia |]. cbn [orb].
  rewrite segundo_ok by lia. cbn [negb].
  destruct (Z.ltb_spec (Z_of_byte b0) 0xE0); [lia |].
  rewrite (between_true 0x80 0xBF (Z_of_byte b2)) by lia. cbn [negb].
  destruct (Z.ltb_spec (Z_of_byte b0) 0xF0); [lia |].
  rewrite between_true by lia. reflexivity.
Qed.

Ltac divmod := Z.div_mod_to_equations; lia.

Lemma Z_of_byte_of_Z_small (z : Z) :
  0 <= z < 256 -> Z_of_byte (byte_of_Z z) = z.
Proof. intros H. rewrite Z_of_byte_of_Z. now apply Z.mod_small. Qed.

(** Decoding the UTF-8 form of a code point, followed by anything, gives
    the code point, followed by the decoding of the rest. *)
Lemma decode_encode_char (c : Z) (bc rest : bytes) :
  utf8_encode_char c = Ret bc ->
  bytes_decode_utf8_replace (bc ++ rest) = c :: bytes_decode_utf8_replace rest.
Proof.
  unfold utf8_encode_char, between.
  destruct (Z.ltb_spec c 0); [discriminate |].
  destruct (Z.ltb_spec 0x10FFFF c); [discriminate |]. cbn [orb].
  destruct (Z.ltb_spec c 0x80).
  { intros E; apply Ret_inj in E; subst bc. cbn [app].
    rewrite decode_1; rewrite Z_of_byte_of_Z_small by lia;
      [reflexivity | lia]. }
  destruct (Z.ltb_spec c 0x800).
  { intros E; apply Ret_inj in E; subst bc. cbn [app].
    rewrite decode_2; rewrite !Z_of_byte_of_Z_small by divmod;
      [f_equal; divmod | divmod | divmod]. }
  destruct (Z.leb_spec 0xD800 c); destruct (Z.leb_spec c 0xDFFF);
    cbn [andb]; try discriminate;
    (destruct (Z.ltb_spec c 0x10000);
     intros E; apply Ret_inj in E; subst bc; cbn [app];
     [ rewrite decode_3; rewrite !Z_of_byte_of_Z_small by divmod;
       [f_equal; divmod | divmod ..]
     | rewrite decode_4; rewrite !Z_of_byte_of_Z_small by divmod;
       [f_equal; divmod | divmod ..] ]).
Qed.

(** Decoding the UTF-8 form of a [str] gives the [str] back. *)
Lemma decode_encode (s : pystr) (b : bytes) :
  str_encode_utf8 s = Ret b -> bytes_decode_utf8_replace b = s.
Proof.
  revert b. induction s as [| c s IH]; intros b E; simpl in E.
  - inversion E. reflexivity.
  - destruct (utf8_encode_char c) as [bc | |] eqn:Ec; try discriminate E.
    destruct (str_encode_utf8 s) as [br | |]; try discriminate E.
    inversion E; subst b.
    rewrite (decode_encode_char c bc br Ec). f_equal. now apply IH.
Qed.

(* ================================================================== *)
(** ** The RSA transform and its inverse *)

Lemma potencia_fermat (p m t : Z) :
  Z.prime p -> 0 <= t -> (p | m ^ (1 + t * (p - 1)) - m).
Proof.
  intros Hp Ht. pose proof (Z.prime_ge_2 p Hp) as Hp2.
  rewrite Z.pow_add_r, Z.pow_1_r by nia.
  replace (m * m ^ (t * (p - 1)) - m) with (m * (m ^ (t * (p - 1)) - 1)) by ring.
  destruct (Z.eq_dec (m mod p) 0) as [E | E].
  - apply Z.divide_mul_l. apply Z.mod_divide; [lia | exact E].
  - apply Z.divide_mul_r. apply Zmod_divide_minus; [lia |].
    rewrite Z.mul_comm, Z.pow_mul_r by lia.
    rewrite <- Z.mod_pow_l, (Z.fermat_nz p m Hp E), Z.pow_1_l by lia.
    apply Z.mod_1_l. lia.
Qed.

(** Raising to [e] and then to [d] modulo a product of two distinct primes
    gives back every residue, when [e * d] is 1 modulo [(p-1) * (q-1)]. *)
Lemma rsa_vuelta (p q e d m : Z) :
  Z.prime p -> Z.prime q -> p <> q ->
  0 <= e -> 0 <= d -> (e * d) mod ((p - 1) * (q - 1)) = 1 ->
  0 <= m < p * q ->
  (m ^ e mod (p * q)) ^ d mod (p * q) = m.
Proof.
  intros Hp Hq Hne He Hd Hed Hm.
  pose proof (Z.prime_ge_2 p Hp) as Hp2.
  pose proof (Z.prime_ge_2 q Hq) as Hq2.
  assert (Hphi : 0 < (p - 1) * (q - 1)) by nia.
  set (k := e * d / ((p - 1) * (q - 1))).
  assert (Hk : 0 <= k) by (apply Z.div_pos; nia).
  assert (Eed : e * d = 1 + k * ((p - 1) * (q - 1))).
  { pose proof (Z.div_mod (e * d) ((p - 1) * (q - 1)) ltac:(lia)) as H.
    fold k in H. rewrite Hed in H. lia. }
  rewrite Z.mod_pow_l, <- Z.pow_mul_r by assumption.
  assert (Dp : (p | m ^ (e * d) - m)).
  { replace (e * d) with (1 + k * (q - 1) * (p - 1)) by lia.
    apply potencia_fermat; [exact Hp | nia]. }
  assert (Dq : (q | m ^ (e * d) - m)).
  { replace (e * d) with (1 + k * (p - 1) * (q - 1)) by lia.
    apply potencia_fermat; [exact Hq | nia]. }
  destruct Dp as [z Hz]. rewrite Hz in Dq.
  apply Z.divide_prime_mul in Dq; [| exact Hq].
  destruct Dq as [[z' Hz'] | Dq].
  - replace (m ^ (e * d)) with (m + z' * (p * q)) by lia.
    rewrite Z.mod_add by nia. apply Z.mod_small. exact Hm.
  - apply Z.divide_prime_prime in Dq; [congruence | exact Hq | exact Hp].
Qed.

(** Two numbers above 1 whose product is a product of two primes are
    those primes. *)
Lemma factores_primos (a b p q : Z) :
  Z.prime p -> Z.prime q -> 1 < a -> 1 < b -> a * b = p * q ->
  (a = p /\ b = q) \/ (a = q /\ b = p).
Proof.
  intros Hp Hq Ha Hb E.
  pose proof (Z.prime_ge_2 p Hp) as Hp2.
  pose proof (Z.prime_ge_2 q Hq) as Hq2.
  assert (Dp : (p | a * b)) by (exists q; lia).
  apply Z.divide_prime_mul in Dp; [| exact Hp].
  destruct Dp as [[t Ht] | [t Ht]].
  - (* a = t * p, so t * b = q *)
    assert (Eq : t * b = q) by nia.
    assert (Db : (b | q)) by (exists t; lia).
    apply Z.divide_prime_r in Db; [| exact Hq].
    left. assert (b = q) by lia. subst b. assert (t = 1) by nia. lia.
  - assert (Eq : a * t = q) by nia.
    assert (Da : (a | q)) by (exists t; lia).
    apply Z.divide_prime_r in Da; [| exact Hq].
    right. assert (a = q) by lia. subst a. assert (t = 1) by nia. lia.
Qed.

(** *** Encrypting the blocks, then decrypting them *)

Lemma cifrar_bloques_ok (e n : Z) (bloques : list bytes) :
  0 <= e -> 0 < n ->
  Forall (fun b => int_from_bytes b < n) bloques ->
  forall cifrados w,
    exists w',
      cifrar_bloques bloques e n cifrados w
      = (Ret (cifrados ++ map (fun b => int_from_bytes b ^ e mod n) bloques), w').
Proof.
  intros He Hn. induction 1 as [| b bloques Hb _ IH]; intros cifrados w.
  - exists w. cbn. now rewrite app_nil_r.
  - cbn [cifrar_bloques map].
    destruct (Z.leb_spec n (int_from_bytes b)); [lia |].
    unfold bind. rewrite pow3_spec by assumption.
    destruct (IH (cifrados ++ [int_from_bytes b ^ e mod n])
                {| entropy := entropy w; pow_calls := S (pow_calls w) |})
      as (w' & E).
    exists w'. rewrite E, <- app_assoc. reflexivity.
Qed.

Lemma descifrar_bloques_ok (e d n : Z) (bloques : list bytes) :
  0 <= d -> 0 < n ->
  (forall m, 0 <= m < n -> (m ^ e mod n) ^ d mod n = m) ->
  Forall (fun b => int_from_bytes b < n /\
                   bloque_de_entero (int_from_bytes b) = Ret b) bloques ->
  forall acc w,
    exists w',
      descifrar_bloques (map (fun b => int_from_bytes b ^ e mod n) bloques)
        d n acc w
      = (Ret (acc ++ bloques), w').
Proof.
  intros Hd Hn Hrsa. induction 1 as [| b bloques [Hb Hl] _ IH]; intros acc w.
  - exists w. cbn. now rewrite app_nil_r.
  - cbn [descifrar_bloques map].
    unfold bind, lift. rewrite pow3_spec by assumption.
    rewrite Hrsa by (pose proof (int_from_bytes_range b); lia).
    rewrite Hl.
    destruct (IH (acc ++ [b])
                {| entropy := entropy w; pow_calls := S (pow_calls w) |})
      as (w' & E).
    exists w'. rewrite E, <- app_assoc. reflexivity.
Qed.

(* ================================================================== *)
(** ** The round trip *)

Lemma primo_193 : Z.prime 193.
Proof. apply primo_por_division; [lia | vm_compute; reflexivity]. Qed.

Lemma primo_251 : Z.prime 251.
Proof. apply primo_por_division; [lia | vm_compute; reflexivity]. Qed.

(** C1, as the code has it.  Take a key pair returned by [generar_claves]
    whose modulus is the product of two distinct primes and has at least 16
    bits, and a text that is not empty or all whitespace and whose bytes
    re-encode losslessly.  Then [cifrar_mensaje] returns cipher blocks, and
    [descifrar_mensaje] applied to them with the private key and the public
    key returns the text. *)
Theorem ida_y_vuelta (fuel : nat) (bits : option Z) (w w' w1 : world)
    (publica privada : clave) (p q : Z) (mensaje : pystr) :
  generar_claves fuel bits w = (Ret (publica, privada), w') ->
  Z.prime p -> Z.prime q -> p <> q -> snd publica = p * q ->
  16 <= bit_length (snd publica) ->
  es_texto mensaje -> sin_perdida mensaje (snd publica) ->
  forallb isspace mensaje = false ->
  exists cifrados w2 w3,
    cifrar_mensaje mensaje publica w1 = (Ret cifrados, w2) /\
    descifrar_mensaje cifrados privada (Some publica) w2 = (Ret mensaje, w3).
Proof.
  intros Hgen Hp Hq Hne Hn Hbits Htxt Hlossless Hblank.
  apply generar_claves_inv in Hgen.
  destruct Hgen as (p0 & q0 & e & _ & _ & _ & _ & Hp0 & Hq0 & -> & -> & Hg & _ & He).
  cbn [snd] in *.
  set (phi := (p0 - 1) * (q0 - 1)) in *.
  set (d := Z.invmod e phi). set (n := p0 * q0) in *.
  assert (Hphi : 2 <= phi) by (subst phi; nia).
  assert (Hd : 0 <= d).
  { subst d. rewrite <- Z.mod_invmod. apply Z.mod_pos_bound. lia. }
  assert (Hed : (e * d) mod phi = 1).
  { subst d. rewrite Z.mul_comm. now apply Z.invmod_coprime. }
  assert (Hpos : 0 < n) by (subst n; nia).
  assert (Hrsa : forall m, 0 <= m < n -> (m ^ e mod n) ^ d mod n = m).
  { intros m Hm. subst n phi.
    destruct (factores_primos p0 q0 p q Hp Hq ltac:(lia) ltac:(lia) Hn)
      as [[-> ->] | [-> ->]].
    - apply rsa_vuelta; try assumption; lia.
    - apply rsa_vuelta; try assumption; lia. }
  assert (HL : 0 < bloque_max n).
  { unfold bloque_max.
    pose proof (Z.div_mod (bit_length n) 8).
    pose proof (Z.mod_pos_bound (bit_length n) 8). lia. }
  destruct (str_encode_utf8_texto mensaje Htxt) as [bytes_msg Eenc].
  destruct (bloques_de_pos bytes_msg (bloque_max n) w1 HL)
    as (bloques & Ebl & Econcat & Hlen).
  assert (Hlt : Forall (fun b => int_from_bytes b < n) bloques).
  { eapply Forall_impl; [| exact Hlen].
    intros b Hb. apply bloque_bajo_modulo; [lia | exact Hb]. }
  pose proof (Hlossless bytes_msg bloques w1 Eenc Ebl) as Hll.
  assert (Hboth : Forall (fun b => int_from_bytes b < n /\
                                   bloque_de_entero (int_from_bytes b) = Ret b)
                         bloques).
  { apply Forall_forall. intros b Hb. split.
    - exact (proj1 (Forall_forall _ _) Hlt b Hb).
    - exact (proj1 (Forall_forall _ _) Hll b Hb). }
  destruct (cifrar_bloques_ok e n bloques ltac:(lia) Hpos Hlt [] w1)
    as (w2 & Ecif).
  destruct (descifrar_bloques_ok e d n bloques Hd Hpos Hrsa Hboth [] w2)
    as (w3 & Edes).
  cbn [app] in Ecif, Edes.
  exists (map (fun b => int_from_bytes b ^ e mod n) bloques), w2, w3. split.
  - unfold cifrar_mensaje, try_except, bind, lift.
    fold n. rewrite Eenc, Ebl, Ecif. reflexivity.
  - etransitivity.
    + apply (descifrar_mensaje_bloques _ d n (Some (e, n)) w2 w3 bloques
               eq_refl Edes).
    + rewrite Econcat, (decode_encode mensaje bytes_msg Eenc), Hblank.
      reflexivity.
Qed.

Lemma ida_y_vuelta_witness :
  exists cifrados w2 w3,
    cifrar_mensaje [104; 111; 108; 97] (65537, 48443) (mundo [])
      = (Ret cifrados, w2) /\
    descifrar_mensaje cifrados (9473, 48443) (Some (65537, 48443)) w2
      = (Ret [104; 111; 108; 97], w3).
Proof.
  apply (ida_y_vuelta 3 (Some 16) (mundo [64; 0; 0; 0; 0; 0; 122])
           (snd (generar_claves 3 (Some 16) (mundo [64; 0; 0; 0; 0; 0; 122])))
           (mundo []) (65537, 48443) (9473, 48443) 193 251
           [104; 111; 108; 97]).
  - vm_compute. reflexivity.
  - exact primo_193.
  - exact primo_251.
  - lia.
  - reflexivity.
  - vm_compute. discriminate.
  - repeat constructor; unfold escalar; lia.
  - intros bytes_msg bloques w E1 E2.
    vm_compute in E1. apply Ret_inj in E1. subst bytes_msg.
    cbv in E2. injection E2 as <-.
    repeat constructor.
  - reflexivity.
Defined.

(** As the specification words C1, the round trip would hold for every
    message whose bytes re-encode losslessly and every key pair that
    [generar_claves] returns.  Four runs in which it does not:
    a one-space message under a sound key is rejected as an empty result;
    under a key built from the same prime twice, and under a key built from
    the composite 145 that [es_primo] accepts when its rounds draw the
    witness 12, the message ["A"] comes back as other text; and a key of
    15 bits makes [cifrar_mensaje] fail. *)
Lemma ida_y_vuelta_falla :
  (fst (generar_claves 3 (Some 16) (mundo [64; 0; 0; 0; 0; 0; 122]))
     = Ret ((65537, 48443), (9473, 48443)) /\
   sin_perdida [32] 48443 /\
   cifrar_mensaje [32] (65537, 48443) (mundo [])
     = (Ret [5000], {| entropy := entropy (mundo []); pow_calls := 1 |}) /\
   fst (descifrar_mensaje [5000] (9473, 48443) (Some (65537, 48443))
          {| entropy := entropy (mundo []); pow_calls := 1 |})
     = Raise EmptyResult) /\
  (fst (generar_claves 3 (Some 16) (mundo [122; 0; 0; 0; 0; 0; 122]))
     = Ret ((65537, 63001), (35973, 63001)) /\
   sin_perdida [65] 63001 /\
   cifrar_mensaje [65] (65537, 63001) (mundo [])
     = (Ret [18391], {| entropy := entropy (mundo []); pow_calls := 1 |}) /\
   fst (descifrar_mensaje [18391] (35973, 63001) (Some (65537, 63001))
          {| entropy := entropy (mundo []); pow_calls := 1 |})
     = Ret [77; 65533]) /\
  (fst (generar_claves 3 (Some 16) (mundo [16; 10; 10; 10; 10; 10; 122]))
     = Ret ((65537, 36395), (21473, 36395)) /\
   sin_perdida [65] 36395 /\
   cifrar_mensaje [65] (65537, 36395) (mundo [])
     = (Ret [33200], {| entropy := entropy (mundo []); pow_calls := 1 |}) /\
   fst (descifrar_mensaje [33200] (21473, 36395) (Some (65537, 36395))
          {| entropy := entropy (mundo []); pow_calls := 1 |})
     = Ret [59; 21]) /\
  (fst (generar_claves 3 (Some 16) (mundo [2; 0; 0; 0; 0; 0; 8]))
     = Ret ((65537, 17947), (12113, 17947)) /\
   fst (cifrar_mensaje [65] (65537, 17947) (mundo []))
     = Raise (ValueError "Error al cifrar: range() arg 3 must not be zero")).
Proof.
  assert (Hsp : forall c n, 0 < c < 128 -> 0 < bloque_max n ->
                            sin_perdida [c] n).
  { intros c n Hc HL bytes_msg bloques w E1 E2.
    assert (Eb : bytes_msg = [byte_of_Z c]).
    { unfold str_encode_utf8, utf8_encode_char in E1.
      destruct (Z.ltb_spec c 0); [lia |].
      destruct (Z.ltb_spec 0x10FFFF c); [lia |]. cbn [orb] in E1.
      destruct (Z.ltb_spec c 0x80); [| lia].
      apply Ret_inj in E1. now rewrite <- E1. }
    destruct (bloques_de_pos bytes_msg (bloque_max n) w HL)
      as (bl & Ebl & Econcat & Hlen).
    rewrite Ebl in E2. injection E2 as <-.
    apply Forall_forall. intros b Hb.
    rewrite bloque_de_entero_int_from_bytes. f_equal.
    assert (Hsub : forall x, In x b -> x = byte_of_Z c).
    { intros x Hx.
      assert (Hin : In x (List.concat bl)).
      { apply in_concat. exists b. split; assumption. }
      rewrite Econcat, Eb in Hin. destruct Hin as [<- | []]. reflexivity. }
    destruct b as [| x b]; [reflexivity |].
    cbn [sin_ceros]. rewrite (Hsub x (or_introl eq_refl)).
    rewrite Z_of_byte_of_Z_small by lia.
    destruct (Z.eqb_spec c 0); [lia | reflexivity]. }
  repeat split; try (vm_compute; reflexivity);
    apply Hsp; try lia; vm_compute; reflexivity.
Qed.

(** The scenario of the specification at a size that can be run: the key
    pair drawn from the world below, the message "hello world". *)
Example hola_mundo :
  let mensaje := pystr_of_string "hello world" in
  let claves := generar_claves 3 (Some 16) (mundo [64; 0; 0; 0; 0; 0; 122]) in
  let cifrado := cifrar_mensaje mensaje (65537, 48443) (snd claves) in
  let cifrados := [17667; 34647; 38491; 38491; 40166; 5000; 12664; 40166;
                   44736; 38491; 45456] in
  fst claves = Ret ((65537, 48443), (9473, 48443)) /\
  fst cifrado = Ret cifrados /\
  fst (descifrar_mensaje cifrados (9473, 48443) (Some (65537, 48443))
         (snd cifrado)) = Ret mensaje.
Proof. vm_compute. repeat split. Qed.

(* ================================================================== *)
(** ** More about the blocks and about encrypting *)

(** The blocks in closed form: block [k] is the [L] bytes from offset
    [k * L] on, as many blocks as it takes to cover the bytes. *)
Lemma bloques_de_forma (bytes_msg : bytes) (L : Z) (w : world) :
  0 < L ->
  bloques_de bytes_msg L w
  = (Ret (map (fun k => firstn (Z.to_nat L) (skipn (k * Z.to_nat L) bytes_msg))
              (seq 0 (Z.to_nat ((len bytes_msg + L - 1) / L)))), w).
Proof.
  intros HL. unfold bloques_de, bind, py_range.
  destruct (Z.eqb_spec L 0); [lia |].
  destruct (Z.ltb_spec 0 L); [| lia].
  unfold ret. rewrite map_map.
  replace (len bytes_msg - 0 + L - 1) with (len bytes_msg + L - 1) by lia.
  f_equal. f_equal. apply map_ext. intros k.
  rewrite <- (slice_nat bytes_msg (k * Z.to_nat L) (Z.to_nat L)).
  f_equal; lia.
Qed.

(** X1.  With a positive block size, the list comprehension of line 111
    cuts [K] bytes into [ceil(K / L)] blocks: none is empty, none is longer
    than [L], every block but the last has exactly [L] bytes, and put end
    to end they are the bytes again. *)
Theorem bloques_de_trozos (bytes_msg : bytes) (L : Z) (w : world) :
  0 < L ->
  exists bloques,
    bloques_de bytes_msg L w = (Ret bloques, w) /\
    len bloques = (len bytes_msg + L - 1) / L /\
    List.concat bloques = bytes_msg /\
    Forall (fun b => 1 <= len b <= L) bloques /\
    (forall i, (S i < List.length bloques)%nat -> len (nth i bloques []) = L).
Proof.
  intros HL. rewrite (bloques_de_forma bytes_msg L w HL).
  eexists. split; [reflexivity |].
  set (count := Z.to_nat ((len bytes_msg + L - 1) / L)).
  set (L' := Z.to_nat L).
  pose proof (len_nonneg bytes_msg) as Hl.
  assert (Hq : 0 <= (len bytes_msg + L - 1) / L) by (apply Z.div_pos; lia).
  assert (Hlo : (Z.of_nat count - 1) * L < len bytes_msg).
  { subst count. rewrite Z2Nat.id by exact Hq.
    pose proof (Z.div_mod (len bytes_msg + L - 1) L ltac:(lia)).
    pose proof (Z.mod_pos_bound (len bytes_msg + L - 1) L HL). nia. }
  assert (Hhi : len bytes_msg <= Z.of_nat count * L).
  { subst count. rewrite Z2Nat.id by exact Hq.
    pose proof (Z.div_mod (len bytes_msg + L - 1) L ltac:(lia)).
    pose proof (Z.mod_pos_bound (len bytes_msg + L - 1) L HL). nia. }
  assert (Hlen : forall k, (k < count)%nat ->
            len (firstn L' (skipn (k * L') bytes_msg))
            = Z.min L (len bytes_msg - Z.of_nat k * L)).
  { intros k Hk. unfold len. rewrite length_firstn, length_skipn.
    assert (Ek : Z.of_nat (k * L') = Z.of_nat k * L).
    { subst L'. rewrite Nat2Z.inj_mul. lia. }
    assert (Hk' : Z.of_nat k * L <= (Z.of_nat count - 1) * L) by nia.
    unfold len in Hlo.
    assert (EL : Z.of_nat L' = L) by (subst L'; lia).
    generalize dependent (k * L')%nat. intros kl Ek.
    generalize dependent (Z.of_nat k * L). intros P Hk' Ek.
    generalize dependent ((Z.of_nat count - 1) * L). intros Q Hlo Hk'.
    lia. }
  split; [| split; [| split]].
  - unfold len at 1. rewrite length_map, length_seq. subst count.
    apply Z2Nat.id. exact Hq.
  - rewrite concat_trozos. apply firstn_all2. unfold len in Hhi. subst L'. nia.
  - apply Forall_forall. intros b Hb.
    apply in_map_iff in Hb. destruct Hb as (k & <- & Hk).
    apply in_seq in Hk. rewrite Hlen by lia. nia.
  - intros i Hi. rewrite length_map, length_seq in Hi.
    rewrite (nth_indep _ [] (firstn L' (skipn (0 * L') bytes_msg)))
      by (rewrite length_map, length_seq; lia).
    rewrite (map_nth (fun k => firstn L' (skipn (k * L') bytes_msg))).
    rewrite seq_nth by lia. rewrite Hlen by lia. nia.
Qed.

Lemma bloques_de_trozos_witness :
  exists bloques,
    bloques_de [x68; x6f; x6c; x61; x21] 2 (mundo []) = (Ret bloques, mundo []) /\
    len bloques = (len [x68; x6f; x6c; x61; x21] + 2 - 1) / 2 /\
    List.concat bloques = [x68; x6f; x6c; x61; x21] /\
    Forall (fun b => 1 <= len b <= 2) bloques /\
    (forall i, (S i < List.length bloques)%nat -> len (nth i bloques []) = 2).
Proof.
  apply (bloques_de_trozos [x68; x6f; x6c; x61; x21] 2 (mundo [])). lia.
Defined.

(** The loop over the blocks, with the world it leaves. *)
Lemma cifrar_bloques_mundo (e n : Z) (bloques : list bytes) :
  0 <= e -> 0 < n ->
  Forall (fun b => int_from_bytes b < n) bloques ->
  forall cifrados w,
    cifrar_bloques bloques e n cifrados w
    = (Ret (cifrados ++ map (fun b => int_from_bytes b ^ e mod n) bloques),
       {| entropy := entropy w;
          pow_calls := List.length bloques + pow_calls w |}).
Proof.
  intros He Hn. induction 1 as [| b bloques Hb _ IH]; intros cifrados w.
  - cbn. rewrite app_nil_r. destruct w; reflexivity.
  - cbn [cifrar_bloques map].
    destruct (Z.leb_spec n (int_from_bytes b)); [lia |].
    unfold bind. rewrite pow3_spec by assumption.
    rewrite IH, <- app_assoc. cbn [entropy pow_calls List.length app].
    f_equal. f_equal. lia.
Qed.

(** [cifrar_mensaje] on a text, under a modulus of at least 16 bits. *)
Lemma cifrar_mensaje_bloques (mensaje : pystr) (e n : Z) (w : world) :
  es_texto mensaje -> 0 <= e -> 0 <= n -> 16 <= bit_length n ->
  exists bytes_msg bloques,
    str_encode_utf8 mensaje = Ret bytes_msg /\
    bloques_de bytes_msg (bloque_max n) w = (Ret bloques, w) /\
    cifrar_mensaje mensaje (e, n) w
    = (Ret (map (fun b => int_from_bytes b ^ e mod n) bloques),
       {| entropy := entropy w;
          pow_calls := List.length bloques + pow_calls w |}) /\
    Forall (fun c => 0 <= c < n)
           (map (fun b => int_from_bytes b ^ e mod n) bloques).
Proof.
  intros Htxt He Hn Hbits.
  assert (Hpos : 0 < n).
  { destruct (Z.eq_dec n 0) as [-> |]; [| lia].
    change (bit_length 0) with 0 in Hbits. lia. }
  assert (HL : 0 < bloque_max n).
  { unfold bloque_max.
    pose proof (Z.div_mod (bit_length n) 8).
    pose proof (Z.mod_pos_bound (bit_length n) 8). lia. }
  destruct (str_encode_utf8_texto mensaje Htxt) as [bytes_msg Eenc].
  destruct (bloques_de_pos bytes_msg (bloque_max n) w HL)
    as (bloques & Ebl & _ & Hlen).
  assert (Hlt : Forall (fun b => int_from_bytes b < n) bloques).
  { eapply Forall_impl; [| exact Hlen].
    intros b Hb. apply bloque_bajo_modulo; [lia | exact Hb]. }
  exists bytes_msg, bloques. repeat split; try assumption.
  - unfold cifrar_mensaje, try_except, bind, lift.
    rewrite Eenc, Ebl, (cifrar_bloques_mundo e n bloques He Hpos Hlt).
    reflexivity.
  - apply Forall_forall. intros c Hc.
    apply in_map_iff in Hc. destruct Hc as (b & <- & _).
    apply Z.mod_pos_bound. exact Hpos.
Qed.

(** X2.  For a text, a non-negative exponent and a non-negative modulus of
    at least 16 bits, [cifrar_mensaje] always returns.  Cipher block [i] is
    [m ^ e mod n] for the integer [m] of plaintext block [i] alone, so
    equal plaintext blocks give equal cipher blocks; every cipher block
    lies in [0, n); one [pow] is performed per block and no random number
    is drawn. *)
Theorem cifrar_mensaje_forma (mensaje : pystr) (e n : Z) (w : world) :
  es_texto mensaje -> 0 <= e -> 0 <= n -> 16 <= bit_length n ->
  exists bytes_msg bloques,
    str_encode_utf8 mensaje = Ret bytes_msg /\
    bloques_de bytes_msg (bloque_max n) w = (Ret bloques, w) /\
    cifrar_mensaje mensaje (e, n) w
    = (Ret (map (fun b => int_from_bytes b ^ e mod n) bloques),
       {| entropy := entropy w;
          pow_calls := List.length bloques + pow_calls w |}) /\
    Forall (fun c => 0 <= c < n)
           (map (fun b => int_from_bytes b ^ e mod n) bloques).
Proof. exact (cifrar_mensaje_bloques mensaje e n w). Qed.

Lemma cifrar_mensaje_forma_witness :
  exists bytes_msg bloques,
    str_encode_utf8 [104; 111; 108; 97] = Ret bytes_msg /\
    bloques_de bytes_msg (bloque_max 48443) (mundo []) = (Ret bloques, mundo []) /\
    cifrar_mensaje [104; 111; 108; 97] (65537, 48443) (mundo [])
    = (Ret (map (fun b => int_from_bytes b ^ 65537 mod 48443) bloques),
       {| entropy := entropy (mundo []);
          pow_calls := List.length bloques + pow_calls (mundo []) |}) /\
    Forall (fun c => 0 <= c < 48443)
           (map (fun b => int_from_bytes b ^ 65537 mod 48443) bloques).
Proof.
  apply (cifrar_mensaje_forma [104; 111; 108; 97] 65537 48443 (mundo [])).
  - repeat constructor; unfold escalar; lia.
  - lia.
  - lia.
  - vm_compute. discriminate.
Defined.

(** X3.  A modulus of 8 to 15 bits makes the block size 0: for every text,
    the empty one too, [cifrar_mensaje] fails with the error of [range]
    wrapped in its own, and performs no exponentiation. *)
Theorem cifrar_modulo_corto (mensaje : pystr) (e n : Z) (w : world) :
  es_texto mensaje -> 8 <= bit_length n < 16 ->
  cifrar_mensaje mensaje (e, n) w
  = (Raise (ValueError "Error al cifrar: range() arg 3 must not be zero"), w).
Proof.
  intros Htxt Hbits.
  assert (HL : bloque_max n = 0).
  { unfold bloque_max.
    pose proof (Z.div_mod (bit_length n) 8).
    pose proof (Z.mod_pos_bound (bit_length n) 8). lia. }
  destruct (str_encode_utf8_texto mensaje Htxt) as [bytes_msg Eenc].
  unfold cifrar_mensaje, try_except, bind, lift. rewrite Eenc, HL.
  reflexivity.
Qed.

Lemma cifrar_modulo_corto_witness :
  cifrar_mensaje [104; 111; 108; 97] (65537, 17947) (mundo [])
  = (Raise (ValueError "Error al cifrar: range() arg 3 must not be zero"),
     mundo []).
Proof.
  apply (cifrar_modulo_corto [104; 111; 108; 97] 65537 17947 (mundo [])).
  - repeat constructor; unfold escalar; lia.
  - vm_compute. split; [discriminate | reflexivity].
Defined.

(** X4.  The empty message does not survive the round trip under any key:
    unless the modulus has 8 to 15 bits, [cifrar_mensaje] turns it into the
    empty list of cipher blocks, and [descifrar_mensaje] rejects the empty
    list as an empty result, whatever the exponents. *)
Theorem mensaje_vacio_no_vuelve (e d n : Z) (w : world) :
  ~ (8 <= bit_length n < 16) ->
  cifrar_mensaje [] (e, n) w = (Ret [], w) /\
  descifrar_mensaje [] (d, n) (Some (e, n)) w = (Raise EmptyResult, w).
Proof.
  intros Hbits. split.
  - unfold cifrar_mensaje, try_except, bind, lift. cbn [str_encode_utf8].
    destruct (Z_lt_le_dec (bit_length n) 8) as [Hs | Hb].
    + rewrite bloques_de_neg; [reflexivity |].
      unfold bloque_max. pose proof (bit_length_nonneg n).
      rewrite Z.div_small by lia. lia.
    + rewrite bloques_de_forma.
      * change (len (@nil byte)) with 0.
        rewrite Z.div_small; [reflexivity |].
        unfold bloque_max.
        pose proof (Z.div_mod (bit_length n) 8).
        pose proof (Z.mod_pos_bound (bit_length n) 8). lia.
      * unfold bloque_max.
        pose proof (Z.div_mod (bit_length n) 8).
        pose proof (Z.mod_pos_bound (bit_length n) 8). lia.
  - unfold descifrar_mensaje, bind. rewrite Z.eqb_refl. reflexivity.
Qed.

Lemma mensaje_vacio_no_vuelve_witness :
  cifrar_mensaje [] (65537, 48443) (mundo []) = (Ret [], mundo []) /\
  descifrar_mensaje [] (9473, 48443) (Some (65537, 48443)) (mundo [])
  = (Raise EmptyResult, mundo []).
Proof.
  apply (mensaje_vacio_no_vuelve 65537 9473 48443 (mundo [])).
  vm_compute. intros [H1 H2]. discriminate H2.
Defined.

(* ================================================================== *)
(** ** More about the failures of encrypting and decrypting *)

Lemma long_pow_no_diverge (a b c : Z) : long_pow a b c <> Diverge.
Proof.
  unfold long_pow, long_invmod.
  destruct (c =? 0); [discriminate |].
  destruct (Z.abs c =? 1); [discriminate |].
  destruct (b <? 0); [| discriminate].
  destruct (Z.gcd a (Z.abs c) =? 1); discriminate.
Qed.

Lemma str_encode_utf8_no_diverge (s : pystr) : str_encode_utf8 s <> Diverge.
Proof.
  induction s as [| c s IH]; cbn [str_encode_utf8]; [discriminate |].
  assert (Hc : utf8_encode_char c <> Diverge).
  { unfold utf8_encode_char.
    repeat match goal with
           | |- context [if ?b then _ else _] => destruct b
           end; discriminate. }
  destruct (utf8_encode_char c); try discriminate; [| contradiction].
  destruct (str_encode_utf8 s); try discriminate. contradiction.
Qed.

Lemma bloques_de_mundo (bytes_msg : bytes) (L : Z) (w : world) :
  (exists bloques, bloques_de bytes_msg L w = (Ret bloques, w)) \/
  bloques_de bytes_msg L w
  = (Raise (ValueError "range() arg 3 must not be zero"), w).
Proof.
  unfold bloques_de, bind, py_range.
  destruct (L =? 0); [right; reflexivity | left; eexists; reflexivity].
Qed.

(** The loop over the plaintext blocks draws nothing and does not diverge. *)
Lemma cifrar_bloques_quieto (bloques : list bytes) (e n : Z) :
  forall cifrados w,
    fst (cifrar_bloques bloques e n cifrados w) <> Diverge /\
    entropy (snd (cifrar_bloques bloques e n cifrados w)) = entropy w.
Proof.
  induction bloques as [| b bloques IH]; intros cifrados w.
  - split; [discriminate | reflexivity].
  - cbn [cifrar_bloques].
    destruct (n <=? int_from_bytes b); [split; [discriminate | reflexivity] |].
    unfold bind, pow3.
    pose proof (long_pow_no_diverge (int_from_bytes b) e n) as Hnd.
    destruct (long_pow (int_from_bytes b) e n) as [c | ex |];
      [| split; [discriminate | reflexivity] | contradiction].
    destruct (IH (cifrados ++ [c])
                {| entropy := entropy w; pow_calls := S (pow_calls w) |})
      as [H1 H2].
    split; [exact H1 | rewrite H2; reflexivity].
Qed.

(** X5.  [cifrar_mensaje] lets no foreign exception out: whatever the
    message and the key, it returns or raises a [ValueError] whose message
    is ["Error al cifrar: "] followed by the message of the error it caught.
    It contains no unbounded loop and draws no random number. *)
Theorem cifrar_mensaje_errores (mensaje : pystr) (e n : Z) (w : world) :
  match fst (cifrar_mensaje mensaje (e, n) w) with
  | Ret _ => True
  | Raise ex => exists m, ex = ValueError ("Error al cifrar: " ++ m)
  | Diverge => False
  end /\
  entropy (snd (cifrar_mensaje mensaje (e, n) w)) = entropy w.
Proof.
  unfold cifrar_mensaje, try_except, bind, lift.
  pose proof (str_encode_utf8_no_diverge mensaje) as Hnd.
  destruct (str_encode_utf8 mensaje) as [bytes_msg | ex |];
    [| split; [eexists; reflexivity | reflexivity] | contradiction].
  destruct (bloques_de_mundo bytes_msg (bloque_max n) w) as [[bloques ->] | ->];
    [| split; [eexists; reflexivity | reflexivity]].
  destruct (cifrar_bloques_quieto bloques e n [] w) as [Hd Hw].
  destruct (cifrar_bloques bloques e n [] w) as [[cs | ex |] w'];
    cbn [fst snd] in *.
  - split; [exact I | exact Hw].
  - split; [eexists; reflexivity | exact Hw].
  - contradiction.
Qed.

Lemma bloque_de_entero_no_diverge (m : Z) : bloque_de_entero m <> Diverge.
Proof.
  unfold bloque_de_entero, int_to_bytes.
  repeat match goal with
         | |- context [if ?b then _ else _] => destruct b
         end; discriminate.
Qed.

Lemma descifrar_bloques_quieto (cifrados : list Z) (d n : Z) :
  forall bloques w,
    fst (descifrar_bloques cifrados d n bloques w) <> Diverge /\
    entropy (snd (descifrar_bloques cifrados d n bloques w)) = entropy w.
Proof.
  induction cifrados as [| c cifrados IH]; intros bloques w.
  - split; [discriminate | reflexivity].
  - cbn [descifrar_bloques]. unfold bind, pow3, lift.
    pose proof (long_pow_no_diverge c d n) as Hnd.
    destruct (long_pow c d n) as [m | ex |];
      [| split; [discriminate | reflexivity] | contradiction].
    pose proof (bloque_de_entero_no_diverge m) as Hbd.
    destruct (bloque_de_entero m) as [b | ex |];
      [| split; [discriminate | reflexivity] | contradiction].
    destruct (IH (bloques ++ [b])
                {| entropy := entropy w; pow_calls := S (pow_calls w) |})
      as [H1 H2].
    split; [exact H1 | rewrite H2; reflexivity].
Qed.

Lemma descifrar_mensaje_cuerpo (cifrados : list Z) (d n : Z)
    (publica : option clave) (w : world) :
  match publica with Some (_, n_pub) => n_pub = n | None => True end ->
  descifrar_mensaje cifrados (d, n) publica w = descifrar_cuerpo cifrados d n w.
Proof.
  intros Hk. unfold descifrar_mensaje, descifrar_cuerpo.
  destruct publica as [[e_pub n_pub] |].
  - subst n_pub. unfold bind at 1. rewrite Z.eqb_refl. reflexivity.
  - reflexivity.
Qed.

Ltac a_cuerpo H :=
  match goal with
  | |- context [descifrar_mensaje ?c (?d, ?n) ?p ?w] =>
      rewrite (descifrar_mensaje_cuerpo c d n p w H)
  end.

Lemma descifrar_cuerpo_errores (cifrados : list Z) (d n : Z) (w : world) :
  match fst (descifrar_cuerpo cifrados d n w) with
  | Ret _ => True
  | Raise ex =>
      exists m, ex = ValueError ("Error al descifrar: " ++ m
                                 ++ " - ¿Las llaves no coinciden?")
  | Diverge => False
  end /\
  entropy (snd (descifrar_cuerpo cifrados d n w)) = entropy w.
Proof.
  unfold descifrar_cuerpo, try_except, bind.
  destruct (descifrar_bloques_quieto cifrados d n [] w) as [Hd Hw].
  destruct (descifrar_bloques cifrados d n [] w) as [[bloques | ex |] w'];
    cbn [fst snd] in *.
  - cbv zeta.
    destruct (negb (truthy (strip (bytes_decode_utf8_replace
                                     (List.concat bloques))))).
    + split; [eexists; reflexivity | exact Hw].
    + split; [exact I | exact Hw].
  - split; [eexists; reflexivity | exact Hw].
  - contradiction.
Qed.

(** X6.  [descifrar_mensaje] lets no foreign exception out either: it
    returns, or raises the key-mismatch [ValueError], or raises a
    [ValueError] whose message is that of the error caught between
    ["Error al descifrar: "] and [" - ¿Las llaves no coinciden?"].  It
    contains no unbounded loop and draws no random number. *)
Theorem descifrar_mensaje_errores (cifrados : list Z) (d n : Z)
    (publica : option clave) (w : world) :
  match fst (descifrar_mensaje cifrados (d, n) publica w) with
  | Ret _ => True
  | Raise ex =>
      ex = KeyMismatch \/
      exists m, ex = ValueError ("Error al descifrar: " ++ m
                                 ++ " - ¿Las llaves no coinciden?")
  | Diverge => False
  end /\
  entropy (snd (descifrar_mensaje cifrados (d, n) publica w)) = entropy w.
Proof.
  destruct publica as [[e_pub n_pub] |].
  - destruct (Z.eq_dec n_pub n) as [E | E].
    + a_cuerpo E.
      destruct (descifrar_cuerpo_errores cifrados d n w) as [H1 H2].
      split; [| exact H2].
      destruct (fst (descifrar_cuerpo cifrados d n w)); auto.
    + unfold descifrar_mensaje, bind.
      destruct (Z.eqb_spec n n_pub); [congruence |].
      split; [left; reflexivity | reflexivity].
  - a_cuerpo I.
    destruct (descifrar_cuerpo_errores cifrados d n w) as [H1 H2].
    split; [| exact H2].
    destruct (fst (descifrar_cuerpo cifrados d n w)); auto.
Qed.

(** X7.  Without a public key the pairing check is skipped: the outcome is
    the one obtained with any public key of the same modulus (the public
    exponent is never looked at), and it is never the key-mismatch error,
    however wrong the private key is. *)
Theorem descifrar_sin_publica (cifrados : list Z) (d n e_pub : Z) (w : world) :
  descifrar_mensaje cifrados (d, n) None w
  = descifrar_mensaje cifrados (d, n) (Some (e_pub, n)) w /\
  fst (descifrar_mensaje cifrados (d, n) None w) <> Raise KeyMismatch.
Proof.
  split.
  - a_cuerpo I.
    a_cuerpo (eq_refl n). reflexivity.
  - a_cuerpo I.
    destruct (descifrar_cuerpo_errores cifrados d n w) as [H1 _].
    destruct (fst (descifrar_cuerpo cifrados d n w)) as [t | ex |];
      try discriminate.
    destruct H1 as [m ->]. unfold KeyMismatch. cbn. discriminate.
Qed.

(** The loop over the cipher blocks under a positive modulus and a
    non-negative exponent, with the blocks and the world it leaves. *)
Lemma descifrar_bloques_mundo (cifrados : list Z) (d n : Z) :
  0 <= d -> 0 < n ->
  forall acc w,
    exists bloques,
      Forall2 (fun c b => bloque_de_entero (c ^ d mod n) = Ret b)
              cifrados bloques /\
      descifrar_bloques cifrados d n acc w
      = (Ret (acc ++ bloques),
         {| entropy := entropy w;
            pow_calls := List.length cifrados + pow_calls w |}).
Proof.
  intros Hd Hn. induction cifrados as [| c cifrados IH]; intros acc w.
  - exists []. split; [constructor |].
    cbn. rewrite app_nil_r. destruct w; reflexivity.
  - cbn [descifrar_bloques]. unfold bind, lift.
    rewrite pow3_spec by assumption.
    pose proof (Z.mod_pos_bound (c ^ d) n Hn) as Hm.
    destruct (int_from_bytes_onto (c ^ d mod n) ltac:(lia)) as [b0 Eb0].
    assert (Eb : bloque_de_entero (c ^ d mod n) = Ret (sin_ceros b0)).
    { rewrite <- Eb0. apply bloque_de_entero_int_from_bytes. }
    rewrite Eb.
    destruct (IH (acc ++ [sin_ceros b0])
                {| entropy := entropy w; pow_calls := S (pow_calls w) |})
      as (bloques & HF & E).
    exists (sin_ceros b0 :: bloques). split; [constructor; assumption |].
    rewrite E, <- app_assoc. cbn [entropy pow_calls List.length app].
    f_equal. f_equal. lia.
Qed.

(** X8.  Under a private key with a positive modulus and a non-negative
    exponent, and with the key check passed, [descifrar_mensaje] accepts
    every list of integers as ciphertext, negative or above the modulus as
    they may be: block [i] is the minimal byte string of [c ^ d mod n], one
    [pow] is performed per cipher block, and the only failure left is the
    empty-result error. *)
Theorem descifrar_mensaje_total (cifrados : list Z) (d n : Z)
    (publica : option clave) (w : world) :
  0 <= d -> 0 < n ->
  match publica with Some (_, n_pub) => n_pub = n | None => True end ->
  exists bloques,
    Forall2 (fun c b => bloque_de_entero (c ^ d mod n) = Ret b)
            cifrados bloques /\
    descifrar_mensaje cifrados (d, n) publica w
    = (if forallb isspace (bytes_decode_utf8_replace (List.concat bloques))
       then Raise EmptyResult
       else Ret (bytes_decode_utf8_replace (List.concat bloques)),
       {| entropy := entropy w;
          pow_calls := List.length cifrados + pow_calls w |}).
Proof.
  intros Hd Hn Hk.
  destruct (descifrar_bloques_mundo cifrados d n Hd Hn [] w)
    as (bloques & HF & E).
  exists bloques. split; [exact HF |].
  cbn [app] in E.
  exact (descifrar_mensaje_bloques cifrados d n publica w _ bloques Hk E).
Qed.

Lemma descifrar_mensaje_total_witness :
  exists bloques,
    Forall2 (fun c b => bloque_de_entero (c ^ 9473 mod 48443) = Ret b)
            [-7; 17667; 100000] bloques /\
    descifrar_mensaje [-7; 17667; 100000] (9473, 48443) None (mundo [])
    = (if forallb isspace (bytes_decode_utf8_replace (List.concat bloques))
       then Raise EmptyResult
       else Ret (bytes_decode_utf8_replace (List.concat bloques)),
       {| entropy := entropy (mundo []);
          pow_calls := List.length [-7; 17667; 100000] + pow_calls (mundo []) |}).
Proof.
  apply (descifrar_mensaje_total [-7; 17667; 100000] 9473 48443 None (mundo []));
    [lia | lia | exact I].
Defined.

(** X9.  A private key with modulus 0 decrypts nothing: when the key check
    passes and there is at least one cipher block, [descifrar_mensaje]
    fails on the first [pow] with that built-in's error, wrapped. *)
Theorem descifrar_modulo_cero (c : Z) (cifrados : list Z) (d : Z)
    (publica : option clave) (w : world) :
  match publica with Some (_, n_pub) => n_pub = 0 | None => True end ->
  descifrar_mensaje (c :: cifrados) (d, 0) publica w
  = (Raise (ValueError "Error al descifrar: pow() 3rd argument cannot be 0 - ¿Las llaves no coinciden?"),
     {| entropy := entropy w; pow_calls := S (pow_calls w) |}).
Proof.
  intros Hk. a_cuerpo Hk.
  reflexivity.
Qed.

Lemma descifrar_modulo_cero_witness :
  descifrar_mensaje [5; 6] (3, 0) (Some (7, 0)) (mundo [])
  = (Raise (ValueError "Error al descifrar: pow() 3rd argument cannot be 0 - ¿Las llaves no coinciden?"),
     {| entropy := entropy (mundo []); pow_calls := S (pow_calls (mundo [])) |}).
Proof.
  apply (descifrar_modulo_cero 5 [6] 3 (Some (7, 0)) (mundo [])). reflexivity.
Defined.

(* ================================================================== *)
(** ** More about the primality test *)

(** X10.  A [False] from [es_primo] is always right: whatever the number
    of rounds and the witnesses drawn, no prime is ever rejected. *)
Theorem es_primo_rechazo_cierto (n : Z) (k : option Z) (w : world) :
  fst (es_primo n k w) = Ret false -> ~ Z.prime n.
Proof.
  intros H Hp. rewrite (es_primo_acepta_primos n k w Hp) in H. discriminate H.
Qed.

Lemma es_primo_rechazo_cierto_witness :
  fst (es_primo 25 None (mundo [0])) = Ret false /\ ~ Z.prime 25.
Proof.
  split; [reflexivity |].
  apply (es_primo_rechazo_cierto 25 None (mundo [0])). reflexivity.
Defined.

(** X11.  What the rounds compute.  For [n > 3], [es_primo] answers [True]
    exactly when [n] is a strong probable prime to every base it draws:
    for the witness [a] of each round, with [n - 1 = d * 2 ^ s] and [d]
    odd, [a ^ d] is 1 or some [a ^ (d * 2 ^ r)], [r < s], is -1 modulo
    [n]. *)
Theorem es_primo_caracterizado (n : Z) (k : option Z) (w : world) :
  3 < n ->
  fst (es_primo n k w) = Ret true <->
  forall i, (i < Z.to_nat (match k with Some k => k | None => 5 end))%nat ->
            pasa n (testigo n w i).
Proof.
  intros Hn. rewrite (es_primo_rondas_iff n k w Hn). split.
  - intros H i Hi. apply ronda_pasa; [exact Hn | exact (H i Hi)].
  - intros H i Hi. apply ronda_pasa; [exact Hn | exact (H i Hi)].
Qed.

Lemma es_primo_caracterizado_witness :
  fst (es_primo 25 (Some 2) (mundo [5; 5])) = Ret true <->
  forall i, (i < Z.to_nat 2)%nat -> pasa 25 (testigo 25 (mundo [5; 5]) i).
Proof.
  apply (es_primo_caracterizado 25 (Some 2) (mundo [5; 5])). lia.
Defined.

(** X12.  More rounds never turn a rejection into an acceptance: if
    [es_primo] accepts [n] with [k] rounds, it accepts it with any smaller
    number of rounds in the same world. *)
Theorem es_primo_menos_rondas (n k j : Z) (w : world) :
  fst (es_primo n (Some k) w) = Ret true -> j <= k ->
  fst (es_primo n (Some j) w) = Ret true.
Proof.
  intros H Hj. destruct (Z_le_gt_dec n 3) as [Hs | Hb].
  - unfold es_primo in *.
    destruct (n <=? 1); [exact H |].
    destruct (Z.leb_spec n 3); [reflexivity | lia].
  - rewrite es_primo_rondas_iff in * by lia.
    intros i Hi. apply H. lia.
Qed.

Lemma es_primo_menos_rondas_witness :
  fst (es_primo 25 (Some 1) (mundo [5; 5])) = Ret true.
Proof.
  apply (es_primo_menos_rondas 25 2 1 (mundo [5; 5])); [reflexivity | lia].
Defined.

(** X13.  With no round to run, every number above 3 is declared prime:
    for [k <= 0] the loop over [range(k)] is empty and [es_primo] returns
    [True] without drawing a witness or computing a power. *)
Theorem es_primo_sin_rondas (n k : Z) (w : world) :
  3 < n -> k <= 0 -> es_primo n (Some k) w = (Ret true, w).
Proof.
  intros Hn Hk. rewrite es_primo_rondas by lia.
  replace (Z.to_nat k) with 0%nat by lia. reflexivity.
Qed.

Lemma es_primo_sin_rondas_witness :
  es_primo 9 (Some 0) (mundo []) = (Ret true, mundo []).
Proof.
  apply (es_primo_sin_rondas 9 0 (mundo [])); lia.
Defined.

(* ================================================================== *)
(** ** More about generating primes and keys *)

(** Without a bit to set, [generar_primo] fails before it draws. *)
Lemma generar_primo_sin_bits (fuel : nat) (bits : Z) (w : world) :
  bits <= 0 ->
  exists m, generar_primo (S fuel) (Some bits) w = (Raise (ValueError m), w).
Proof.
  intros Hle. unfold generar_primo. cbn [generar_primo_loop].
  unfold bind, getrandbits, lshift.
  destruct (Z.ltb_spec bits 0); [eexists; reflexivity |].
  destruct (Z.eqb_spec bits 0) as [-> |]; [| lia].
  eexists; reflexivity.
Qed.

(** X14.  [generar_primo] needs at least 2 bits: with fewer it never
    returns a value.  For [bits <= 0] it fails at once with a [ValueError]
    (of [getrandbits] or of the shift), leaving the random source alone;
    for [bits = 1] the only candidate is 1 and the loop goes on forever. *)
Theorem generar_primo_pocos_bits (fuel : nat) (bits : Z) (w : world) :
  bits < 2 ->
  (forall p w', generar_primo fuel (Some bits) w <> (Ret p, w')) /\
  (bits <= 0 -> (0 < fuel)%nat ->
   exists m, generar_primo fuel (Some bits) w = (Raise (ValueError m), w)) /\
  (bits = 1 -> fst (generar_primo fuel (Some bits) w) = Diverge).
Proof.
  intros Hb.
  assert (H0 : bits <= 0 -> (0 < fuel)%nat ->
               exists m, generar_primo fuel (Some bits) w
                         = (Raise (ValueError m), w)).
  { intros Hle Hf. destruct fuel as [| fuel]; [lia |].
    now apply generar_primo_sin_bits. }
  assert (H1 : bits = 1 -> fst (generar_primo fuel (Some bits) w) = Diverge).
  { intros ->. apply generar_primo_un_bit. }
  split; [| split; assumption].
  intros p w' E.
  destruct (Z.eq_dec bits 1) as [E1 | N1].
  - rewrite E in H1. discriminate (H1 E1).
  - destruct fuel as [| fuel]; [discriminate E |].
    destruct (H0 ltac:(lia) ltac:(lia)) as [m Em].
    rewrite Em in E. discriminate E.
Qed.

Lemma generar_primo_pocos_bits_witness :
  exists m, generar_primo 3 (Some 0) (mundo [64])
            = (Raise (ValueError m), mundo [64]).
Proof.
  apply (proj1 (proj2 (generar_primo_pocos_bits 3 0 (mundo [64]) ltac:(lia))));
    lia.
Defined.

(** X15.  [generar_primo] returns the first candidate when it is prime:
    with one iteration of fuel or more, if the number built from the first
    draw (top and bottom bits forced) is a prime, that number is
    returned. *)
Theorem generar_primo_primer_candidato (fuel : nat) (bits : Z) (w : world) :
  1 <= bits ->
  Z.prime (Z.lor (entropy w 0%nat mod 2 ^ bits) (Z.lor (2 ^ (bits - 1)) 1)) ->
  exists w',
    generar_primo (S fuel) (Some bits) w
    = (Ret (Z.lor (entropy w 0%nat mod 2 ^ bits) (Z.lor (2 ^ (bits - 1)) 1)), w').
Proof.
  intros Hb Hp. unfold generar_primo. cbn [generar_primo_loop].
  unfold bind, getrandbits, lshift.
  destruct (Z.ltb_spec bits 0); [lia |].
  destruct (Z.eqb_spec bits 0); [lia |].
  unfold bind, draw, ret.
  destruct (Z.ltb_spec (bits - 1) 0); [lia |].
  rewrite Z.shiftl_1_l.
  match goal with
  | |- context [es_primo ?c None ?v] =>
      pose proof (es_primo_acepta_primos c None v Hp) as Ha;
      destruct (es_primo c None v) as [[b | ex |] w2]; cbn [fst] in Ha;
      try discriminate Ha
  end.
  injection Ha as ->. eexists. reflexivity.
Qed.

Lemma generar_primo_primer_candidato_witness :
  exists w', generar_primo 1 (Some 8) (mundo [64])
             = (Ret (Z.lor (entropy (mundo [64]) 0%nat mod 2 ^ 8)
                           (Z.lor (2 ^ (8 - 1)) 1)), w').
Proof.
  apply (generar_primo_primer_candidato 0 8 (mundo [64])).
  - lia.
  - exact primo_193.
Defined.

(** The sizes of what [generar_claves] returns. *)
Lemma generar_claves_tamano (fuel : nat) (bits : Z) (w w' : world)
    (e n d n' : Z) :
  generar_claves fuel (Some bits) w = (Ret ((e, n), (d, n')), w') ->
  2 <= bits / 2 /\
  (bit_length n = 2 * (bits / 2) - 1 \/ bit_length n = 2 * (bits / 2)) /\
  Z.odd n = true /\ 2 <= e /\ 0 < d < n.
Proof.
  intros E.
  pose proof (generar_claves_inv fuel (Some bits) w w' (e, n) (d, n') E) as H.
  cbv zeta in H.
  destruct H as (p & q & e' & w1 & w2 & Hp & Hq & Hp3 & Hq3 & Epub & Epriv
                 & Hg & _ & He).
  clear E. injection Epub as <- ->. injection Epriv as -> _.
  unfold generar_primo in Hp, Hq.
  apply generar_primo_loop_inv in Hp. apply generar_primo_loop_inv in Hq.
  destruct Hp as (Hk & Hpo & Hpl & _). destruct Hq as (_ & Hqo & Hql & _).
  set (k := bits / 2) in *.
  pose proof (bit_length_bounds p ltac:(lia)) as Bp.
  pose proof (bit_length_bounds q ltac:(lia)) as Bq.
  rewrite Hpl in Bp. rewrite Hql in Bq.
  assert (Hk2 : 2 <= k).
  { destruct (Z.eq_dec k 1) as [E1 |]; [| lia].
    rewrite E1 in Bp. change (2 ^ 1) with 2 in Bp. lia. }
  assert (Hlo : 0 < 2 ^ (k - 1)) by (apply Z.pow_pos_nonneg; lia).
  assert (Hn : 2 ^ (2 * k - 2) <= p * q < 2 ^ (2 * k)).
  { replace (2 * k - 2) with ((k - 1) + (k - 1)) by lia.
    replace (2 * k) with (k + k) by lia.
    rewrite !Z.pow_add_r by lia. nia. }
  repeat split.
  - exact Hk2.
  - destruct (Z_lt_le_dec (p * q) (2 ^ (2 * k - 1))) as [Hs | Hb].
    + left. apply bit_length_unique; [lia |].
      replace (2 * k - 1 - 1) with (2 * k - 2) by lia. lia.
    + right. apply bit_length_unique; lia.
  - rewrite Z.odd_mul, Hpo, Hqo. reflexivity.
  - exact He.
  - set (phi := (p - 1) * (q - 1)) in *.
    assert (Hphi : 2 <= phi) by (subst phi; nia).
    pose proof (Z.invmod_coprime e phi Hphi Hg) as Hinv.
    pose proof (Z.mod_pos_bound (Z.invmod e phi) phi ltac:(lia)) as Hd.
    rewrite Z.mod_invmod in Hd.
    destruct (Z.eq_dec (Z.invmod e phi) 0) as [E0 |]; [| lia].
    rewrite E0, Z.mul_0_l, Z.mod_0_l in Hinv by lia. discriminate Hinv.
  - set (phi := (p - 1) * (q - 1)) in *.
    pose proof (Z.mod_pos_bound (Z.invmod e phi) phi ltac:(subst phi; nia)) as Hd.
    rewrite Z.mod_invmod in Hd. subst phi. nia.
Qed.

(** X16.  The shape of the keys [generar_claves] returns.  It returns only
    for [bits // 2 >= 2]; the modulus is odd and has [2 * (bits // 2)]
    bits or one bit fewer; the public exponent is at least 2 and the
    private exponent lies strictly between 0 and the modulus. *)
Theorem generar_claves_forma (fuel : nat) (bits : Z) (w w' : world)
    (e n d n' : Z) :
  generar_claves fuel (Some bits) w = (Ret ((e, n), (d, n')), w') ->
  2 <= bits / 2 /\
  (bit_length n = 2 * (bits / 2) - 1 \/ bit_length n = 2 * (bits / 2)) /\
  Z.odd n = true /\ 2 <= e /\ 0 < d < n.
Proof. exact (generar_claves_tamano fuel bits w w' e n d n'). Qed.

Lemma generar_claves_forma_witness :
  2 <= 16 / 2 /\
  (bit_length 48443 = 2 * (16 / 2) - 1 \/ bit_length 48443 = 2 * (16 / 2)) /\
  Z.odd 48443 = true /\ 2 <= 65537 /\ 0 < 9473 < 48443.
Proof.
  apply (generar_claves_forma 3 16 (mundo [64; 0; 0; 0; 0; 0; 122])
           (snd (generar_claves 3 (Some 16) (mundo [64; 0; 0; 0; 0; 0; 122])))
           65537 48443 9473 48443).
  vm_compute. reflexivity.
Defined.

(** X17.  A key pair that [generar_claves] returns for [bits >= 18]
    encrypts every text: the modulus has at least 17 bits, so the block
    size is positive and [cifrar_mensaje] returns cipher blocks, each in
    [0, n). *)
Theorem claves_de_18_bits_cifran (fuel : nat) (bits : Z) (w w' w1 : world)
    (publica privada : clave) (mensaje : pystr) :
  generar_claves fuel (Some bits) w = (Ret (publica, privada), w') ->
  18 <= bits -> es_texto mensaje ->
  exists cifrados w2,
    cifrar_mensaje mensaje publica w1 = (Ret cifrados, w2) /\
    Forall (fun c => 0 <= c < snd publica) cifrados.
Proof.
  intros E Hbits Htxt.
  destruct publica as [e n]. destruct privada as [d n'].
  destruct (generar_claves_tamano fuel bits w w' e n d n' E)
    as (_ & Hbl & _ & He & Hd).
  assert (Hk : 9 <= bits / 2).
  { pose proof (Z.div_mod bits 2). pose proof (Z.mod_pos_bound bits 2). lia. }
  destruct (cifrar_mensaje_bloques mensaje e n w1 Htxt ltac:(lia) ltac:(lia)
              ltac:(lia)) as (bytes_msg & bloques & _ & _ & Ec & Hr).
  eexists _, _. split; [exact Ec | exact Hr].
Qed.

Lemma claves_de_18_bits_cifran_witness :
  exists cifrados w2,
    cifrar_mensaje [104; 111; 108; 97] (65537, 70747) (mundo [])
    = (Ret cifrados, w2) /\
    Forall (fun c => 0 <= c < snd (65537, 70747)) cifrados.
Proof.
  apply (claves_de_18_bits_cifran 3 18 (mundo [6; 0; 0; 0; 0; 0; 12])
           (snd (generar_claves 3 (Some 18) (mundo [6; 0; 0; 0; 0; 0; 12])))
           (mundo []) (65537, 70747) (36241, 70747) [104; 111; 108; 97]).
  - vm_compute. reflexivity.
  - lia.
  - repeat constructor; unfold escalar; lia.
Defined.

(** What a returned key pair over two distinct primes is made of. *)
Lemma claves_rsa (fuel : nat) (bits : option Z) (w w' : world)
    (publica privada : clave) (p q : Z) :
  generar_claves fuel bits w = (Ret (publica, privada), w') ->
  Z.prime p -> Z.prime q -> p <> q -> snd publica = p * q ->
  exists e d n,
    publica = (e, n) /\ privada = (d, n) /\ 0 <= e /\ 0 <= d /\ 0 < n /\
    forall m, 0 <= m < n -> (m ^ e mod n) ^ d mod n = m.
Proof.
  intros Hgen Hp Hq Hne Hn.
  apply generar_claves_inv in Hgen.
  destruct Hgen as (p0 & q0 & e & _ & _ & _ & _ & Hp0 & Hq0 & -> & -> & Hg & _ & He).
  cbn [snd] in Hn.
  exists e, (Z.invmod e ((p0 - 1) * (q0 - 1))), (p0 * q0).
  assert (Hphi : 2 <= (p0 - 1) * (q0 - 1)) by nia.
  assert (Hd : 0 <= Z.invmod e ((p0 - 1) * (q0 - 1))).
  { rewrite <- Z.mod_invmod. apply Z.mod_pos_bound. lia. }
  assert (Hed : (e * Z.invmod e ((p0 - 1) * (q0 - 1))) mod ((p0 - 1) * (q0 - 1)) = 1).
  { rewrite Z.mul_comm. now apply Z.invmod_coprime. }
  repeat split; try reflexivity; try lia; try nia.
  intros m Hm.
  destruct (factores_primos p0 q0 p q Hp Hq ltac:(lia) ltac:(lia) Hn)
    as [[-> ->] | [-> ->]]; apply rsa_vuelta; try assumption; lia.
Qed.

(** Decrypting what was encrypted gives every block back without its
    leading zero bytes. *)
Lemma descifrar_bloques_sin_ceros (e d n : Z) (bloques : list bytes) :
  0 <= d -> 0 < n ->
  (forall m, 0 <= m < n -> (m ^ e mod n) ^ d mod n = m) ->
  Forall (fun b => int_from_bytes b < n) bloques ->
  forall acc w,
    exists w',
      descifrar_bloques (map (fun b => int_from_bytes b ^ e mod n) bloques)
        d n acc w
      = (Ret (acc ++ map sin_ceros bloques), w').
Proof.
  intros Hd Hn Hrsa. induction 1 as [| b bloques Hb _ IH]; intros acc w.
  - exists w. cbn. now rewrite app_nil_r.
  - cbn [descifrar_bloques map].
    unfold bind, lift. rewrite pow3_spec by assumption.
    rewrite Hrsa by (pose proof (int_from_bytes_range b); lia).
    rewrite bloque_de_entero_int_from_bytes.
    destruct (IH (acc ++ [sin_ceros b])
                {| entropy := entropy w; pow_calls := S (pow_calls w) |})
      as (w' & E).
    exists w'. rewrite E, <- app_assoc. reflexivity.
Qed.

(** X18.  The round trip in general.  Under a key pair returned by
    [generar_claves] whose modulus is the product of two distinct primes
    and has at least 16 bits, encrypting a text and decrypting the result
    yields the text decoded from the plaintext blocks once each block has
    lost its leading zero bytes (or the empty-result error when that text
    is blank): a zero byte at the start of a block is dropped, nothing else
    changes. *)
Theorem ida_y_vuelta_con_perdida (fuel : nat) (bits : option Z)
    (w w' w1 : world) (publica privada : clave) (p q : Z) (mensaje : pystr) :
  generar_claves fuel bits w = (Ret (publica, privada), w') ->
  Z.prime p -> Z.prime q -> p <> q -> snd publica = p * q ->
  16 <= bit_length (snd publica) ->
  es_texto mensaje ->
  exists bytes_msg bloques cifrados w2 w3,
    str_encode_utf8 mensaje = Ret bytes_msg /\
    bloques_de bytes_msg (bloque_max (snd publica)) w1 = (Ret bloques, w1) /\
    cifrar_mensaje mensaje publica w1 = (Ret cifrados, w2) /\
    descifrar_mensaje cifrados privada (Some publica) w2
    = (if forallb isspace
            (bytes_decode_utf8_replace (List.concat (map sin_ceros bloques)))
       then Raise EmptyResult
       else Ret (bytes_decode_utf8_replace
                   (List.concat (map sin_ceros bloques))), w3).
Proof.
  intros Hgen Hp Hq Hne Hn Hbits Htxt.
  destruct (claves_rsa fuel bits w w' publica privada p q Hgen Hp Hq Hne Hn)
    as (e & d & n & -> & -> & He & Hd & Hpos & Hrsa).
  cbn [snd] in *.
  destruct (cifrar_mensaje_bloques mensaje e n w1 Htxt He ltac:(lia) Hbits)
    as (bytes_msg & bloques & Eenc & Ebl & Ec & _).
  assert (HL : 0 < bloque_max n).
  { unfold bloque_max.
    pose proof (Z.div_mod (bit_length n) 8).
    pose proof (Z.mod_pos_bound (bit_length n) 8). lia. }
  assert (Hlt : Forall (fun b => int_from_bytes b < n) bloques).
  { destruct (bloques_de_pos bytes_msg (bloque_max n) w1 HL)
      as (bloques' & Ebl' & _ & Hlen).
    rewrite Ebl in Ebl'. injection Ebl' as <-.
    eapply Forall_impl; [| exact Hlen].
    intros b Hb. apply bloque_bajo_modulo; [lia | exact Hb]. }
  destruct (descifrar_bloques_sin_ceros e d n bloques Hd Hpos Hrsa Hlt []
              {| entropy := entropy w1;
                 pow_calls := List.length bloques + pow_calls w1 |})
    as (w3 & Edes).
  cbn [app] in Edes.
  eexists bytes_msg, bloques, _, _, w3.
  split; [exact Eenc | split; [exact Ebl | split; [exact Ec |]]].
  apply (descifrar_mensaje_bloques _ d n (Some (e, n)) _ w3 _ eq_refl Edes).
Qed.

Lemma ida_y_vuelta_con_perdida_witness :
  exists bytes_msg bloques cifrados w2 w3,
    str_encode_utf8 [0; 65] = Ret bytes_msg /\
    bloques_de bytes_msg (bloque_max (snd (65537, 48443))) (mundo [])
    = (Ret bloques, mundo []) /\
    cifrar_mensaje [0; 65] (65537, 48443) (mundo []) = (Ret cifrados, w2) /\
    descifrar_mensaje cifrados (9473, 48443) (Some (65537, 48443)) w2
    = (if forallb isspace
            (bytes_decode_utf8_replace (List.concat (map sin_ceros bloques)))
       then Raise EmptyResult
       else Ret (bytes_decode_utf8_replace
                   (List.concat (map sin_ceros bloques))), w3).
Proof.
  apply (ida_y_vuelta_con_perdida 3 (Some 16) (mundo [64; 0; 0; 0; 0; 0; 122])
           (snd (generar_claves 3 (Some 16) (mundo [64; 0; 0; 0; 0; 0; 122])))
           (mundo []) (65537, 48443) (9473, 48443) 193 251 [0; 65]).
  - vm_compute. reflexivity.
  - exact primo_193.
  - exact primo_251.
  - lia.
  - reflexivity.
  - vm_compute. discriminate.
  - repeat constructor; unfold escalar; lia.
Defined.

(** A zero byte at the head of a block is lost: the two-character text
    NUL, "A" comes back as "A". *)
Example nulo_perdido :
  let cifrado := cifrar_mensaje [0; 65] (65537, 48443) (mundo []) in
  fst cifrado = Ret [0; 18391] /\
  fst (descifrar_mensaje [0; 18391] (9473, 48443) (Some (65537, 48443))
         (snd cifrado)) = Ret [65].
Proof. vm_compute. split; reflexivity. Qed.

(* ================================================================== *)
(** ** The shell *)

(** The menu is printed whatever the console holds; the world of the core
    and the pending input are not touched. *)
Lemma mostrar_menu_efecto (c : consola) :
  exists out,
    mostrar_menu c
    = (Hecho tt, {| mundo_de := mundo_de c; entrada := entrada c;
                    salida := salida c ++ out |}).
Proof.
  eexists. unfold mostrar_menu, bindc, print. cbn [mundo_de entrada salida].
  rewrite <- !app_assoc. cbn [app]. reflexivity.
Qed.

(** The start of an iteration: the menu, the prompt, and the line read. *)
Lemma main_iteracion_opcion (int_ : pystr -> Z + string) (fuel : nat)
    (s : sesion) (c : consola) (opcion : pystr) (resto : list pystr) :
  entrada c = opcion :: resto ->
  exists out,
    main_iteracion int_ fuel s c
    = (r <-- (if str_eqb opcion (lit "1") then opcion_1 int_ fuel
              else if str_eqb opcion (lit "2") then opcion_2 s
              else if str_eqb opcion (lit "3") then opcion_3 int_ s
              else if str_eqb opcion (lit "4") then opcion_4 int_ s
              else if str_eqb opcion (lit "5") then opcion_5 s
              else if str_eqb opcion (lit "6") then opcion_6 int_ s
              else if str_eqb opcion (lit "7") then
                _ <-- print (nl ++ lit "¡Hasta luego!") ;;
                retc (Break, s)
              else
                _ <-- print (lit "[!] Opción inválida") ;;
                retc (Sigue, s)) ;;
       match fst r with
       | Sigue =>
           _ <-- input_ (nl ++ lit "Presione Enter para continuar...") ;;
           retc r
       | _ => retc r
       end)
        {| mundo_de := mundo_de c; entrada := resto; salida := salida c ++ out |}.
Proof.
  intros He. destruct (mostrar_menu_efecto c) as [out Em].
  exists (out ++ [lit "Seleccione una opción (1-7): "]).
  unfold main_iteracion. unfold bindc at 1. rewrite Em.
  unfold bindc at 1. unfold input_ at 1. cbn [mundo_de entrada salida].
  rewrite He, <- app_assoc. reflexivity.
Qed.

(** X19.  Typing something that is not a number at the key-size prompt of
    option 1, or at the number prompt of option 6, ends the program: the
    [ValueError] of [int] is raised outside every [try] and leaves
    [main]. *)
Theorem main_muere_sin_numero (int_ : pystr -> Z + string)
    (vueltas fuel : nat) (s : sesion) (c : consola)
    (opcion t : pystr) (resto : list pystr) (m : string) :
  opcion = lit "1" \/ opcion = lit "6" ->
  entrada c = opcion :: t :: resto ->
  int_ t = inr m ->
  fst (main_bucle int_ (S vueltas) fuel s c)
  = Falla (Excepcion (ValueError m)).
Proof.
  intros Ho He Ht. cbn [main_bucle]. unfold bindc at 1.
  destruct (main_iteracion_opcion int_ fuel s c opcion (t :: resto) He)
    as [out ->].
  destruct Ho as [-> | ->].
  - change (str_eqb (lit "1") (lit "1")) with true. cbv iota.
    unfold bindc at 1. unfold opcion_1. unfold bindc at 1.
    unfold input_ at 1. cbn [mundo_de entrada salida].
    unfold bindc at 1. unfold int_c. rewrite Ht. reflexivity.
  - change (str_eqb (lit "6") (lit "1")) with false.
    change (str_eqb (lit "6") (lit "2")) with false.
    change (str_eqb (lit "6") (lit "3")) with false.
    change (str_eqb (lit "6") (lit "4")) with false.
    change (str_eqb (lit "6") (lit "5")) with false.
    change (str_eqb (lit "6") (lit "6")) with true. cbv iota.
    unfold bindc at 1. unfold opcion_6. unfold bindc at 1.
    unfold input_ at 1. cbn [mundo_de entrada salida].
    unfold bindc at 1. unfold int_c. rewrite Ht. reflexivity.
Qed.

Lemma main_muere_sin_numero_witness :
  fst (main_bucle int_decimal 5 3 (None, None)
         (consola_con (mundo []) [lit "1"; lit "abc"; lit "7"]))
  = Falla (Excepcion (ValueError "invalid literal for int() with base 10")).
Proof.
  apply (main_muere_sin_numero int_decimal 4 3 (None, None)
           (consola_con (mundo []) [lit "1"; lit "abc"; lit "7"])
           (lit "1") (lit "abc") [lit "7"]).
  - left. reflexivity.
  - reflexivity.
  - reflexivity.
Defined.

Lemma bindc_inv {A B} (m : C A) (k : A -> C B) (c c' : consola) (b : B) :
  bindc m k c = (Hecho b, c') ->
  exists a c1, m c = (Hecho a, c1) /\ k a c1 = (Hecho b, c').
Proof.
  unfold bindc. destruct (m c) as [[a | f |] c1]; try discriminate.
  intros H. exists a, c1. split; [reflexivity | exact H].
Qed.

(** Peels the binds off a computation that ended well, down to its last
    statement. *)
Ltac pelar H :=
  repeat (apply bindc_inv in H;
          let a := fresh "a" in
          let c1 := fresh "c" in
          let Hm := fresh "Hm" in
          destruct H as (a & c1 & Hm & H)).

Lemma retc_sesion (ctl ctl' : control) (s s' : sesion) (c c' : consola) :
  retc (ctl, s) c = (Hecho (ctl', s'), c') -> s' = s /\ ctl' = ctl.
Proof. unfold retc. intros [= <- <- _]. split; reflexivity. Qed.

(** Every option but the first hands the session back as it got it. *)
Lemma opciones_conservan (int_ : pystr -> Z + string) (s : sesion)
    (opcion : pystr) (c c' : consola) (ctl : control) (s' : sesion) :
  (if str_eqb opcion (lit "2") then opcion_2 s
   else if str_eqb opcion (lit "3") then opcion_3 int_ s
   else if str_eqb opcion (lit "4") then opcion_4 int_ s
   else if str_eqb opcion (lit "5") then opcion_5 s
   else if str_eqb opcion (lit "6") then opcion_6 int_ s
   else if str_eqb opcion (lit "7") then
     _ <-- print (nl ++ lit "¡Hasta luego!") ;;
     retc (Break, s)
   else
     _ <-- print (lit "[!] Opción inválida") ;;
     retc (Sigue, s)) c = (Hecho (ctl, s'), c') ->
  s' = s.
Proof.
  intros H.
  destruct (str_eqb opcion (lit "2")).
  { unfold opcion_2 in H. destruct (fst s); pelar H;
      apply retc_sesion in H; tauto. }
  destruct (str_eqb opcion (lit "3")).
  { unfold opcion_3 in H. destruct (snd s); pelar H;
      apply retc_sesion in H; tauto. }
  destruct (str_eqb opcion (lit "4")).
  { unfold opcion_4 in H. pelar H. apply retc_sesion in H; tauto. }
  destruct (str_eqb opcion (lit "5")).
  { unfold opcion_5 in H. pelar H. apply retc_sesion in H; tauto. }
  destruct (str_eqb opcion (lit "6")).
  { unfold opcion_6 in H. pelar H. apply retc_sesion in H; tauto. }
  destruct (str_eqb opcion (lit "7")); pelar H;
    apply retc_sesion in H; tauto.
Qed.

Lemma nucleo_inv {A} (m : M A) (c c' : consola) (a : A) :
  nucleo m c = (Hecho a, c') ->
  m (mundo_de c) = (Ret a, mundo_de c').
Proof.
  unfold nucleo. destruct (m (mundo_de c)) as [[x | ex |] w];
    intros [= <- <-]; reflexivity.
Qed.

(** The last step of an iteration gives back what the option returned. *)
Lemma cola_iteracion (r r' : control * sesion) (c c' : consola) :
  match fst r with
  | Sigue =>
      _ <-- input_ (nl ++ lit "Presione Enter para continuar...") ;;
      retc r
  | _ => retc r
  end c = (Hecho r', c') -> r' = r.
Proof.
  destruct (fst r); intros H.
  - pelar H. unfold retc in H. now injection H as <- _.
  - unfold retc in H. now injection H as <- _.
  - unfold retc in H. now injection H as <- _.
Qed.

(** What an iteration that ends does to the session: nothing, unless
    option 1 was chosen; then both keys are the pair [generar_claves]
    returned for the size typed, public key first. *)
Lemma main_iteracion_sesion (int_ : pystr -> Z + string) (fuel : nat)
    (s s' : sesion) (c c' : consola) (ctl : control) :
  main_iteracion int_ fuel s c = (Hecho (ctl, s'), c') ->
  (hd_error (entrada c) <> Some (lit "1") -> s' = s) /\
  (hd_error (entrada c) = Some (lit "1") ->
   exists t bits publica privada w',
     nth_error (entrada c) 1 = Some t /\ int_ t = inl bits /\
     generar_claves fuel (Some bits) (mundo_de c)
     = (Ret (publica, privada), w') /\
     s' = (Some publica, Some privada)).
Proof.
  intros H.
  destruct (entrada c) as [| opcion resto] eqn:He.
  { unfold main_iteracion in H. pelar H.
    unfold input_ in Hm0.
    destruct (mostrar_menu_efecto c) as [out Em]. rewrite Em in Hm.
    injection Hm as _ <-. cbn [entrada] in Hm0. rewrite He in Hm0.
    discriminate Hm0. }
  destruct (main_iteracion_opcion int_ fuel s c opcion resto He) as [out E].
  rewrite E in H. clear E.
  apply bindc_inv in H. destruct H as (r & c1 & Hop & Hcola).
  apply cola_iteracion in Hcola. subst r.
  cbn [hd_error nth_error].
  destruct (str_eqb opcion (lit "1")) eqn:E1.
  - assert (opcion = lit "1").
    { unfold str_eqb in E1.
      destruct (list_eq_dec Z.eq_dec opcion (lit "1"));
        [assumption | discriminate]. }
    subst opcion. split; [intros Hno; elim Hno; reflexivity | intros _].
    unfold opcion_1 in Hop.
    apply bindc_inv in Hop. destruct Hop as (t & c2 & Ht & Hop).
    apply bindc_inv in Hop. destruct Hop as (bits & c3 & Hbits & Hop).
    apply bindc_inv in Hop. destruct Hop as (claves & c4 & Hclaves & Hop).
    pelar Hop. apply retc_sesion in Hop. destruct Hop as [-> _].
    unfold input_ in Ht. cbn [entrada mundo_de salida] in Ht.
    destruct resto as [| t' resto']; [discriminate Ht |].
    injection Ht as -> <-.
    unfold int_c in Hbits. destruct (int_ t) as [z | m] eqn:Ez;
      [| discriminate Hbits].
    unfold retc in Hbits. injection Hbits as -> <-.
    apply nucleo_inv in Hclaves. cbn [mundo_de] in Hclaves.
    destruct claves as [publica privada].
    exists t, bits, publica, privada, (mundo_de c4).
    split; [reflexivity |]. split; [exact Ez |]. split; [exact Hclaves |].
    reflexivity.
  - apply opciones_conservan in Hop. subst s'.
    split; [reflexivity |].
    intros [= ->]. discriminate E1.
Qed.

(** The keys of the session belong together all along the loop. *)
Lemma main_tras_sesion_ok (int_ : pystr -> Z + string) (fuel : nat) :
  forall n s c s' c',
    sesion_ok s ->
    main_tras int_ n fuel s c = Some (s', c') ->
    sesion_ok s'.
Proof.
  induction n as [| n IH]; intros s c s' c' Hok H.
  { injection H as <- _. exact Hok. }
  cbn [main_tras] in H.
  destruct (main_iteracion int_ fuel s c) as [[[ctl s1] | f |] c1] eqn:Hit;
    try discriminate H.
  assert (Hok1 : sesion_ok s1).
  { destruct (main_iteracion_sesion int_ fuel s s1 c c1 ctl Hit) as [Hno Hsi].
    assert (Hdec : hd_error (entrada c) = Some (lit "1")
                   \/ hd_error (entrada c) <> Some (lit "1")).
    { destruct (entrada c) as [| o r]; [right; discriminate |].
      cbn [hd_error].
      destruct (list_eq_dec Z.eq_dec o (lit "1")) as [-> | N];
        [left; reflexivity | right; intros [= E]; contradiction]. }
    destruct Hdec as [E | E].
    - destruct (Hsi E) as (t & bits & publica & privada & w' & _ & _ & Eg & ->).
      apply generar_claves_inv in Eg.
      destruct Eg as (p & q & e & _ & _ & _ & _ & _ & _ & -> & -> & _).
      reflexivity.
    - rewrite (Hno E). exact Hok. }
  destruct ctl; try discriminate H; apply (IH s1 c1 s' c' Hok1 H).
Qed.

(** [main_tras] follows the loop of [main]. *)
Lemma main_tras_bucle (int_ : pystr -> Z + string) (fuel : nat) :
  forall n s c s' c',
    main_tras int_ n fuel s c = Some (s', c') ->
    forall m, main_bucle int_ (n + m) fuel s c = main_bucle int_ m fuel s' c'.
Proof.
  induction n as [| n IH]; intros s c s' c' H m.
  { injection H as <- <-. reflexivity. }
  cbn [main_tras] in H. cbn [Nat.add main_bucle]. unfold bindc at 1.
  destruct (main_iteracion int_ fuel s c) as [[[ctl s1] | f |] c1];
    try discriminate H.
  destruct ctl; try discriminate H; cbn [fst snd]; apply IH; exact H.
Qed.

(** X20.  The two keys of the session always belong together.  [main]
    starts without keys; at the top of every iteration its loop gets to,
    the session holds no key or a public and a private key with the same
    modulus.  An iteration that ends leaves the session as it was unless
    option 1 was chosen, and then stores the pair that [generar_claves]
    returned for the size typed, public key first.  Hence, with the keys
    of any session [main] gets to, the call
    [descifrar_mensaje(bloques, clave_privada, clave_publica)] of option 3
    never ends in the key-mismatch error. *)
Theorem sesion_invariante (int_ : pystr -> Z + string) (n fuel : nat)
    (c c1 : consola) (s : sesion) :
  main_tras int_ n fuel (None, None) c = Some (s, c1) ->
  (forall m, main int_ (n + m) fuel c = main_bucle int_ m fuel s c1) /\
  sesion_ok s /\
  (forall ctl s' c',
     main_iteracion int_ fuel s c1 = (Hecho (ctl, s'), c') ->
     (hd_error (entrada c1) <> Some (lit "1") -> s' = s) /\
     (hd_error (entrada c1) = Some (lit "1") ->
      exists t bits publica privada w',
        nth_error (entrada c1) 1 = Some t /\ int_ t = inl bits /\
        generar_claves fuel (Some bits) (mundo_de c1)
        = (Ret (publica, privada), w') /\
        s' = (Some publica, Some privada))) /\
  (forall clave_privada bloques w,
     snd s = Some clave_privada ->
     fst (descifrar_mensaje bloques clave_privada (fst s) w)
     <> Raise KeyMismatch).
Proof.
  intros H.
  assert (Hok : sesion_ok s).
  { apply (main_tras_sesion_ok int_ fuel n (None, None) c s c1); [exact I | exact H]. }
  split; [| split; [exact Hok | split]].
  - intros m. unfold main. apply main_tras_bucle. exact H.
  - intros ctl s' c'. apply main_iteracion_sesion.
  - intros [d n'] bloques w Hs.
    destruct s as [[[e n_pub] |] [priv |]]; cbn [sesion_ok fst snd] in *;
      try contradiction; try discriminate.
    injection Hs as ->. subst n_pub.
    destruct (descifrar_cuerpo_errores bloques d n' w) as [H1 _].
    a_cuerpo (eq_refl n').
    destruct (fst (descifrar_cuerpo bloques d n' w)) as [t | ex |];
      try discriminate.
    destruct H1 as [m ->]. unfold KeyMismatch. cbn. discriminate.
Qed.

Lemma sesion_invariante_witness :
  sesion_ok (Some (65537, 70747), Some (36241, 70747)) /\
  fst (descifrar_mensaje [0; 18391] (36241, 70747) (Some (65537, 70747))
         (mundo []))
  <> Raise KeyMismatch.
Proof.
  pose (c := consola_con (mundo [6; 0; 0; 0; 0; 0; 12])
               [lit "1"; lit "18"; lit ""; lit "3"]).
  pose (c1 := match main_tras int_decimal 1 3 (None, None) c with
              | Some (_, c') => c'
              | None => c
              end).
  destruct (sesion_invariante int_decimal 1 3 c c1
              (Some (65537, 70747), Some (36241, 70747)))
    as (_ & Hok & _ & Hno).
  - vm_compute. reflexivity.
  - split; [exact Hok |].
    apply (Hno (36241, 70747) [0; 18391] (mundo [])). reflexivity.
Defined.

(** *** What can end an iteration *)

Lemma seguro_manso {A} (m : C A) : seguro m -> manso m.
Proof.
  intros H c. specialize (H c).
  destruct (fst (m c)) as [a | [ex |] |]; try exact I; contradiction.
Qed.

Lemma seguro_bind {A B} (m : C A) (k : A -> C B) :
  seguro m -> (forall a, seguro (k a)) -> seguro (bindc m k).
Proof.
  intros Hm Hk c. unfold bindc. specialize (Hm c).
  destruct (m c) as [[a | [ex |] |] c1]; cbn [fst] in *;
    try exact I; try contradiction.
  apply Hk.
Qed.

Lemma manso_bind {A B} (m : C A) (k : A -> C B) :
  manso m -> (forall a, manso (k a)) -> manso (bindc m k).
Proof.
  intros Hm Hk c. unfold bindc. specialize (Hm c).
  destruct (m c) as [[a | [ex |] |] c1]; cbn [fst] in *;
    try exact I; try contradiction; try exact Hm.
  apply Hk.
Qed.

Lemma seguro_except {A} (body : C A) (handler : exn -> C A) :
  manso body -> (forall ex, seguro (handler ex)) ->
  seguro (except_ValueError body handler).
Proof.
  intros Hb Hh c. unfold except_ValueError. specialize (Hb c).
  destruct (body c) as [[a | [ex |] |] c1]; cbn [fst] in *;
    try exact I; try contradiction.
  rewrite Hb. apply Hh.
Qed.

Lemma seguro_retc {A} (a : A) : seguro (retc a).
Proof. intros c. exact I. Qed.

Lemma seguro_print (s : pystr) : seguro (print s).
Proof. intros c. exact I. Qed.

Lemma seguro_input (prompt : pystr) : seguro (input_ prompt).
Proof. intros c. unfold input_. destruct (entrada c); exact I. Qed.

Lemma manso_int_c (int_ : pystr -> Z + string) (s : pystr) :
  manso (int_c int_ s).
Proof. intros c. unfold int_c. destruct (int_ s); [exact I | reflexivity]. Qed.

Lemma manso_mapa_c {A B} (f : A -> C B) (l : list A) :
  (forall x, manso (f x)) -> manso (mapa_c f l).
Proof.
  intros Hf. induction l as [| x l IH]; cbn [mapa_c].
  - apply seguro_manso, seguro_retc.
  - apply manso_bind; [apply Hf |]. intros y.
    apply manso_bind; [exact IH |]. intros ys.
    apply seguro_manso, seguro_retc.
Qed.

Lemma manso_nucleo {A} (m : M A) :
  (forall w, match fst (m w) with
             | Ret _ => True
             | Raise ex => es_ValueError ex = true
             | Diverge => False
             end) ->
  manso (nucleo m).
Proof.
  intros H c. unfold nucleo. specialize (H (mundo_de c)).
  destruct (m (mundo_de c)) as [[a | ex |] w]; cbn [fst] in *;
    [exact I | exact H | contradiction].
Qed.

Lemma manso_descifrar (bloques : list Z) (privada : clave)
    (publica : option clave) :
  manso (nucleo (descifrar_mensaje bloques privada publica)).
Proof.
  apply manso_nucleo. intros w. destruct privada as [d n].
  destruct publica as [[e_pub n_pub] |].
  - destruct (Z.eq_dec n_pub n) as [E | E].
    + a_cuerpo E.
      destruct (descifrar_cuerpo_errores bloques d n w) as [H1 _].
      destruct (fst (descifrar_cuerpo bloques d n w)) as [t | ex |];
        [exact I | | contradiction].
      destruct H1 as [m ->]. reflexivity.
    + unfold descifrar_mensaje, bind.
      destruct (Z.eqb_spec n n_pub); [congruence | reflexivity].
  - a_cuerpo I.
    destruct (descifrar_cuerpo_errores bloques d n w) as [H1 _].
    destruct (fst (descifrar_cuerpo bloques d n w)) as [t | ex |];
      [exact I | | contradiction].
    destruct H1 as [m ->]. reflexivity.
Qed.

Lemma manso_cifrar (mensaje : pystr) (publica : clave) :
  manso (nucleo (cifrar_mensaje mensaje publica)).
Proof.
  apply manso_nucleo. intros w. destruct publica as [e n].
  unfold cifrar_mensaje, try_except, bind, lift.
  pose proof (str_encode_utf8_no_diverge mensaje) as Hnd.
  destruct (str_encode_utf8 mensaje) as [bytes_msg | ex |];
    [| reflexivity | contradiction].
  destruct (bloques_de_mundo bytes_msg (bloque_max n) w) as [[bloques ->] | ->];
    [| reflexivity].
  destruct (cifrar_bloques_quieto bloques e n [] w) as [Hd _].
  destruct (cifrar_bloques bloques e n [] w) as [[cs | ex |] w'];
    cbn [fst] in *; [exact I | reflexivity | contradiction].
Qed.

Ltac manso_paso :=
  first [ apply seguro_manso, seguro_retc
        | apply seguro_manso, seguro_print
        | apply seguro_manso, seguro_input
        | apply manso_int_c
        | apply manso_descifrar
        | apply manso_cifrar
        | apply manso_mapa_c; intros
        | match goal with
          | |- manso (if ?b then _ else _) => destruct b
          end
        | apply manso_bind; [| intros] ].

Ltac seguro_paso :=
  first [ apply seguro_retc
        | apply seguro_print
        | apply seguro_input
        | apply seguro_except; [repeat manso_paso | intros]
        | apply seguro_bind; [| intros] ].

Lemma seguro_opcion_2 (s : sesion) : seguro (opcion_2 s).
Proof.
  unfold opcion_2. destruct (fst s); repeat seguro_paso.
Qed.

Lemma seguro_opcion_3 (int_ : pystr -> Z + string) (s : sesion) :
  seguro (opcion_3 int_ s).
Proof.
  unfold opcion_3, leer_bloques. destruct (snd s); repeat seguro_paso.
Qed.

Lemma seguro_opcion_4 (int_ : pystr -> Z + string) (s : sesion) :
  seguro (opcion_4 int_ s).
Proof.
  unfold opcion_4, leer_bloques.
  destruct s as [[pub |] [priv |]]; repeat seguro_paso.
Qed.

Lemma seguro_opcion_5 (s : sesion) : seguro (opcion_5 s).
Proof.
  unfold opcion_5. apply seguro_bind; [| intros; apply seguro_retc].
  destruct s as [[pub |] [priv |]]; repeat seguro_paso.
Qed.

(** X21.  Only options 1 and 6 can stop the shell with an exception or
    hang it.  Whatever is typed after any other choice -- a malformed
    number or block list in options 3 and 4, a message that cannot be
    encrypted in option 2, an unknown option -- the iteration ends well
    with the session unchanged, or the input ends and [EOFError] is
    raised. *)
Theorem main_iteracion_segura (int_ : pystr -> Z + string) (fuel : nat)
    (s : sesion) (c : consola) (opcion : pystr) (resto : list pystr) :
  entrada c = opcion :: resto ->
  opcion <> lit "1" -> opcion <> lit "6" ->
  match fst (main_iteracion int_ fuel s c) with
  | Hecho r => snd r = s
  | Falla f => f = EOFError
  | SinFin => False
  end.
Proof.
  intros He H1 H6.
  destruct (main_iteracion_opcion int_ fuel s c opcion resto He) as [out E].
  rewrite E. clear E.
  assert (N1 : str_eqb opcion (lit "1") = false).
  { unfold str_eqb. destruct (list_eq_dec Z.eq_dec opcion (lit "1"));
      [contradiction | reflexivity]. }
  assert (N6 : str_eqb opcion (lit "6") = false).
  { unfold str_eqb. destruct (list_eq_dec Z.eq_dec opcion (lit "6"));
      [contradiction | reflexivity]. }
  rewrite N1, N6.
  set (c0 := {| mundo_de := mundo_de c; entrada := resto;
                salida := salida c ++ out |}).
  set (op := if str_eqb opcion (lit "2") then opcion_2 s
             else if str_eqb opcion (lit "3") then opcion_3 int_ s
             else if str_eqb opcion (lit "4") then opcion_4 int_ s
             else if str_eqb opcion (lit "5") then opcion_5 s
             else if str_eqb opcion (lit "7") then
               _ <-- print (nl ++ lit "¡Hasta luego!") ;; retc (Break, s)
             else _ <-- print (lit "[!] Opción inválida") ;; retc (Sigue, s)).
  assert (Hseg : seguro op).
  { subst op.
    destruct (str_eqb opcion (lit "2")); [apply seguro_opcion_2 |].
    destruct (str_eqb opcion (lit "3")); [apply seguro_opcion_3 |].
    destruct (str_eqb opcion (lit "4")); [apply seguro_opcion_4 |].
    destruct (str_eqb opcion (lit "5")); [apply seguro_opcion_5 |].
    destruct (str_eqb opcion (lit "7")); repeat seguro_paso. }
  assert (Hcons : forall ctl s' c', op c0 = (Hecho (ctl, s'), c') -> s' = s).
  { intros ctl s' c' Hop. subst op.
    apply (opciones_conservan int_ s opcion c0 c' ctl s').
    rewrite N6. exact Hop. }
  unfold bindc at 1. specialize (Hseg c0).
  destruct (op c0) as [[[ctl s'] | [ex |] |] c1] eqn:Eop; cbn [fst] in *;
    try contradiction; try reflexivity.
  specialize (Hcons ctl s' c1 eq_refl). subst s'.
  destruct ctl; cbn [fst]; try reflexivity.
  unfold bindc, input_. destruct (entrada c1); reflexivity.
Qed.

Lemma main_iteracion_segura_witness :
  match fst (main_iteracion int_decimal 3 (None, None)
               (consola_con (mundo []) [lit "4"; lit "x"; lit ""])) with
  | Hecho r => snd r = (None, None)
  | Falla f => f = EOFError
  | SinFin => False
  end.
Proof.
  apply (main_iteracion_segura int_decimal 3 (None, None)
           (consola_con (mundo []) [lit "4"; lit "x"; lit ""])
           (lit "4") [lit "x"; lit ""]).
  - reflexivity.
  - vm_compute. discriminate.
  - vm_compute. discriminate.
Defined.

(** *** Leaving the loop *)

Lemma solo_lee_retc {A} (a : A) : solo_lee (retc a).
Proof. intros c. exists []. reflexivity. Qed.

Lemma solo_lee_print (s : pystr) : solo_lee (print s).
Proof. intros c. exists []. reflexivity. Qed.

Lemma solo_lee_input (prompt : pystr) : solo_lee (input_ prompt).
Proof.
  intros c. unfold input_. destruct (entrada c) as [| linea resto].
  - exists []. reflexivity.
  - exists [linea]. reflexivity.
Qed.

Lemma solo_lee_nucleo {A} (m : M A) : solo_lee (nucleo m).
Proof.
  intros c. exists []. unfold nucleo.
  destruct (m (mundo_de c)) as [[a | ex |] w]; reflexivity.
Qed.

Lemma solo_lee_int_c (int_ : pystr -> Z + string) (s : pystr) :
  solo_lee (int_c int_ s).
Proof. intros c. exists []. unfold int_c. destruct (int_ s); reflexivity. Qed.

Lemma solo_lee_bind {A B} (m : C A) (k : A -> C B) :
  solo_lee m -> (forall a, solo_lee (k a)) -> solo_lee (bindc m k).
Proof.
  intros Hm Hk c. unfold bindc. destruct (Hm c) as [pre Hpre].
  destruct (m c) as [[a | f |] c1]; cbn [snd] in *;
    try (exists pre; exact Hpre).
  destruct (Hk a c1) as [pre' Hpre']. exists (pre ++ pre').
  rewrite Hpre, Hpre', app_assoc. reflexivity.
Qed.

Lemma solo_lee_except {A} (body : C A) (handler : exn -> C A) :
  solo_lee body -> (forall ex, solo_lee (handler ex)) ->
  solo_lee (except_ValueError body handler).
Proof.
  intros Hb Hh c. unfold except_ValueError. destruct (Hb c) as [pre Hpre].
  destruct (body c) as [[a | [ex |] |] c1]; cbn [snd] in *;
    try (exists pre; exact Hpre).
  destruct (es_ValueError ex); [| exists pre; exact Hpre].
  destruct (Hh ex c1) as [pre' Hpre']. exists (pre ++ pre').
  rewrite Hpre, Hpre', app_assoc. reflexivity.
Qed.

Lemma solo_lee_mapa_c {A B} (f : A -> C B) (l : list A) :
  (forall x, solo_lee (f x)) -> solo_lee (mapa_c f l).
Proof.
  intros Hf. induction l as [| x l IH]; cbn [mapa_c].
  - apply solo_lee_retc.
  - apply solo_lee_bind; [apply Hf |]. intros y.
    apply solo_lee_bind; [exact IH |]. intros ys. apply solo_lee_retc.
Qed.

Ltac lee_paso :=
  match goal with
  | |- solo_lee (retc _) => apply solo_lee_retc
  | |- solo_lee (print _) => apply solo_lee_print
  | |- solo_lee (input_ _) => apply solo_lee_input
  | |- solo_lee (nucleo _) => apply solo_lee_nucleo
  | |- solo_lee (int_c _ _) => apply solo_lee_int_c
  | |- solo_lee (mapa_c _ _) => apply solo_lee_mapa_c; intros
  | |- solo_lee (except_ValueError _ _) => apply solo_lee_except; [| intros]
  | |- solo_lee (bindc _ _) => apply solo_lee_bind; [| intros]
  | |- solo_lee (if ?b then _ else _) => destruct b
  | |- solo_lee (match ?x with _ => _ end) => destruct x
  end.

Lemma solo_lee_main_iteracion (int_ : pystr -> Z + string) (fuel : nat)
    (s : sesion) :
  solo_lee (main_iteracion int_ fuel s).
Proof.
  unfold main_iteracion, mostrar_menu, opcion_1, opcion_2, opcion_3,
    opcion_4, opcion_5, opcion_6, leer_bloques.
  repeat lee_paso.
Qed.

(** An iteration leaves by [break] only when 7 was chosen, and the
    farewell is the last thing it writes. *)
Lemma break_es_7 (int_ : pystr -> Z + string) (fuel : nat) (s s' : sesion)
    (c c' : consola) :
  main_iteracion int_ fuel s c = (Hecho (Break, s'), c') ->
  hd_error (entrada c) = Some (lit "7") /\
  exists out, salida c' = out ++ [nl ++ lit "¡Hasta luego!" ++ nl].
Proof.
  intros H.
  destruct (entrada c) as [| opcion resto] eqn:He.
  { unfold main_iteracion in H. pelar H.
    destruct (mostrar_menu_efecto c) as [out Em]. rewrite Em in Hm.
    injection Hm as _ <-. unfold input_ in Hm0. cbn [entrada] in Hm0.
    rewrite He in Hm0. discriminate Hm0. }
  destruct (main_iteracion_opcion int_ fuel s c opcion resto He) as [out E].
  rewrite E in H. clear E.
  apply bindc_inv in H. destruct H as (r & c1 & Hop & Hcola).
  pose proof (cola_iteracion _ _ _ _ Hcola) as Hr. subst r.
  cbn [fst] in Hcola. unfold retc in Hcola. injection Hcola as ->.
  destruct (str_eqb opcion (lit "1")).
  { unfold opcion_1 in Hop. pelar Hop. apply retc_sesion in Hop.
    destruct Hop as [_ Hop]. discriminate Hop. }
  destruct (str_eqb opcion (lit "2")).
  { unfold opcion_2 in Hop. destruct (fst s); pelar Hop;
      apply retc_sesion in Hop; destruct Hop as [_ Hop]; discriminate Hop. }
  destruct (str_eqb opcion (lit "3")).
  { unfold opcion_3 in Hop. destruct (snd s); pelar Hop;
      apply retc_sesion in Hop; destruct Hop as [_ Hop]; discriminate Hop. }
  destruct (str_eqb opcion (lit "4")).
  { unfold opcion_4 in Hop. pelar Hop. apply retc_sesion in Hop.
    destruct Hop as [_ Hop]. discriminate Hop. }
  destruct (str_eqb opcion (lit "5")).
  { unfold opcion_5 in Hop. pelar Hop. apply retc_sesion in Hop.
    destruct Hop as [_ Hop]. discriminate Hop. }
  destruct (str_eqb opcion (lit "6")).
  { unfold opcion_6 in Hop. pelar Hop. apply retc_sesion in Hop.
    destruct Hop as [_ Hop]. discriminate Hop. }
  destruct (str_eqb opcion (lit "7")) eqn:E7.
  - unfold str_eqb in E7.
    destruct (list_eq_dec Z.eq_dec opcion (lit "7")) as [-> |];
      [| discriminate E7].
    split; [reflexivity |].
    unfold bindc, print, retc in Hop. injection Hop as _ <-.
    cbn [salida]. exists (salida c ++ out). rewrite <- !app_assoc. reflexivity.
  - pelar Hop. apply retc_sesion in Hop.
    destruct Hop as [_ Hop]. discriminate Hop.
Qed.

(** X22.  [main] returns only through option 7.  If the loop ends without
    an exception, then 7 was one of the lines typed, and the last thing
    written is the farewell. *)
Theorem main_solo_sale_por_7 (int_ : pystr -> Z + string)
    (vueltas fuel : nat) (s : sesion) (c c' : consola) :
  main_bucle int_ vueltas fuel s c = (Hecho tt, c') ->
  In (lit "7") (entrada c) /\
  exists out, salida c' = out ++ [nl ++ lit "¡Hasta luego!" ++ nl].
Proof.
  revert s c. induction vueltas as [| vueltas IH]; intros s c H.
  { discriminate H. }
  cbn [main_bucle] in H.
  apply bindc_inv in H. destruct H as ([ctl s1] & c1 & Hit & H).
  destruct (solo_lee_main_iteracion int_ fuel s c) as [pre Hpre].
  rewrite Hit in Hpre. cbn [snd] in Hpre.
  destruct ctl; cbn [fst snd] in H.
  - apply IH in H. destruct H as [Hin Hout]. split; [| exact Hout].
    rewrite Hpre. apply in_or_app. right. exact Hin.
  - apply IH in H. destruct H as [Hin Hout]. split; [| exact Hout].
    rewrite Hpre. apply in_or_app. right. exact Hin.
  - unfold retc in H. injection H as <-.
    apply break_es_7 in Hit. destruct Hit as [Hhd Hout].
    split; [| exact Hout].
    destruct (entrada c) as [| x l]; [discriminate Hhd |].
    injection Hhd as ->. left. reflexivity.
Qed.

Lemma main_solo_sale_por_7_witness :
  In (lit "7") [lit "5"; lit ""; lit "7"; lit "1"] /\
  exists out,
    salida (snd (main_bucle int_decimal 4 3 (None, None)
                   (consola_con (mundo []) [lit "5"; lit ""; lit "7"; lit "1"])))
    = out ++ [nl ++ lit "¡Hasta luego!" ++ nl].
Proof.
  apply (main_solo_sale_por_7 int_decimal 4 3 (None, None)
           (consola_con (mundo []) [lit "5"; lit ""; lit "7"; lit "1"])).
  vm_compute. reflexivity.
Defined.

Lemma bindc_falla {A B} (m : C A) (k : A -> C B) (c : consola) (f : fallo) :
  fst (m c) = Falla f -> fst (bindc m k c) = Falla f.
Proof.
  unfold bindc. destruct (m c) as [[a | f' |] c1]; cbn [fst];
    intros H; try discriminate H. injection H as ->. reflexivity.
Qed.

Lemma bindc_sinfin {A B} (m : C A) (k : A -> C B) (c : consola) :
  fst (m c) = SinFin -> fst (bindc m k c) = SinFin.
Proof.
  unfold bindc. destruct (m c) as [[a | f' |] c1]; cbn [fst];
    intros H; try discriminate H; reflexivity.
Qed.

Lemma bindc_hecho {A B} (m : C A) (k : A -> C B) (c c1 : consola) (a : A) :
  m c = (Hecho a, c1) -> bindc m k c = k a c1.
Proof. unfold bindc. intros ->. reflexivity. Qed.

(** Asked for fewer than 4 bits, [generar_claves] asks [generar_primo]
    for primes of one bit or less. *)
Lemma generar_claves_diminutas (fuel : nat) (bits : Z) (w : world) :
  bits < 4 ->
  (bits < 2 ->
   exists m, generar_claves (S fuel) (Some bits) w = (Raise (ValueError m), w)) /\
  (2 <= bits -> fst (generar_claves fuel (Some bits) w) = Diverge).
Proof.
  intros Hb. unfold generar_claves, bind. cbv beta iota zeta. split.
  - intros H2.
    assert (Hk : bits / 2 <= 0).
    { apply Z.lt_succ_r. apply Z.div_lt_upper_bound; lia. }
    destruct (generar_primo_sin_bits fuel (bits / 2) w Hk) as [m ->].
    exists m. reflexivity.
  - intros H2.
    assert (Hk : bits / 2 = 1).
    { symmetry. apply (Z.div_unique bits 2 1 (bits - 2)); lia. }
    rewrite Hk.
    pose proof (generar_primo_un_bit fuel w) as Hd.
    destruct (generar_primo fuel (Some 1) w) as [[p | ex |] w1];
      cbn [fst] in Hd; try discriminate Hd.
    reflexivity.
Qed.

(** X23.  Keys of fewer than 4 bits cannot be had from option 1.  A size
    below 2 ends the program with the [ValueError] of [generar_primo],
    which no [try] of [main] catches; a size of 2 or 3 asks for primes of
    one bit and the iteration never ends. *)
Theorem opcion_1_claves_diminutas (int_ : pystr -> Z + string) (fuel : nat)
    (s : sesion) (c : consola) (t : pystr) (resto : list pystr) (bits : Z) :
  entrada c = lit "1" :: t :: resto ->
  int_ t = inl bits ->
  bits < 4 ->
  (bits < 2 -> (0 < fuel)%nat ->
   exists m, fst (main_iteracion int_ fuel s c)
             = Falla (Excepcion (ValueError m))) /\
  (2 <= bits -> fst (main_iteracion int_ fuel s c) = SinFin).
Proof.
  intros He Ht Hb.
  destruct (main_iteracion_opcion int_ fuel s c (lit "1") (t :: resto) He)
    as [out E].
  rewrite E. clear E.
  change (str_eqb (lit "1") (lit "1")) with true. cbv iota.
  set (c0 := {| mundo_de := mundo_de c; entrada := t :: resto;
                salida := salida c ++ out |}).
  set (c1 := {| mundo_de := mundo_de c; entrada := resto;
                salida := (salida c ++ out)
                          ++ [lit "Tamaño de clave (bits, recomendado 1024-2048): "] |}).
  assert (E1 : forall k : Z -> C (control * sesion),
             (t0 <-- input_ (lit "Tamaño de clave (bits, recomendado 1024-2048): ") ;;
              bits0 <-- int_c int_ t0 ;; k bits0) c0
             = k bits c1).
  { intros k.
    rewrite (bindc_hecho _ _ c0 c1 t) by reflexivity.
    apply bindc_hecho. unfold int_c. rewrite Ht. reflexivity. }
  destruct (generar_claves_diminutas (Nat.pred fuel) bits (mundo_de c) Hb)
    as [Hraise _].
  destruct (generar_claves_diminutas fuel bits (mundo_de c) Hb)
    as [_ Hdiv].
  split.
  - intros H2 Hf. destruct (Hraise H2) as [m Em].
    replace (S (Nat.pred fuel)) with fuel in Em by lia.
    exists m. apply bindc_falla. unfold opcion_1. rewrite E1.
    apply bindc_falla. unfold nucleo. subst c1. cbn [mundo_de].
    rewrite Em. reflexivity.
  - intros H2. specialize (Hdiv H2).
    apply bindc_sinfin. unfold opcion_1. rewrite E1.
    apply bindc_sinfin. unfold nucleo. subst c1. cbn [mundo_de].
    destruct (generar_claves fuel (Some bits) (mundo_de c)) as [[r | ex |] w];
      cbn [fst] in Hdiv; try discriminate Hdiv.
    reflexivity.
Qed.

Lemma opcion_1_claves_diminutas_witness :
  (exists m, fst (main_iteracion int_decimal 3 (None, None)
                    (consola_con (mundo []) [lit "1"; lit "1"; lit "7"]))
             = Falla (Excepcion (ValueError m))).
Proof.
  apply (proj1 (opcion_1_claves_diminutas int_decimal 3 (None, None)
                  (consola_con (mundo []) [lit "1"; lit "1"; lit "7"])
                  (lit "1") [lit "7"] 1
                  ltac:(reflexivity) ltac:(reflexivity) ltac:(lia)));
    lia.
Defined.

(** *** What option 2 prints, option 3 reads *)

(** The characters of a printed integer: digits and the minus sign. *)
Lemma str_int_caracteres (z : Z) :
  Forall (fun c => 48 <= c <= 57 \/ c = 45) (str_int z).
Proof.
  unfold str_int.
  assert (Hu : forall d,
             Forall (fun c => 48 <= c <= 57 \/ c = 45)
               (pystr_of_string (DecimalString.NilEmpty.string_of_uint d))).
  { induction d; cbn [DecimalString.NilEmpty.string_of_uint pystr_of_string];
      constructor; try exact IHd; try (left; vm_compute; split; discriminate). }
  assert (Hn : forall d,
             Forall (fun c => 48 <= c <= 57 \/ c = 45)
               (pystr_of_string (DecimalString.NilZero.string_of_uint d))).
  { intros d. unfold DecimalString.NilZero.string_of_uint.
    destruct d; try apply Hu.
    constructor; [left; vm_compute; split; discriminate | constructor]. }
  unfold DecimalString.NilZero.string_of_int.
  destruct (Z.to_int z) as [d | d]; [apply Hn |].
  cbn [pystr_of_string]. constructor; [right; reflexivity | apply Hn].
Qed.

Lemma split_char_sin (sep : Z) (a : pystr) :
  Forall (fun c => c <> sep) a -> split_char sep a = [a].
Proof.
  induction 1 as [| c a Hc _ IH]; [reflexivity |].
  cbn [split_char]. destruct (Z.eqb_spec c sep); [contradiction |].
  rewrite IH. reflexivity.
Qed.

Lemma split_char_app (sep : Z) (a b : pystr) :
  Forall (fun c => c <> sep) a ->
  split_char sep (a ++ sep :: b) = a :: split_char sep b.
Proof.
  induction 1 as [| c a Hc _ IH]; cbn [app split_char].
  - rewrite Z.eqb_refl. reflexivity.
  - destruct (Z.eqb_spec c sep); [contradiction |]. rewrite IH. reflexivity.
Qed.

Lemma lstrip_sin (s : pystr) :
  Forall (fun c => isspace c = false) s -> lstrip s = s.
Proof. destruct 1 as [| c s Hc _]; [reflexivity |]. cbn. rewrite Hc. reflexivity. Qed.

Lemma strip_sin (s : pystr) :
  Forall (fun c => isspace c = false) s -> strip s = s.
Proof.
  intros H. unfold strip. rewrite (lstrip_sin s H).
  rewrite lstrip_sin; [apply rev_involutive |].
  apply Forall_rev. exact H.
Qed.

Lemma strip_espacio (s : pystr) :
  Forall (fun c => isspace c = false) s -> strip (32 :: s) = s.
Proof.
  intros H. unfold strip. change (lstrip (32 :: s)) with (lstrip s).
  exact (strip_sin s H).
Qed.

Lemma cifra_no_coma (c : Z) : 48 <= c <= 57 \/ c = 45 -> c <> 44.
Proof. lia. Qed.

Lemma cifra_no_espacio (c : Z) : 48 <= c <= 57 \/ c = 45 -> isspace c = false.
Proof.
  intros [H | ->]; [| reflexivity].
  assert (Hc : c = 48 \/ c = 49 \/ c = 50 \/ c = 51 \/ c = 52 \/ c = 53
               \/ c = 54 \/ c = 55 \/ c = 56 \/ c = 57) by lia.
  repeat (destruct Hc as [-> | Hc]; [reflexivity |]).
  subst c. reflexivity.
Qed.

(** The line of blocks, taken apart at the commas. *)
Lemma split_join (z : Z) (zs : list Z) :
  split_char 44 (join [44; 32] (map str_int (z :: zs)))
  = str_int z :: map (fun x => 32 :: str_int x) zs.
Proof.
  revert z. induction zs as [| z' zs IH]; intros z.
  - cbn [map join]. apply split_char_sin.
    eapply Forall_impl; [| apply str_int_caracteres]. apply cifra_no_coma.
  - change (join [44; 32] (map str_int (z :: z' :: zs)))
      with (str_int z ++ 44 :: 32 :: join [44; 32] (map str_int (z' :: zs))).
    rewrite split_char_app
      by (eapply Forall_impl; [| apply str_int_caracteres]; apply cifra_no_coma).
    f_equal. cbn [split_char]. change (32 =? 44) with false. cbv iota.
    rewrite IH. reflexivity.
Qed.

Lemma mapa_c_leidos (int_ : pystr -> Z + string) (f : Z -> pystr)
    (zs : list Z) (c : consola) :
  (forall z, strip (f z) = str_int z) ->
  Forall (fun z => int_ (str_int z) = inl z) zs ->
  mapa_c (fun b => int_c int_ (strip b)) (map f zs) c = (Hecho zs, c).
Proof.
  intros Hf. induction 1 as [| z zs Hz _ IH]; [reflexivity |].
  cbn [map mapa_c].
  rewrite (bindc_hecho _ _ c c z)
    by (unfold int_c; rewrite Hf, Hz; reflexivity).
  rewrite (bindc_hecho _ _ c c zs) by exact IH.
  reflexivity.
Qed.

(** X24.  What option 2 prints, option 3 reads.  The line
    [", ".join(map(str, cifrado))] is turned back into the same list by
    [[int(b.strip()) for b in entrada.split(",")]], provided the list is
    not empty and [int] reads back what [str] wrote.  The empty list is
    printed as an empty line, which is refused, since [int] of the empty
    string fails. *)
Theorem bloques_impresos_se_leen (int_ : pystr -> Z + string)
    (cifrado : list Z) (c : consola) :
  Forall (fun z => int_ (str_int z) = inl z) cifrado ->
  (cifrado <> [] ->
   leer_bloques int_ (join (lit ", ") (map str_int cifrado)) c
   = (Hecho cifrado, c)) /\
  (forall m, cifrado = [] -> int_ [] = inr m ->
   leer_bloques int_ (join (lit ", ") (map str_int cifrado)) c
   = (Falla (Excepcion (ValueError m)), c)).
Proof.
  intros Hint. change (lit ", ") with [44; 32]. unfold leer_bloques. split.
  - intros Hne. destruct cifrado as [| z zs]; [congruence |].
    rewrite split_join.
    inversion Hint as [| z0 zs0 Hz Hzs]; subst.
    assert (Hsin : forall x, Forall (fun c => isspace c = false) (str_int x)).
    { intros x. eapply Forall_impl; [| apply str_int_caracteres].
      apply cifra_no_espacio. }
    cbn [mapa_c].
    rewrite (bindc_hecho _ _ c c z)
      by (unfold int_c; rewrite (strip_sin _ (Hsin z)), Hz; reflexivity).
    rewrite (bindc_hecho _ _ c c zs); [reflexivity |].
    apply (mapa_c_leidos int_ (fun x => 32 :: str_int x) zs c); [| exact Hzs].
    intros x. apply strip_espacio, Hsin.
  - intros m -> Hm. cbn [map join split_char mapa_c].
    unfold bindc, int_c. change (strip []) with (@nil Z). rewrite Hm.
    reflexivity.
Qed.

Lemma bloques_impresos_se_leen_witness :
  leer_bloques int_decimal (join (lit ", ") (map str_int [0; 18391; -7]))
    (consola_con (mundo []) [])
  = (Hecho [0; 18391; -7], consola_con (mundo []) []).
Proof.
  apply (proj1 (bloques_impresos_se_leen int_decimal [0; 18391; -7]
                  (consola_con (mundo []) [])
                  ltac:(repeat constructor))).
  discriminate.
Defined.
